(** * hq: the command-center scanner, the project aggregators and the
      PRD migration script

    A shallow embedding of the JavaScript sources of the dashboard:

    - [Scanner]:   the mutation CLI over [public/data.json]
                   ([findTaskById], [clearCurrentFlags], [cmdMarkDone],
                   [cmdSetCurrent], [loadData], [saveData], the argument
                   dispatch) and [calculateProgress];
    - [Js]:        strings as sequences of UTF-16 code units, the white
                   space classes, and the fragment of regular expressions
                   the sources use;
    - [Checklist]: [parseChecklists], shared verbatim by both aggregators;
    - [Migrate]:   [parsePRD], [slugify] and the section merge of
                   [migrateRepo];
    - [LiveApi]:   the auto-discovering aggregator (document version 3.0.0);
    - [ConfigApi]: the statically configured aggregator (version 2.0.0).

    Definitions come first, the facts proved about them follow. *)

From Stdlib Require Import ZArith NArith Lia.
From stdpp Require Import base option list strings numbers pretty.

Local Open Scope Z_scope.

(* ================================================================== *)
(** * Part I: definitions                                              *)
(* ================================================================== *)

(** A generic early-exit loop: [first_some f l] is the result of the first
    iteration of [for (const a of l)] in which [f a] returns, together with
    the index of that iteration. *)
Fixpoint first_some {A B} (f : A → option B) (l : list A) : option (nat * B) :=
  match l with
  | [] => None
  | a :: l' =>
      match f a with
      | Some b => Some (0%nat, b)
      | None => prod_map S id <$> first_some f l'
      end
  end.

(* ------------------------------------------------------------------ *)
(** ** The scanner CLI (scanner.js)                                    *)
(* ------------------------------------------------------------------ *)
Module Scanner.

(** *** The stored document

    Nodes are JSON objects.  [current] is a property that the code both
    assigns and [delete]s, so it is optional; [done] is only ever read for
    truthiness and assigned [true]; [completedAt] is absent until stamped.
    [*_extra] stands for whatever further properties a node carries: no
    command reads or writes them. *)
Record Subtask := mkSubtask {
  s_id : string;
  s_name : string;
  s_done : bool;
  s_completedAt : option string;
  s_current : option bool;
  s_extra : list (string * string) }.

Record Task := mkTask {
  t_id : string;
  t_name : string;
  t_done : bool;
  t_completedAt : option string;
  t_current : option bool;
  t_subtasks : option (list Subtask);
  t_extra : list (string * string) }.

Record Milestone := mkMilestone {
  m_id : string;
  m_name : string;
  m_done : bool;
  m_completedAt : option string;
  m_current : option bool;
  m_tasks : option (list Task);
  m_extra : list (string * string) }.

Record Project := mkProject {
  p_id : string;
  p_name : string;
  p_emoji : string;
  p_status : string;
  p_prdPath : option string;
  p_milestones : list Milestone;
  p_extra : list (string * string) }.

Record Meta := mkMeta {
  lastUpdated : string;
  lastScanType : string;
  meta_extra : list (string * string) }.

Record Document := mkDocument {
  meta : Meta;
  projects : list Project }.

(** Property assignment, one setter per property the commands write. *)
Definition s_set_done (b : bool) (s : Subtask) : Subtask :=
  mkSubtask (s_id s) (s_name s) b (s_completedAt s) (s_current s) (s_extra s).
Definition s_set_completedAt (c : option string) (s : Subtask) : Subtask :=
  mkSubtask (s_id s) (s_name s) (s_done s) c (s_current s) (s_extra s).
Definition s_set_current (c : option bool) (s : Subtask) : Subtask :=
  mkSubtask (s_id s) (s_name s) (s_done s) (s_completedAt s) c (s_extra s).

Definition t_set_done (b : bool) (t : Task) : Task :=
  mkTask (t_id t) (t_name t) b (t_completedAt t) (t_current t) (t_subtasks t) (t_extra t).
Definition t_set_completedAt (c : option string) (t : Task) : Task :=
  mkTask (t_id t) (t_name t) (t_done t) c (t_current t) (t_subtasks t) (t_extra t).
Definition t_set_current (c : option bool) (t : Task) : Task :=
  mkTask (t_id t) (t_name t) (t_done t) (t_completedAt t) c (t_subtasks t) (t_extra t).
Definition t_set_subtasks (ss : option (list Subtask)) (t : Task) : Task :=
  mkTask (t_id t) (t_name t) (t_done t) (t_completedAt t) (t_current t) ss (t_extra t).

Definition m_set_done (b : bool) (m : Milestone) : Milestone :=
  mkMilestone (m_id m) (m_name m) b (m_completedAt m) (m_current m) (m_tasks m) (m_extra m).
Definition m_set_completedAt (c : option string) (m : Milestone) : Milestone :=
  mkMilestone (m_id m) (m_name m) (m_done m) c (m_current m) (m_tasks m) (m_extra m).
Definition m_set_current (c : option bool) (m : Milestone) : Milestone :=
  mkMilestone (m_id m) (m_name m) (m_done m) (m_completedAt m) c (m_tasks m) (m_extra m).
Definition m_set_tasks (ts : option (list Task)) (m : Milestone) : Milestone :=
  mkMilestone (m_id m) (m_name m) (m_done m) (m_completedAt m) (m_current m) ts (m_extra m).

Definition p_set_milestones (ms : list Milestone) (p : Project) : Project :=
  mkProject (p_id p) (p_name p) (p_emoji p) (p_status p) (p_prdPath p) ms (p_extra p).

Definition meta_set_lastUpdated (s : string) (x : Meta) : Meta :=
  mkMeta s (lastScanType x) (meta_extra x).
Definition meta_set_lastScanType (s : string) (x : Meta) : Meta :=
  mkMeta (lastUpdated x) s (meta_extra x).

Definition set_meta (x : Meta) (d : Document) : Document := mkDocument x (projects d).
Definition set_projects (ps : list Project) (d : Document) : Document := mkDocument (meta d) ps.

(** *** References into the document

    [findTaskById] returns [{ type, item, parent }] where [item] and
    [parent] are references to objects of the tree; later assignments
    through them mutate the tree in place.  A reference is modelled as the
    position of the object: the indices of the loops that reached it. *)
Inductive Found :=
| FoundMilestone (p m : nat)
| FoundTask (p m t : nat)
| FoundSubtask (p m t s : nat).

Definition found_type (f : Found) : string :=
  match f with
  | FoundMilestone _ _ => "milestone"
  | FoundTask _ _ _ => "task"
  | FoundSubtask _ _ _ _ => "subtask"
  end.

(** The project and milestone a reference lies in. *)
Definition found_project (f : Found) : nat :=
  match f with
  | FoundMilestone p _ | FoundTask p _ _ | FoundSubtask p _ _ _ => p
  end.

Definition found_milestone (f : Found) : nat :=
  match f with
  | FoundMilestone _ m | FoundTask _ m _ | FoundSubtask _ m _ _ => m
  end.

(** Writing through a reference. *)
Definition at_milestone (f : Milestone → Milestone) (p m : nat) (d : Document) : Document :=
  set_projects
    (alter (λ P, p_set_milestones (alter f m (p_milestones P)) P) p (projects d)) d.

Definition at_task (f : Task → Task) (p m t : nat) (d : Document) : Document :=
  at_milestone (λ M, m_set_tasks (alter f t <$> m_tasks M) M) p m d.

Definition at_subtask (f : Subtask → Subtask) (p m t s : nat) (d : Document) : Document :=
  at_task (λ T, t_set_subtasks (alter f s <$> t_subtasks T) T) p m t d.

(** Reading through a reference. *)
Definition get_milestone (d : Document) (p m : nat) : option Milestone :=
  P ← projects d !! p; p_milestones P !! m.

Definition get_task (d : Document) (p m t : nat) : option Task :=
  M ← get_milestone d p m; ts ← m_tasks M; ts !! t.

Definition get_subtask (d : Document) (p m t s : nat) : option Subtask :=
  T ← get_task d p m t; ss ← t_subtasks T; ss !! s.

(** [found.item.name] *)
Definition item_name (d : Document) (f : Found) : option string :=
  match f with
  | FoundMilestone p m => m_name <$> get_milestone d p m
  | FoundTask p m t => t_name <$> get_task d p m t
  | FoundSubtask p m t s => s_name <$> get_subtask d p m t s
  end.

(** *** findTaskById

    Depth-first, in document order: a milestone's own id, then each of its
    tasks, each task followed by its subtasks, before the next milestone. *)
Definition find_in_task (taskId : string) (t : Task) : option (option nat) :=
  if bool_decide (t_id t = taskId) then Some None
  else match t_subtasks t with
       | Some ss => (λ r, Some (fst r)) <$> list_find (λ s, s_id s = taskId) ss
       | None => None
       end.

Definition find_in_milestone (taskId : string) (m : Milestone)
  : option (option (nat * option nat)) :=
  if bool_decide (m_id m = taskId) then Some None
  else match m_tasks m with
       | Some ts => Some <$> first_some (find_in_task taskId) ts
       | None => None
       end.

Definition find_in_project (taskId : string) (P : Project) :=
  first_some (find_in_milestone taskId) (p_milestones P).

Definition findTaskById (data : Document) (taskId : string) : option Found :=
  match first_some (find_in_project taskId) (projects data) with
  | Some (p, (m, None)) => Some (FoundMilestone p m)
  | Some (p, (m, Some (t, None))) => Some (FoundTask p m t)
  | Some (p, (m, Some (t, Some s))) => Some (FoundSubtask p m t s)
  | None => None
  end.

(** *** clearCurrentFlags *)
Definition clear_subtask (s : Subtask) : Subtask := s_set_current None s.

Definition clear_task (t : Task) : Task :=
  t_set_subtasks (fmap (M:=list) clear_subtask <$> t_subtasks t) (t_set_current None t).

Definition clear_milestone (m : Milestone) : Milestone :=
  m_set_tasks (fmap (M:=list) clear_task <$> m_tasks m) (m_set_current None m).

Definition clear_project (P : Project) : Project :=
  p_set_milestones (clear_milestone <$> p_milestones P) P.

Definition clearCurrentFlags (data : Document) : Document :=
  set_projects (clear_project <$> projects data) data.

(** *** The process: data file, clock, console, exit

    A command runs against the world it can observe and change: the
    content of [DATA_FILE] ([None] when the file is missing or is not
    JSON), the wall clock (the [n]-th evaluation of
    [new Date().toISOString()] reads [clock n]), the number of
    [fs.writeFileSync] calls made, and the console.  [process.exit] ends
    the run: nothing after it is executed. *)
Inductive Msg :=
| CouldNotLoad
| Saved
| TaskNotFound (taskId : string)
| MissingTaskId
| MarkedDone (name : string)
| NextItem (name : string)
| SetAsCurrent (name : string)
| Report (text : string).

Record World := mkWorld {
  file : option Document;
  clock : nat → string;
  ticks : nat;
  writes : nat;
  console : list Msg }.

Inductive Outcome (A : Type) :=
| Return (a : A)
| Exit (code : Z).
Arguments Return {A} a.
Arguments Exit {A} code.

Definition Cmd (A : Type) : Type := World → Outcome A * World.

#[global] Instance cmd_ret : MRet Cmd := λ A a w, (Return a, w).
#[global] Instance cmd_bind : MBind Cmd := λ A B k c w,
  match c w with
  | (Return a, w') => k a w'
  | (Exit code, w') => (Exit code, w')
  end.

Definition process_exit {A} (code : Z) : Cmd A := λ w, (Exit code, w).

Definition console_log (m : Msg) : Cmd () := λ w,
  (Return (), mkWorld (file w) (clock w) (ticks w) (writes w) (console w ++ [m])).

(** [console.error] goes to the same terminal. *)
Definition console_error (m : Msg) : Cmd () := console_log m.

Definition new_Date_toISOString : Cmd string := λ w,
  (Return (clock w (ticks w)),
   mkWorld (file w) (clock w) (S (ticks w)) (writes w) (console w)).

Definition readFileSync_parse : Cmd (option Document) := λ w, (Return (file w), w).

Definition writeFileSync (d : Document) : Cmd () := λ w,
  (Return (), mkWorld (Some d) (clock w) (ticks w) (S (writes w)) (console w)).

Definition loadData : Cmd Document :=
  r ← readFileSync_parse;
  match r with
  | Some data => mret data
  | None => console_error CouldNotLoad;; process_exit 1
  end.

Definition saveData (data : Document) : Cmd () :=
  now ← new_Date_toISOString;
  let data := set_meta (meta_set_lastUpdated now (meta data)) data in
  writeFileSync data;;
  console_log Saved.

(** *** cmdMarkDone *)

(** [found.item.done = true; found.item.completedAt = ...;
    delete found.item.current], for each kind of item. *)
Definition mark_milestone (stamp : string) (x : Milestone) : Milestone :=
  m_set_current None (m_set_completedAt (Some stamp) (m_set_done true x)).
Definition mark_task (stamp : string) (x : Task) : Task :=
  t_set_current None (t_set_completedAt (Some stamp) (t_set_done true x)).
Definition mark_subtask (stamp : string) (x : Subtask) : Subtask :=
  s_set_current None (s_set_completedAt (Some stamp) (s_set_done true x)).

Definition mark_item (stamp : string) (found : Found) (data : Document) : Document :=
  match found with
  | FoundMilestone p m => at_milestone (mark_milestone stamp) p m data
  | FoundTask p m t => at_task (mark_task stamp) p m t data
  | FoundSubtask p m t s => at_subtask (mark_subtask stamp) p m t s data
  end.

(** [Array.prototype.findIndex], [-1] when no element satisfies the test. *)
Definition findIndex (taskId : string) (ss : list Subtask) : Z :=
  match list_find (λ s, s_id s = taskId) ss with
  | Some (i, _) => Z.of_nat i
  | None => -1
  end.

(** [found.parent.subtasks] when [found.type === 'subtask']. *)
Definition parent_subtasks (data : Document) (found : Found) : option (list Subtask) :=
  match found with
  | FoundSubtask p m t _ => T ← get_task data p m t; t_subtasks T
  | _ => None
  end.

(** The auto-advance block: returns the document and the name it logs. *)
Definition auto_advance (taskId : string) (found : Found) (data : Document)
  : Document * option string :=
  match found, parent_subtasks data found with
  | FoundSubtask p m t _, Some subtasks =>
      let idx := findIndex taskId subtasks in
      if bool_decide (idx < Z.of_nat (length subtasks) - 1) then
        let data' := at_subtask (s_set_current (Some true)) p m t (Z.to_nat (idx + 1)) data in
        (data', s_name <$> get_subtask data' p m t (Z.to_nat (idx + 1)))
      else (data, None)
  | _, _ => (data, None)
  end.

Definition cmdMarkDone (taskId : string) : Cmd () :=
  data ← loadData;
  match findTaskById data taskId with
  | None => console_error (TaskNotFound taskId);; process_exit 1
  | Some found =>
      stamp ← new_Date_toISOString;
      let data := mark_item stamp found data in
      console_log (MarkedDone (default "" (item_name data found)));;
      let '(data, next) := auto_advance taskId found data in
      match next with
      | Some n => console_log (NextItem n)
      | None => mret ()
      end;;
      saveData data
  end.

(** *** cmdSetCurrent *)

(** [found.item.current = true] *)
Definition set_item_current (found : Found) (data : Document) : Document :=
  match found with
  | FoundMilestone p m => at_milestone (m_set_current (Some true)) p m data
  | FoundTask p m t => at_task (t_set_current (Some true)) p m t data
  | FoundSubtask p m t s => at_subtask (s_set_current (Some true)) p m t s data
  end.

(** The test of the parent search:
    [milestone.tasks.some(t => t.id === taskId ||
       (t.subtasks && t.subtasks.some(s => s.id === taskId)))]. *)
Definition task_has (taskId : string) (t : Task) : bool :=
  bool_decide (t_id t = taskId)
  || match t_subtasks t with
     | Some ss => existsb (λ s, bool_decide (s_id s = taskId)) ss
     | None => false
     end.

Definition hasTask (taskId : string) (m : Milestone) : bool :=
  match m_tasks m with
  | Some ts => existsb (task_has taskId) ts
  | None => false
  end.

(** The inner loop over [project.milestones]: the first milestone that
    passes the test is made current and [break] leaves this loop. *)
Fixpoint mark_parent_in (taskId : string) (ms : list Milestone) : list Milestone :=
  match ms with
  | [] => []
  | m :: ms' =>
      if hasTask taskId m then m_set_current (Some true) m :: ms'
      else m :: mark_parent_in taskId ms'
  end.

(** The outer loop over [data.projects]: [break] does not leave it, every
    project is visited. *)
Definition mark_parent_milestone (taskId : string) (data : Document) : Document :=
  set_projects
    ((λ P, p_set_milestones (mark_parent_in taskId (p_milestones P)) P) <$> projects data)
    data.

Definition set_current (taskId : string) (found : Found) (data : Document) : Document :=
  let data := clearCurrentFlags data in
  let data := set_item_current found data in
  if bool_decide (found_type found = "task") || bool_decide (found_type found = "subtask")
  then mark_parent_milestone taskId data
  else data.

Definition cmdSetCurrent (taskId : string) : Cmd () :=
  data ← loadData;
  match findTaskById data taskId with
  | None => console_error (TaskNotFound taskId);; process_exit 1
  | Some found =>
      let data := set_current taskId found data in
      console_log (SetAsCurrent (default "" (item_name data found)));;
      saveData data
  end.

(** *** The other commands, as far as the data file is concerned

    [cmdScan] reports on the local checkouts (directory, git state, PRD
    counts: console output, elided here), then sets [meta.lastScanType]
    and saves; [cmdStatus] only loads and prints; [cmdHelp] only prints. *)
Definition cmdScan (projectId : option string) : Cmd () :=
  data ← loadData;
  let data := set_meta (meta_set_lastScanType "auto" (meta data)) data in
  saveData data.

Definition cmdStatus : Cmd () := _ ← loadData; mret ().

Definition cmdHelp : Cmd () := console_log (Report "usage").

(** *** The argument dispatch *)
Definition includes (x : string) (args : list string) : bool := bool_decide (x ∈ args).

(** [args[args.indexOf(x) + 1]], for an [x] that [args] includes. *)
Definition arg_after (x : string) (args : list string) : option string :=
  match list_find (λ a, a = x) args with
  | Some (idx, _) => args !! S idx
  | None => args !! 0%nat
  end.

(** [!taskId]: [undefined] and the empty string are falsy. *)
Definition falsy (a : option string) : bool :=
  match a with
  | None => true
  | Some s => bool_decide (s = "")
  end.

Definition main (args : list string) : Cmd () :=
  if includes "--help" args || includes "-h" args then cmdHelp
  else if includes "--status" args then cmdStatus
  else if includes "--mark-done" args then
    let taskId := arg_after "--mark-done" args in
    if falsy taskId then console_error MissingTaskId;; process_exit 1
    else cmdMarkDone (default "" taskId)
  else if includes "--set-current" args then
    let taskId := arg_after "--set-current" args in
    if falsy taskId then console_error MissingTaskId;; process_exit 1
    else cmdSetCurrent (default "" taskId)
  else if includes "--project" args then cmdScan (arg_after "--project" args)
  else cmdScan None.

(** *** Counting the focus flags *)
Definition is_true (c : option bool) : bool :=
  match c with Some true => true | _ => false end.

Definition all_milestones (d : Document) : list Milestone :=
  P ← projects d; p_milestones P.

Definition all_tasks (d : Document) : list Task :=
  M ← all_milestones d; default [] (m_tasks M).

Definition all_subtasks (d : Document) : list Subtask :=
  T ← all_tasks d; default [] (t_subtasks T).

Definition current_milestones (d : Document) : list Milestone :=
  filter (λ M, is_true (m_current M) = true) (all_milestones d).

Definition current_tasks (d : Document) : list Task :=
  filter (λ T, is_true (t_current T) = true) (all_tasks d).

Definition current_subtasks (d : Document) : list Subtask :=
  filter (λ S, is_true (s_current S) = true) (all_subtasks d).

(** The document a run leaves in the data file. *)
Definition stored_after (c : Cmd ()) (w : World) : option Document := file (snd (c w)).

(** *** The properties Mark-done may write

    [forget p m t s d] blanks, in [d], the three properties of the subtask
    at [p, m, t, s] that marking it done assigns, the [current] property of
    the sibling that follows it, and [meta.lastUpdated].  Two documents
    with the same image agree on every other property of every node. *)
Definition forget_marks (x : Subtask) : Subtask :=
  s_set_current None (s_set_completedAt None (s_set_done false x)).

Definition forget (p m t s : nat) (d : Document) : Document :=
  set_meta (meta_set_lastUpdated "" (meta d))
    (at_subtask forget_marks p m t s
       (at_subtask (s_set_current None) p m t (S s) d)).

(** The sibling list a subtask reference points into. *)
Definition siblings (d : Document) (p m t : nat) : list Subtask :=
  default [] (T ← get_task d p m t; t_subtasks T).

(** The [id] property of the object a reference points to. *)
Definition found_id (d : Document) (f : Found) : option string :=
  match f with
  | FoundMilestone p m => m_id <$> get_milestone d p m
  | FoundTask p m t => t_id <$> get_task d p m t
  | FoundSubtask p m t s => s_id <$> get_subtask d p m t s
  end.

(** *** calculateProgress: the counting loop

    [total] and [done] are bumped once per leaf: per subtask of a task
    that has subtasks, per task without, per milestone without tasks
    ([x?.length] is falsy for a missing and for an empty array).  The
    function returns [Math.round((done / total) * 100)] when [total > 0],
    and [0] otherwise. *)
Record Counters := mkCounters {
  total : nat;
  done : nat }.

(** [total++; if (x.done) done++;] *)
Definition tally (is_done : bool) (c : Counters) : Counters :=
  mkCounters (S (total c)) (if is_done then S (done c) else done c).

Definition count_task (c : Counters) (t : Task) : Counters :=
  match t_subtasks t with
  | Some (s :: ss) => foldl (λ c s, tally (s_done s) c) c (s :: ss)
  | _ => tally (t_done t) c
  end.

Definition count_milestone (c : Counters) (m : Milestone) : Counters :=
  match m_tasks m with
  | Some (t :: ts) => foldl count_task c (t :: ts)
  | _ => tally (m_done m) c
  end.

Definition progress_counters (project : Project) : Counters :=
  foldl count_milestone (mkCounters 0 0) (p_milestones project).

Section Arithmetic.
(** [Math.round((done / total) * 100)]: a quotient, a product and a
    rounding in double-precision floating point, which the host computes;
    it is a parameter here. *)
Variable round_percent : nat → nat → Z.

Definition calculateProgress (project : Project) : Z :=
  let c := progress_counters project in
  if bool_decide (0 < total c)%nat then round_percent (done c) (total c) else 0.

End Arithmetic.

(** What one run of a counting loop keeps: [done] stays within [total],
    and [total] grows by at least [n]. *)
Definition grows (n : nat) (c c' : Counters) : Prop :=
  (total c + n ≤ total c')%nat ∧ (done c' + total c ≤ total c' + done c)%nat
  ∧ (done c ≤ done c')%nat.

End Scanner.

(** *** Sample data files *)
Module ScannerSamples.
Import Scanner.

Definition subtask (id : string) (done : bool) (current : option bool) : Subtask :=
  mkSubtask id id done None current [].

Definition task (id : string) (current : option bool) (ss : option (list Subtask)) : Task :=
  mkTask id id false None current ss [].

Definition milestone (id : string) (current : option bool) (ts : option (list Task)) : Milestone :=
  mkMilestone id id false None current ts [].

Definition project (id : string) (ms : list Milestone) : Project :=
  mkProject id id "" "active" None ms [].

Definition meta0 : Meta := mkMeta "2025-01-01T00:00:00.000Z" "manual" [].

(** One project, one task with three subtasks, nothing in focus. *)
Definition loom : Document :=
  mkDocument meta0
    [project "loomiverse"
       [milestone "l-m1" None
          (Some [task "l-t9" None
                   (Some [subtask "l-s5" false None;
                          subtask "l-s6" false None;
                          subtask "l-s7" false None])])]].

(** Two projects that both number their nodes [m1], [t1] as the README's
    sample of the file does. *)
Definition twins : Document :=
  mkDocument meta0
    [project "alpha" [milestone "m1" None (Some [task "t1" None None])];
     project "beta" [milestone "m1" None (Some [task "t1" None None])]].

Definition world (d : option Document) : World :=
  mkWorld d (λ n, if Nat.even n then "2025-06-01T10:00:00.000Z" else "2025-06-01T10:00:00.007Z")
          0 0 [].

(** The worlds left by [--set-current l-s7] and by [--set-current l-s5]
    on [loom]. *)
Definition loom_focus_s7 : World := snd (cmdSetCurrent "l-s7" (world (Some loom))).
Definition loom_focus_s5 : World := snd (cmdSetCurrent "l-s5" (world (Some loom))).

End ScannerSamples.

(* ------------------------------------------------------------------ *)
(** ** JavaScript strings and regular expressions                      *)
(* ------------------------------------------------------------------ *)
Module Js.

(** A string is a sequence of UTF-16 code units. *)
Definition str : Type := list N.

(** A literal of the source, Basic Latin only. *)
Definition lit (s : string) : str := Ascii.N_of_ascii <$> String.list_ascii_of_string s.
Arguments lit : simpl never.

Definition LF : N := 10%N.
Definition CR : N := 13%N.

(** A text given line by line: the lines joined by [\n]. *)
Fixpoint unlines (lines : list string) : str :=
  match lines with
  | [] => []
  | [l] => lit l
  | l :: ls => lit l ++ LF :: unlines ls
  end.

(** ECMAScript [LineTerminator]: what [.] does not match. *)
Definition is_line_terminator (c : N) : bool :=
  (c =? 10)%N || (c =? 13)%N || (c =? 0x2028)%N || (c =? 0x2029)%N.

(** ECMAScript [WhiteSpace] and [LineTerminator]: the class [\s], and what
    [String.prototype.trim] strips. *)
Definition is_space (c : N) : bool :=
  ((9 <=? c)%N && (c <=? 13)%N) || (c =? 32)%N || (c =? 0xA0)%N || (c =? 0x1680)%N
  || ((0x2000 <=? c)%N && (c <=? 0x200A)%N)
  || (c =? 0x2028)%N || (c =? 0x2029)%N || (c =? 0x202F)%N || (c =? 0x205F)%N
  || (c =? 0x3000)%N || (c =? 0xFEFF)%N.

(** [.] without the [s] flag. *)
Definition dot (c : N) : bool := negb (is_line_terminator c).

(** A literal character, and a class given by its members. *)
Definition chr (x : string) (c : N) : bool := bool_decide (c ∈ lit x).

Fixpoint trimStart (s : str) : str :=
  match s with
  | [] => []
  | c :: s' => if is_space c then trimStart s' else s
  end.

Fixpoint trimEnd (s : str) : str :=
  match s with
  | [] => []
  | c :: s' =>
      match trimEnd s' with
      | [] => if is_space c then [] else [c]
      | t => c :: t
      end
  end.

Definition trim (s : str) : str := trimEnd (trimStart s).

(** [s.split(sep)] for a one-unit separator: never empty, [""] splits
    into one empty piece. *)
Fixpoint split (sep : N) (s : str) : list str :=
  match s with
  | [] => [[]]
  | c :: s' =>
      if (c =? sep)%N then [] :: split sep s'
      else match split sep s' with
           | piece :: pieces => (c :: piece) :: pieces
           | [] => [[c]]
           end
  end.

(** [toLowerCase] and [toUpperCase] on Basic Latin.  On a string of code
    units below 128 this is all the two methods do. *)
Definition lower_latin_unit (c : N) : N :=
  if (65 <=? c)%N && (c <=? 90)%N then (c + 32)%N else c.
Definition upper_latin_unit (c : N) : N :=
  if (97 <=? c)%N && (c <=? 122)%N then (c - 32)%N else c.
Definition lower_latin (s : str) : str := lower_latin_unit <$> s.
Definition upper_latin (s : str) : str := upper_latin_unit <$> s.

Definition is_latin (s : str) : bool := forallb (λ c, (c <? 128)%N) s.

(** [String.prototype.toLowerCase].  Outside Basic Latin the method goes
    through the Unicode case tables of the host, which are taken as a
    parameter. *)
Definition toLowerCase (unicodeLower : str → str) (s : str) : str :=
  if is_latin s then lower_latin s else unicodeLower s.

(** [.replace(/p+/g, rep)]: every maximal run of the class becomes one
    [rep]. *)
Fixpoint collapse (p : N → bool) (rep : N) (in_run : bool) (s : str) : str :=
  match s with
  | [] => []
  | c :: s' =>
      if p c then (if in_run then collapse p rep true s' else rep :: collapse p rep true s')
      else c :: collapse p rep false s'
  end.

(** *** Regular expressions

    The patterns of the sources are sequences of single-unit classes, each
    with an optional greedy quantifier, some of them wrapped in a capture
    group; each pattern that is used with [match] starts with [^] and has
    no [m] flag, so it is tried at the start of the string only. *)
Inductive atom :=
| One (p : N → bool)
| Rep (p : N → bool) (lo : nat) (hi : option nat).

Inductive item :=
| Plain (a : atom)
| Group (a : atom).

Definition regex : Type := list item.

(** Length of the longest prefix made of units of the class. *)
Fixpoint span (p : N → bool) (s : str) : nat :=
  match s with
  | c :: s' => if p c then S (span p s') else 0%nat
  | [] => 0%nat
  end.

(** Greedy matching with backtracking: the continuation is tried with [n]
    repetitions, then with one fewer, down to [lo]. *)
Fixpoint backtrack {A} (k : nat → option A) (lo n : nat) : option A :=
  if (n <? lo)%nat then None
  else match k n with
       | Some r => Some r
       | None =>
           match n with
           | O => None
           | S n' => backtrack k lo n'
           end
       end.

Definition match_atom {A} (a : atom) (s : str) (k : nat → option A) : option A :=
  match a with
  | One p =>
      match s with
      | c :: _ => if p c then k 1%nat else None
      | [] => None
      end
  | Rep p lo hi =>
      backtrack k lo (match hi with
                      | Some h => Nat.min h (span p s)
                      | None => span p s
                      end)
  end.

(** [exec r s] is the list of captures of the match of [^r] on [s]. *)
Fixpoint exec (r : regex) (s : str) : option (list str) :=
  match r with
  | [] => Some []
  | Plain a :: r' => match_atom a s (λ n, exec r' (drop n s))
  | Group a :: r' => match_atom a s (λ n, (λ caps, take n s :: caps) <$> exec r' (drop n s))
  end.

Definition star (p : N → bool) : atom := Rep p 0 None.
Definition plus (p : N → bool) : atom := Rep p 1 None.

(** A string that [trim] leaves as it is, on one line. *)
Definition tidy (s : str) : Prop := trim s = s ∧ forallb dot s = true.

End Js.

(* ------------------------------------------------------------------ *)
(** ** The checklist parser of the two aggregators                     *)
(* ------------------------------------------------------------------ *)
Module Checklist.
Import Js.

Record Item := mkItem {
  done : bool;
  name : str;
  section : str }.

(** [/^#{1,3}\s+(.+)/] *)
Definition headingRe : regex :=
  [Plain (Rep (chr "#") 1 (Some 3%nat)); Plain (plus is_space); Group (plus dot)].

(** [/^[\s]*[-*]\s*\[([ xX])\]\s*(.+)/] *)
Definition checkRe : regex :=
  [Plain (star is_space); Plain (One (chr "-*")); Plain (star is_space);
   Plain (One (chr "[")); Group (One (chr " xX")); Plain (One (chr "]"));
   Plain (star is_space); Group (plus dot)].

(** [fileName.replace(/\.md$/i, '')]: under the [i] flag the letters also
    match their capitals, and no other code unit. *)
Definition strip_md (fileName : str) : str :=
  let n := length fileName in
  match drop (n - 3) fileName with
  | [c1; c2; c3] =>
      if (c1 =? 46)%N && (lower_latin_unit c2 =? 109)%N && (lower_latin_unit c3 =? 100)%N
      then take (n - 3) fileName
      else fileName
  | _ => fileName
  end.

(** [.replace(/[-_]/g, ' ')] *)
Definition spaces_for_separators (s : str) : str :=
  (λ c, if (c =? 45)%N || (c =? 95)%N then 32%N else c) <$> s.

Definition default_heading (fileName : str) : str :=
  spaces_for_separators (strip_md fileName).

(** [checkMatch[1].toLowerCase() === 'x']: the captured unit is a space,
    [x] or [X]. *)
Definition is_x (mark : str) : bool := bool_decide (lower_latin mark = lit "x").

(** The body of the loop over the lines; [tasks.push] appends, so the
    items come out in line order. *)
Fixpoint scan (lines : list str) (currentHeading : str) : list Item :=
  match lines with
  | [] => []
  | line :: rest =>
      let currentHeading :=
        match exec headingRe line with
        | Some [h] => trim h
        | _ => currentHeading
        end in
      match exec checkRe line with
      | Some [mark; text] =>
          mkItem (is_x mark) (trim text) currentHeading :: scan rest currentHeading
      | _ => scan rest currentHeading
      end
  end.

Definition parseChecklists (content fileName : str) : list Item :=
  scan (split LF content) (default_heading fileName).

(** *** The shape of the lines, in the words of the description

    A bullet checklist line: leading white space, a [-] or [*], a bracket
    marker holding a space, [x] or [X] (white space may separate bullet
    and marker), then the free text, which has at least one character
    of its own on the line. *)
Definition bullet_line (line : str) (mark : N) (text : str) : Prop :=
  ∃ lead bullet gap,
    line = lead ++ [bullet] ++ gap ++ lit "[" ++ [mark] ++ lit "]" ++ text ∧
    forallb is_space lead = true ∧ chr "-*" bullet = true ∧
    forallb is_space gap = true ∧ chr " xX" mark = true ∧
    existsb dot text = true.

(** A heading line of the given level: that many [#], white space, then
    the heading text. *)
Definition heading_line (line : str) (level : nat) (text : str) : Prop :=
  ∃ gap,
    line = replicate level 35%N ++ gap ++ text ∧
    gap ≠ [] ∧ forallb is_space gap = true ∧ existsb dot text = true.

(** Lines against the records they should give: one record per bullet
    line, in order, nothing for the other lines. *)
Inductive records : list str → list (bool * str) → Prop :=
| records_nil : records [] []
| records_bullet line mark text rest rs :
    bullet_line line mark text →
    records rest rs →
    records (line :: rest) ((bool_decide (mark = 120%N ∨ mark = 88%N), trim text) :: rs)
| records_other line rest rs :
    (∀ mark text, ¬ bullet_line line mark text) →
    records rest rs →
    records (line :: rest) rs.

(** A one-line content with a carriage return inside the free text. *)
Definition cr_inside : str := lit "- [ ] a" ++ [CR] ++ lit "b".

(** A roadmap with two phases. *)
Definition roadmap : str :=
  unlines ["intro"; "- [ ] early"; "## Phase 1"; "- [x] A"; "-[ ] B"; "- [] no"; "# Phase 2";
           "  * [X] C  "].

(** What [\s*(.+)] followed by [.trim()] keeps of a text: the text
    without its leading white space, up to its first line terminator,
    without trailing white space. *)
Definition first_piece (text : str) : str :=
  let t := trimStart text in take (span dot t) t.

Definition captured (text : str) : str := trim (first_piece text).

(** Lines against the records they give, whatever the lines hold: one
    record per bullet line, in order, named by what is captured of its
    free text; nothing for the other lines. *)
Inductive line_records : list str → list (bool * str) → Prop :=
| line_records_nil : line_records [] []
| line_records_bullet line mark text rest rs :
    bullet_line line mark text →
    line_records rest rs →
    line_records (line :: rest)
                 ((bool_decide (mark = 120%N ∨ mark = 88%N), captured text) :: rs)
| line_records_other line rest rs :
    (∀ mark text, ¬ bullet_line line mark text) →
    line_records rest rs →
    line_records (line :: rest) rs.

(** The same with the section: a heading line of level 1 to 3 changes
    the section in force to what is captured of its title, a bullet line
    gives an item tagged with the section in force. *)
Inductive line_items : str → list str → list Item → Prop :=
| line_items_nil current : line_items current [] []
| line_items_heading current line lvl title rest items :
    (1 ≤ lvl ≤ 3)%nat → heading_line line lvl title →
    line_items (captured title) rest items →
    line_items current (line :: rest) items
| line_items_bullet current line mark text rest items :
    bullet_line line mark text →
    line_items current rest items →
    line_items current (line :: rest)
               (mkItem (bool_decide (mark = 120%N ∨ mark = 88%N)) (captured text) current
                :: items)
| line_items_other current line rest items :
    (∀ lvl title, (1 ≤ lvl ≤ 3)%nat → ¬ heading_line line lvl title) →
    (∀ mark text, ¬ bullet_line line mark text) →
    line_items current rest items →
    line_items current (line :: rest) items.

(** No bullet line of the list has a line terminator inside what its
    free text trims to. *)
Definition clean_bullets (lines : list str) : Prop :=
  Forall (λ line, ∀ mark text, bullet_line line mark text → forallb dot (trim text) = true)
         lines.

(** A paragraph with a carriage return in it, then two bullet lines. *)
Definition stray_cr : str :=
  lit "see notes" ++ [CR] ++ lit "below" ++ [LF] ++ lit "## Phase 1" ++ [LF]
  ++ lit "- [x] A" ++ [LF] ++ lit "- [ ] B".

End Checklist.

(* ------------------------------------------------------------------ *)
(** ** The PRD migration script (migrate-prd-to-tasks.js)              *)
(* ------------------------------------------------------------------ *)
Module Migrate.
Import Js.

Record Task := mkTask {
  done : bool;
  text : str }.

Record Section := mkSection {
  heading : str;
  level : nat;
  tasks : list Task;
  source : str }.

Definition push (t : Task) (s : Section) : Section :=
  mkSection (heading s) (level s) (tasks s ++ [t]) (source s).

(** [/^(#{2,3})\s+(.+)/] *)
Definition headingRe : regex :=
  [Group (Rep (chr "#") 2 (Some 3%nat)); Plain (plus is_space); Group (plus dot)].

(** [/^[\s]*[-*]\s*\[([ xX])\]\s*(.+)/] *)
Definition checkRe : regex := Checklist.checkRe.

Definition not_pipe (c : N) : bool := negb (chr "|" c).

(** [/^\|[^|]*\|([^|]+)\|[^|]*\|\s*\[([ xX])\]\s*\|/] *)
Definition tableRe : regex :=
  [Plain (One (chr "|")); Plain (star not_pipe); Plain (One (chr "|"));
   Group (plus not_pipe); Plain (One (chr "|")); Plain (star not_pipe);
   Plain (One (chr "|")); Plain (star is_space);
   Plain (One (chr "[")); Group (One (chr " xX")); Plain (One (chr "]"));
   Plain (star is_space); Plain (One (chr "|"))].

(** [taskText.match(/^[-\s]+$/)] *)
Definition is_divider (s : str) : bool :=
  bool_decide (s ≠ []) && forallb (λ c, (c =? 45)%N || is_space c) s.

Section Host.
Variable unicodeLower : str → str.

(** [taskText && !taskText.match(/^[-\s]+$/) &&
     taskText.toLowerCase() !== 'task'] *)
Definition is_task_cell (taskText : str) : bool :=
  bool_decide (taskText ≠ []) && negb (is_divider taskText)
  && negb (bool_decide (toLowerCase unicodeLower taskText = lit "task")).

(** [if (currentSection && currentSection.tasks.length > 0)
      sections.push(currentSection)] *)
Definition flush (currentSection : option Section) : list Section :=
  match currentSection with
  | Some s => if bool_decide (0 < length (tasks s))%nat then [s] else []
  | None => []
  end.

(** The loop over the lines, returning the sections pushed from here on,
    the flush after the loop included. *)
Fixpoint walk (fileName : str) (lines : list str) (currentSection : option Section)
  : list Section :=
  match lines with
  | [] => flush currentSection
  | line :: rest =>
      match exec headingRe line with
      | Some [hashes; h] =>
          flush currentSection
          ++ walk fileName rest (Some (mkSection (trim h) (length hashes) [] fileName))
      | _ =>
          match exec checkRe line, currentSection with
          | Some [mark; t], Some cur =>
              walk fileName rest (Some (push (mkTask (Checklist.is_x mark) (trim t)) cur))
          | _, _ =>
              match exec tableRe line, currentSection with
              | Some [cell; mark], Some cur =>
                  let taskText := trim cell in
                  if is_task_cell taskText
                  then walk fileName rest
                         (Some (push (mkTask (Checklist.is_x mark) taskText) cur))
                  else walk fileName rest currentSection
              | _, _ => walk fileName rest currentSection
              end
          end
      end
  end.

Definition parsePRD (content fileName : str) : list Section :=
  walk fileName (split LF content) None.

(** The table branch of the loop of [parsePRD]: a row whose second cell
    is a task text adds a task to the open section. *)
Definition table_step (line : str) (currentSection : option Section) : option Section :=
  match exec tableRe line, currentSection with
  | Some [cell; mark], Some cur =>
      let taskText := trim cell in
      if is_task_cell taskText
      then Some (push (mkTask (Checklist.is_x mark) taskText) cur)
      else currentSection
  | _, _ => currentSection
  end.

(** Lines against the sections they give, whatever the lines hold.  A
    heading line of level 2 or 3 closes the open section, which is kept
    if it holds a task, and opens one named by what is captured of its
    title; a bullet line adds its task to the open section and is dropped
    when none is open; any other line goes to the table branch. *)
Inductive line_sections (fileName : str) : option Section → list str → list Section → Prop :=
| line_sections_end cur : line_sections fileName cur [] (flush cur)
| line_sections_heading cur line lvl title rest out :
    (2 ≤ lvl ≤ 3)%nat → Checklist.heading_line line lvl title →
    line_sections fileName
      (Some (mkSection (Checklist.captured title) lvl [] fileName)) rest out →
    line_sections fileName cur (line :: rest) (flush cur ++ out)
| line_sections_bullet cur line mark text rest out :
    Checklist.bullet_line line mark text →
    line_sections fileName
      (Some (push (mkTask (bool_decide (mark = 120%N ∨ mark = 88%N))
                          (Checklist.captured text)) cur))
      rest out →
    line_sections fileName (Some cur) (line :: rest) out
| line_sections_dropped line mark text rest out :
    Checklist.bullet_line line mark text →
    line_sections fileName None rest out →
    line_sections fileName None (line :: rest) out
| line_sections_other cur line rest out :
    (∀ lvl title, (2 ≤ lvl ≤ 3)%nat → ¬ Checklist.heading_line line lvl title) →
    (∀ mark text, ¬ Checklist.bullet_line line mark text) →
    line_sections fileName (table_step line cur) rest out →
    line_sections fileName cur (line :: rest) out.

(** *** slugify *)

Definition is_slug_unit (c : N) : bool :=
  ((97 <=? c)%N && (c <=? 122)%N) || ((48 <=? c)%N && (c <=? 57)%N)
  || is_space c || (c =? 45)%N.

(** [.replace(/^-|-$/g, '')] *)
Definition strip_edge_dashes (s : str) : str :=
  let s1 := match s with c :: s' => if (c =? 45)%N then s' else s | [] => [] end in
  match s1 !! (length s1 - 1)%nat with
  | Some c => if (c =? 45)%N then take (length s1 - 1) s1 else s1
  | None => s1
  end.

Definition slugify (text : str) : str :=
  take 50
    (strip_edge_dashes
       (collapse (λ c, (c =? 45)%N) 45%N false
          (collapse is_space 45%N false
             (filter (λ c, is_slug_unit c = true) (toLowerCase unicodeLower text))))).

(** *** The merge of [migrateRepo] (step 3)

    [merged] is a [Map]: keys in insertion order, one entry per key. *)
Definition Merged : Type := list (str * Section).

Fixpoint Map_get (key : str) (merged : Merged) : option Section :=
  match merged with
  | [] => None
  | (k, v) :: rest => if bool_decide (k = key) then Some v else Map_get key rest
  end.

(** Mutation of the object a key maps to. *)
Fixpoint Map_modify (key : str) (f : Section → Section) (merged : Merged) : Merged :=
  match merged with
  | [] => []
  | (k, v) :: rest =>
      if bool_decide (k = key) then (k, f v) :: rest
      else (k, v) :: Map_modify key f rest
  end.

(** The collision branch.  [existingTexts] is built once, before the loop
    over the incoming tasks. *)
Definition absorb (section existing : Section) : Section :=
  let existingTexts := text <$> tasks existing in
  mkSection (heading existing) (level existing)
    (tasks existing ++ filter (λ t, text t ∉ existingTexts) (tasks section))
    (source existing ++ lit ", " ++ source section).

(** [const key = slugify(section.heading)] *)
Definition key (section : Section) : str := slugify (heading section).

Definition merge_step (merged : Merged) (section : Section) : Merged :=
  let key := key section in
  match Map_get key merged with
  | Some _ => Map_modify key (absorb section) merged
  | None => merged ++ [(key, section)]
  end.

Definition merge (allSections : list Section) : Merged :=
  foldl merge_step [] allSections.

(** [Array.from(merged.values())] *)
Definition finalSections (allSections : list Section) : list Section :=
  snd <$> merge allSections.

(** Every entry sits under the slug of its own heading, each slug once. *)
Definition well_keyed (m : Merged) : Prop :=
  NoDup m.*1 ∧ Forall (λ e, key e.2 = e.1) m.

End Host.

(** What the map holds under a slug: the first section of that slug,
    having absorbed the later ones in order. *)
Definition absorbed (group : list Section) : option Section :=
  match group with
  | [] => None
  | first :: later => Some (foldl (λ e s, absorb s e) first later)
  end.

(** *** The union without duplicates, in the words of the description:
    tasks are taken in order and one is kept when its exact text has not
    been seen. *)
Definition keep_new (acc : list Task) (t : Task) : list Task :=
  if bool_decide (text t ∈ text <$> acc) then acc else acc ++ [t].

Definition union_first_seen (ts : list Task) : list Task := foldl keep_new [] ts.

(** [a.source + ', ' + b.source + ...] *)
Fixpoint comma_joined (sources : list str) : str :=
  match sources with
  | [] => []
  | [s] => s
  | s :: rest => s ++ lit ", " ++ comma_joined rest
  end.

(** *** Sample documents *)
Definition show_tasks (s : Section) : list (bool * str) := (λ t, (done t, text t)) <$> tasks s.

Definition prd_md : list Section :=
  parsePRD id (unlines ["# Product"; "## Setup"; "- [x] install"; "- [ ] configure"])
          (lit "PRD.md").

Definition roadmap_md : list Section :=
  parsePRD id (unlines ["## setup!"; "- [ ] install"; "- [ ] deploy"; "## Later"; "- [ ] scale"])
          (lit "docs/ROADMAP.md").

(** A task before any heading, a level-1 title, a task under it. *)
Definition untitled : str := unlines ["- [ ] early"; "# Title"; "- [ ] a"].

(** Each of these two repeats a task inside one section. *)
Definition todo_md : list Section :=
  parsePRD id (unlines ["## Setup"; "- [ ] install"; "- [ ] install"]) (lit "TODO.md").

Definition tasks_md : list Section :=
  parsePRD id (unlines ["## SETUP"; "- [ ] install"; "- [ ] run"; "- [ ] run"]) (lit "tasks.md").

(** A lower-case letter, a digit or a hyphen. *)
Definition is_slug_char (c : N) : bool :=
  ((97 <=? c)%N && (c <=? 122)%N) || ((48 <=? c)%N && (c <=? 57)%N) || (c =? 45)%N.

(** No two units of the class next to each other. *)
Fixpoint no_pair (p : N → bool) (s : str) : bool :=
  match s with
  | a :: (b :: _) as rest => negb (p a && p b) && no_pair p rest
  | _ => true
  end.

(** What every section that [parsePRD] returns looks like. *)
Definition proper_section (fileName : str) (s : Section) : Prop :=
  (level s = 2%nat ∨ level s = 3%nat) ∧
  source s = fileName ∧
  tidy (heading s) ∧
  Forall (λ t, trim (text t) = text t) (tasks s).

(** The distinct elements of a list, in order of first appearance. *)
Definition first_seen (ks : list str) : list str :=
  foldl (λ acc k, if bool_decide (k ∈ acc) then acc else acc ++ [k]) [] ks.

(** *** generateTaskFile *)

Record TaskFile := mkTaskFile {
  fileName : str;
  content : str }.

(** [String(n)] for a non-negative integer. *)
Definition String_of (n : nat) : str := lit (pretty n).

(** [.padStart(2, '0')] *)
Definition padStart2 (s : str) : str := replicate (2 - length s) 48%N ++ s.

(** [content += `- [${check}] ${task.text}\n`] *)
Definition add_task_line (content : str) (task : Task) : str :=
  content ++ lit "- [" ++ (if done task then lit "x" else lit " ") ++ lit "] "
          ++ text task ++ [LF].

Section Host.
Variable unicodeLower : str → str.

Definition generateTaskFile (section : Section) (index : nat) : TaskFile :=
  let num := padStart2 (String_of index) in
  let slug := slugify unicodeLower (heading section) in
  let fileName := num ++ lit "-" ++ slug ++ lit ".md" in
  let doneCount := length (filter (λ t, done t = true) (tasks section)) in
  let totalCount := length (tasks section) in
  let content := lit "# " ++ heading section ++ [LF; LF] in
  let content := content ++ lit "> Source: `" ++ source section ++ lit "`" ++ [LF] in
  let content := content ++ lit "> Progress: " ++ String_of doneCount ++ lit "/"
                         ++ String_of totalCount ++ lit " tasks done" ++ [LF; LF] in
  let content := content ++ lit "## Tasks" ++ [LF; LF] in
  mkTaskFile fileName (foldl add_task_line content (tasks section)).

(** Step 4 of [migrateRepo]:
    [finalSections.map((section, i) => generateTaskFile(section, i + 1))] *)
Definition taskFiles (finalSections : list Section) : list TaskFile :=
  imap (λ i section, generateTaskFile section (i + 1)) finalSections.

End Host.

(** The lines of a task file: seven lines of header, then one line per
    task; in the file each line is followed by [\n]. *)
Definition header_lines (section : Section) : list str :=
  [lit "# " ++ heading section; [];
   lit "> Source: `" ++ source section ++ lit "`";
   lit "> Progress: "
     ++ String_of (length (filter (λ t, done t = true) (tasks section)))
     ++ lit "/" ++ String_of (length (tasks section)) ++ lit " tasks done";
   []; lit "## Tasks"; []].

Definition task_line (task : Task) : str :=
  lit "- [" ++ (if done task then lit "x" else lit " ") ++ lit "] " ++ text task.

(** A section as [parsePRD] returns it for [## Setup] over two items. *)
Definition setup_section : Section :=
  mkSection (lit "Setup") 2 [mkTask true (lit "install"); mkTask false (lit "configure")]
            (lit "PRD.md").

End Migrate.

(* ------------------------------------------------------------------ *)
(** ** The auto-discovering aggregator (document version 3.0.0)        *)
(* ------------------------------------------------------------------ *)
Module LiveApi.
Import Js.

(** *** What GitHub answers

    A request either yields data, or yields nothing ([ghFetch] returns
    [null]: no token, or a response that is not ok), or fails (the
    promise of [fetch] rejects). *)
Inductive Reply (A : Type) :=
| Data (a : A)
| Nothing
| Failed.
Arguments Data {A} a.
Arguments Nothing {A}.
Arguments Failed {A}.

Record Source := mkSource {
  src_type : str;
  src_name : str }.

Definition GITHUB_SOURCES : list Source :=
  [mkSource (lit "user") (lit "nolimitjonesinc");
   mkSource (lit "org") (lit "Nolimit-Labs-Projects")].

(** An entry of a repository listing.  [pushed_at] is a date or [null];
    it is kept as the milliseconds [new Date(...).getTime()] gives. *)
Record ApiRepo := mkApiRepo {
  api_name : str;
  api_full_name : str;
  api_archived : bool;
  api_description : option str;
  api_pushed_at : option Z;
  api_default_branch : str }.

Record ApiCommit := mkApiCommit {
  api_sha : str;
  api_message : str;
  api_committer_date : str }.

Record GitHub := mkGitHub {
  has_token : bool;
  list_repos : Source → Reply (list ApiRepo);
  get_tree : str → str → Reply (list str);
  get_content : str → str → str → Reply str;
  get_commits : str → str → Reply (list ApiCommit) }.

(** [ghFetch]: without a token every call yields nothing. *)
Definition ghFetch {A} (gh : GitHub) (r : Reply A) : Reply A :=
  if has_token gh then r else Nothing.

Definition SKIP_REPOS : list str :=
  lit <$> ["nolimitjonesinc"; "mockingbird-test";
           "simple-hello-world-web-page-single-page-that-say"; "Twitter-Bot"; "Tagaroo"].

Definition COLORS : list str :=
  lit <$> ["#8b5cf6"; "#3b82f6"; "#ef4444"; "#f59e0b"; "#06b6d4";
           "#22c55e"; "#f97316"; "#ec4899"; "#a855f7"; "#14b8a6";
           "#e11d48"; "#6366f1"; "#84cc16"; "#f43f5e"; "#0ea5e9";
           "#d946ef"; "#fb923c"; "#4ade80"; "#38bdf8"; "#c084fc"].

(** [ToInt32] *)
Definition int32 (z : Z) : Z := (z + 2 ^ 31) `mod` 2 ^ 32 - 2 ^ 31.

(** [hash = ((hash << 5) - hash) + name.charCodeAt(i); hash |= 0] *)
Definition hash_step (hash : Z) (c : N) : Z :=
  int32 (int32 (Z.shiftl hash 5) - hash + Z.of_N c).

Definition getColor (name : str) : str :=
  let hash := foldl hash_step 0 name in
  default [] (COLORS !! Z.to_nat (Z.abs hash `mod` Z.of_nat (length COLORS))).

(** [\w] *)
Definition is_word (c : N) : bool :=
  ((97 <=? c)%N && (c <=? 122)%N) || ((65 <=? c)%N && (c <=? 90)%N)
  || ((48 <=? c)%N && (c <=? 57)%N) || (c =? 95)%N.

(** [.replace(/\b\w/g, c => c.toUpperCase())]: a word character is at a
    word boundary when it starts the string or follows a character that
    is not one. *)
Fixpoint capitalize (after_word : bool) (s : str) : str :=
  match s with
  | [] => []
  | c :: s' =>
      (if is_word c && negb after_word then upper_latin_unit c else c)
      :: capitalize (is_word c) s'
  end.

Definition displayName (repoName : str) : str :=
  capitalize false (collapse (λ c, (c =? 45)%N || (c =? 95)%N) 32%N false repoName).

(** *** Repositories *)
Record Repo := mkRepo {
  name : str;
  fullName : str;
  owner : str;
  description : str;
  pushedAt : option Z;
  defaultBranch : str;
  isOrg : bool }.

Section Host.
Variable unicodeLower : str → str.

(** The loop over the sources: a source that yields nothing is skipped,
    a failing request fails the whole discovery. *)
Fixpoint collect (gh : GitHub) (sources : list Source) : option (list Repo) :=
  match sources with
  | [] => Some []
  | source :: rest =>
      match ghFetch gh (list_repos gh source) with
      | Failed => None
      | Nothing => collect gh rest
      | Data repos =>
          let kept :=
            (λ repo, mkRepo (api_name repo) (api_full_name repo) (src_name source)
                            (default [] (api_description repo)) (api_pushed_at repo)
                            (api_default_branch repo)
                            (bool_decide (src_type source = lit "org")))
            <$> filter (λ repo, api_archived repo = false ∧ api_name repo ∉ SKIP_REPOS) repos in
          (kept ++.) <$> collect gh rest
      end
  end.

(** The filter with the [seen] set: the first repository of each
    lower-cased name stays. *)
Fixpoint dedupe (seen : list str) (repos : list Repo) : list Repo :=
  match repos with
  | [] => []
  | r :: rest =>
      let n := toLowerCase unicodeLower (name r) in
      if bool_decide (n ∈ seen) then dedupe seen rest else r :: dedupe (n :: seen) rest
  end.

Definition getAllRepos (gh : GitHub) : option (list Repo) :=
  dedupe [] <$> collect gh GITHUB_SOURCES.

(** [/(?:prd|roadmap|todo|checklist|tasks).*\.md$/i] *)
Definition PRD_TOKENS : list str := lit <$> ["prd"; "roadmap"; "todo"; "checklist"; "tasks"].

Definition prefix_ci (token s : str) : bool :=
  bool_decide (lower_latin (take (length token) s) = token).

Definition token_then_md (s : str) : bool :=
  existsb (λ token,
             prefix_ci token s
             && (let r := drop (length token) s in
                 bool_decide (3 ≤ length r)%nat
                 && prefix_ci (lit ".md") (drop (length r - 3) r)
                 && forallb dot (take (length r - 3) r)))
          PRD_TOKENS.

Definition PRD_FILE_PATTERN_test (f : str) : bool :=
  existsb (λ i, token_then_md (drop i f)) (seq 0 (S (length f))).

(** *** The project record *)
Record Task := mkTask {
  t_id : str;
  t_name : str;
  t_done : bool;
  t_current : option bool }.

Record Milestone := mkMilestone {
  m_id : str;
  m_name : str;
  m_done : bool;
  m_current : bool;
  m_source : option str;
  m_tasks : list Task }.

Record LastCommit := mkLastCommit {
  lc_message : str;
  lc_date : str;
  lc_sha : str }.

Record Project := mkProject {
  p_id : str;
  p_name : str;
  p_description : str;
  status : str;
  priority : nat;
  color : str;
  repo : str;
  p_owner : str;
  prdFiles : nat;
  lastCommit : option LastCommit;
  daysSinceUpdate : option Z;
  totalItems : nat;
  doneItems : nat;
  milestones : list Milestone }.

(** [.toLowerCase().replace(/[^a-z0-9]+/g, '-')] *)
Definition is_id_unit (c : N) : bool :=
  ((97 <=? c)%N && (c <=? 122)%N) || ((48 <=? c)%N && (c <=? 57)%N).

Definition id_of (s : str) : str :=
  collapse (λ c, negb (is_id_unit c)) 45%N false (toLowerCase unicodeLower s).

Definition number (n : nat) : str := lit (pretty n).

(** *** The [sections] object

    A plain object used as a map from section name to task list.  Its own
    keys are kept in insertion order; a name that [Object.prototype]
    already answers to is never initialised, and the [push] on what it
    answers throws. *)
Definition PROTOTYPE_KEYS : list str :=
  lit <$> ["constructor"; "__defineGetter__"; "__defineSetter__"; "hasOwnProperty";
           "__lookupGetter__"; "__lookupSetter__"; "isPrototypeOf"; "propertyIsEnumerable";
           "toString"; "valueOf"; "__proto__"; "toLocaleString"].

Definition Sections : Type := list (str * list Checklist.Item).

Fixpoint add_to (section : str) (task : Checklist.Item) (sections : Sections)
  : option Sections :=
  match sections with
  | [] =>
      if bool_decide (section ∈ PROTOTYPE_KEYS) then None
      else Some [(section, [task])]
  | (k, ts) :: rest =>
      if bool_decide (k = section) then Some ((k, ts ++ [task]) :: rest)
      else ((k, ts) ::.) <$> add_to section task rest
  end.

(** [task.section || prd.file] *)
Definition section_of (file : str) (task : Checklist.Item) : str :=
  match Checklist.section task with
  | [] => file
  | s => s
  end.

Fixpoint group (file : str) (tasks : list Checklist.Item) (sections : Sections)
  : option Sections :=
  match tasks with
  | [] => Some sections
  | task :: rest =>
      sections' ← add_to (section_of file task) task sections;
      group file rest sections'
  end.

(** [Object.entries]: the keys that are array indices come first, in
    ascending numeric order, then the other keys in insertion order. *)
Definition is_digit (c : N) : bool := (48 <=? c)%N && (c <=? 57)%N.

Definition numeric_value (k : str) : N :=
  foldl (λ acc c, (acc * 10 + (c - 48))%N) 0%N k.

Definition is_array_index (k : str) : bool :=
  match k with
  | [] => false
  | c :: rest =>
      forallb is_digit k && (negb (c =? 48)%N || bool_decide (rest = []))
      && bool_decide (length k ≤ 10)%nat && (numeric_value k <? 2 ^ 32 - 1)%N
  end.

Fixpoint insert_by_value (e : str * list Checklist.Item) (sorted : Sections) : Sections :=
  match sorted with
  | [] => [e]
  | e' :: rest =>
      if (numeric_value e.1 <? numeric_value e'.1)%N then e :: sorted
      else e' :: insert_by_value e rest
  end.

Definition Object_entries (sections : Sections) : Sections :=
  foldr insert_by_value [] (filter (λ e, is_array_index e.1 = true) sections)
  ++ filter (λ e, is_array_index e.1 = false) sections.

(** *** Milestones from the checklists *)

(** [sectionTasks.map((t, i) => ({ id, name, done, current }))] *)
Definition build_tasks (repoName : str) (milestone_index : nat)
    (sectionTasks : list Checklist.Item) : list Task :=
  imap (λ i t,
          mkTask (id_of (repoName ++ lit "-m" ++ number milestone_index
                           ++ lit "-t" ++ number i))
                 (Checklist.name t) (Checklist.done t)
                 (Some (negb (Checklist.done t)
                        && forallb Checklist.done (take i sectionTasks))))
       sectionTasks.

(** One turn of the loop over [Object.entries(sections)]. *)
Definition push_milestone (repoName file : str) (milestones : list Milestone)
    (entry : str * list Checklist.Item) : list Milestone :=
  let '(sectionName, sectionTasks) := entry in
  let doneTasks := length (filter (λ t, Checklist.done t = true) sectionTasks) in
  let allDone := bool_decide (doneTasks = length sectionTasks) in
  milestones ++
  [mkMilestone (take 50 (id_of (repoName ++ lit "-" ++ sectionName)))
               sectionName allDone
               (negb allDone && forallb m_done milestones)
               (Some file)
               (build_tasks repoName (length milestones) sectionTasks)].

(** The loop over [prdResults]; [None] when grouping throws. *)
Fixpoint from_checklists (repoName : str) (prdResults : list (str * list Checklist.Item))
    (milestones : list Milestone) : option (list Milestone) :=
  match prdResults with
  | [] => Some milestones
  | (file, tasks) :: rest =>
      if bool_decide (length tasks = 0%nat) then from_checklists repoName rest milestones
      else
        sections ← group file tasks [];
        from_checklists repoName rest
          (foldl (push_milestone repoName file) milestones (Object_entries sections))
  end.

(** [c.commit.message.split('\n')[0]] *)
Definition first_line (message : str) : str := default [] (head (split LF message)).

(** The fallback milestone. *)
Definition recent_activity (repoName : str) (commits : list ApiCommit) : Milestone :=
  mkMilestone (toLowerCase unicodeLower (repoName ++ lit "-activity"))
              (lit "Recent Activity") false true None
              (imap (λ i c, mkTask (toLowerCase unicodeLower (repoName ++ lit "-c" ++ number i))
                                  (take 80 (first_line (api_message c))) true None)
                    (take 5 commits)).

(** [if (!milestones.some(m => m.current))
       { firstUndone = milestones.find(m => !m.done); ... current = true }] *)
Fixpoint mark_first_undone (milestones : list Milestone) : list Milestone :=
  match milestones with
  | [] => []
  | m :: rest =>
      if m_done m then m :: mark_first_undone rest
      else mkMilestone (m_id m) (m_name m) (m_done m) true (m_source m) (m_tasks m) :: rest
  end.

Definition ensure_current (milestones : list Milestone) : list Milestone :=
  if existsb m_current milestones then milestones else mark_first_undone milestones.

(** *** Status from activity *)
Definition DAY : Z := 1000 * 60 * 60 * 24.

(** [Math.floor((Date.now() - lastPush.getTime()) / DAY)], or [null]. *)
Definition days_since (now : Z) (pushedAt : option Z) : option Z :=
  (λ lastPush, (now - lastPush) `div` DAY) <$> pushedAt.

Definition deriveStatus (daysSinceUpdate : option Z) : str :=
  match daysSinceUpdate with
  | Some d =>
      if bool_decide (d > 90) then lit "paused"
      else if bool_decide (d > 30) then lit "idle"
      else lit "active"
  | None => lit "active"
  end.

(** *** buildProjectData

    [None] when the promise rejects: a failed content or commits request,
    or a throw while grouping.  A failed tree request is caught inside. *)
Definition fetch_prd (gh : GitHub) (owner repoName file : str)
  : option (str * list Checklist.Item) :=
  match ghFetch gh (get_content gh owner repoName file) with
  | Failed => None
  | Nothing => Some (file, [])
  | Data content =>
      if bool_decide (content = []) then Some (file, [])
      else Some (file, Checklist.parseChecklists content file)
  end.

Definition buildProjectData (gh : GitHub) (now : Z) (repo : Repo) (index : nat)
  : option Project :=
  let repoName := name repo in
  let prdFiles :=
    match ghFetch gh (get_tree gh (owner repo) repoName) with
    | Data tree => filter (λ f, PRD_FILE_PATTERN_test f = true) tree
    | _ => []
    end in
  prdResults ← mapM (fetch_prd gh (owner repo) repoName) prdFiles;
  commits ← match ghFetch gh (get_commits gh (owner repo) repoName) with
            | Failed => None
            | Nothing => Some None
            | Data cs => Some (Some cs)
            end;
  milestones ← from_checklists repoName prdResults [];
  let milestones :=
    match milestones, commits with
    | [], Some (c :: cs) => [recent_activity repoName (c :: cs)]
    | _, _ => milestones
    end in
  let milestones := ensure_current milestones in
  let daysSinceUpdate := days_since now (pushedAt repo) in
  let status := deriveStatus daysSinceUpdate in
  let all_tasks := mbind m_tasks milestones in
  Some (mkProject (toLowerCase unicodeLower repoName) (displayName repoName)
                  (description repo) status index (getColor repoName)
                  (lit "github.com/" ++ owner repo ++ lit "/" ++ repoName)
                  (owner repo) (length prdFiles)
                  (match commits with
                   | Some (c :: _) =>
                       Some (mkLastCommit (first_line (api_message c)) (api_committer_date c)
                                          (take 7 (api_sha c)))
                   | _ => None
                   end)
                  daysSinceUpdate
                  (length all_tasks) (length (filter (λ t, t_done t = true) all_tasks))
                  milestones).

(** *** The sort of the handler *)

(** [statusOrder[x.status] || 2] with [{ active: 0, idle: 1, paused: 2 }]:
    a rank of [0] is falsy. *)
Definition statusOrder (status : str) : option Z :=
  if bool_decide (status = lit "active") then Some 0
  else if bool_decide (status = lit "idle") then Some 1
  else if bool_decide (status = lit "paused") then Some 2
  else None.

Definition or_else (x : option Z) (d : Z) : Z :=
  match x with
  | Some v => if bool_decide (v = 0) then d else v
  | None => d
  end.

Definition compare (a b : Project) : Z :=
  let statusDiff := or_else (statusOrder (status a)) 2 - or_else (statusOrder (status b)) 2 in
  if bool_decide (statusDiff ≠ 0) then statusDiff
  else
    let prdDiff := or_else (Some (Z.of_nat (prdFiles b))) 0
                   - or_else (Some (Z.of_nat (prdFiles a))) 0 in
    if bool_decide (prdDiff ≠ 0) then prdDiff
    else or_else (daysSinceUpdate a) 999 - or_else (daysSinceUpdate b) 999.

(** [Array.prototype.sort] is stable; for a comparator that is a
    lexicographic order of numeric keys, as this one, the result is the
    stable arrangement that insertion gives: an element goes behind the
    later elements that the comparator puts strictly before it. *)
Fixpoint insert_sorted (x : Project) (sorted : list Project) : list Project :=
  match sorted with
  | [] => [x]
  | y :: rest =>
      if bool_decide (compare y x < 0) then y :: insert_sorted x rest
      else x :: sorted
  end.

Definition sort (projects : list Project) : list Project :=
  foldr insert_sorted [] projects.

(** *** The handler *)
Record Meta := mkMeta {
  lastUpdated : Z;
  lastScanType : str;
  version : str;
  projectCount : nat;
  sources : list str }.

Record Document := mkDocument {
  meta : Meta;
  projects : list Project }.

Inductive Response :=
| Ok200 (data : Document)
| Error500.

(** The loop over the batches of eight: [results.filter(Boolean)] of
    each batch is appended; a rejected build counts as [null].  The build
    of the repository at index [n] reads the clock as [clock n]. *)
Fixpoint batches (gh : GitHub) (clock : nat → Z) (fuel i : nat) (repos : list Repo)
  : list Project :=
  match fuel with
  | O => []
  | S fuel' =>
      if bool_decide (i < length repos)%nat then
        let batch := take 8 (drop i repos) in
        omap id (imap (λ j repo, buildProjectData gh (clock (i + j)%nat) repo (i + j)) batch)
        ++ batches gh clock fuel' (i + 8) repos
      else []
  end.

(** [stamp] is the clock when the document is put together. *)
Definition handler (gh : GitHub) (clock : nat → Z) (stamp : Z) : Response :=
  match getAllRepos gh with
  | None => Error500
  | Some repos =>
      let projects := sort (batches gh clock (length repos) 0 repos) in
      Ok200 (mkDocument
               (mkMeta stamp (lit "live-api") (lit "3.0.0") (length projects)
                       (src_name <$> GITHUB_SOURCES))
               projects)
  end.

(** The key of the [seen] set. *)
Definition lowered (r : Repo) : str := toLowerCase unicodeLower (name r).

(** The builds of all repositories, each with its position in the
    discovery list as index and clock reading; failed builds left out. *)
Definition built (gh : GitHub) (clock : nat → Z) (repos : list Repo) : list Project :=
  omap id (imap (λ n repo, buildProjectData gh (clock n) repo n) repos).

End Host.

(** The same response with another [meta.lastUpdated]. *)
Definition restamp (stamp : Z) (r : Response) : Response :=
  match r with
  | Ok200 d =>
      Ok200 (mkDocument
               (mkMeta stamp (lastScanType (meta d)) (version (meta d))
                       (projectCount (meta d)) (sources (meta d)))
               (projects d))
  | Error500 => Error500
  end.

(** A project without the two fields that are computed from the clock. *)
Definition forget_clock (p : Project) : Project :=
  mkProject (p_id p) (p_name p) (p_description p) [] (priority p) (color p) (repo p)
            (p_owner p) (prdFiles p) (lastCommit p) None (totalItems p) (doneItems p)
            (milestones p).

Definition first_undone_is_current (ms : list Milestone) : Prop :=
  ∀ i m, ms !! i = Some m → m_current m = negb (m_done m) && forallb m_done (take i ms).

Definition checklist_milestone (m : Milestone) : Prop :=
  is_Some (m_source m) ∧ m_tasks m ≠ [] ∧
  m_done m = forallb t_done (m_tasks m) ∧
  ∀ k t, m_tasks m !! k = Some t →
    t_current t = Some (negb (t_done t) && forallb t_done (take k (m_tasks m))).

Definition activity_milestone (m : Milestone) : Prop :=
  m_source m = None ∧ m_done m = false ∧ m_current m = true ∧
  (0 < length (m_tasks m) ≤ 5)%nat ∧
  Forall (λ t, t_done t = true ∧ t_current t = None) (m_tasks m).

(** The items of the files, and the tasks of the milestones, by name and
    done state. *)
Definition parsed_items (prdResults : list (str * list Checklist.Item)) : list (str * bool) :=
  prdResults ≫= λ prd, (λ x, (Checklist.name x, Checklist.done x)) <$> prd.2.

Definition milestone_items (ms : list Milestone) : list (str * bool) :=
  ms ≫= λ m, (λ t, (t_name t, t_done t)) <$> m_tasks m.

(** The order the comparator defines, and a list arranged by it. *)
Definition before (a b : Project) : Prop := compare a b ≤ 0.

Fixpoint ordered (l : list Project) : Prop :=
  match l with
  | [] => True
  | a :: rest => Forall (before a) rest ∧ ordered rest
  end.

(** The projects the comparator does not tell from [a], in list order. *)
Definition ties (a : Project) (l : list Project) : list Project :=
  filter (λ b, compare a b = 0) l.

(** The ids of the tasks of a project, milestone by milestone. *)
Definition task_ids (ms : list Milestone) : list str := ms ≫= λ m, t_id <$> m_tasks m.

(** In a repository name of Basic Latin the id of a task is a prefix
    that only the name decides, then [m<k>-t<i>]. *)
Definition id_prefix (repoName : str) : str :=
  collapse (λ c, negb (is_id_unit c)) 45%N false (lower_latin repoName)
  ++ (if foldl (λ _ c, negb (is_id_unit c)) false (lower_latin repoName) then [] else [45%N]).

(** The milestone at position [k] numbers its tasks [m<k>-t0],
    [m<k>-t1], ... *)
Definition numbered (unicodeLower : str → str) (repoName : str) (ms : list Milestone) : Prop :=
  ∀ k m, ms !! k = Some m →
    t_id <$> m_tasks m
    = (λ i, id_of unicodeLower (repoName ++ lit "-m" ++ number k ++ lit "-t" ++ number i))
      <$> seq 0 (length (m_tasks m)).

End LiveApi.

(* ------------------------------------------------------------------ *)
(** ** The configured aggregator (document version 2.0.0)              *)
(* ------------------------------------------------------------------ *)
Module ConfigApi.
Import Js.

Definition GITHUB_ORG : str := lit "nolimitjonesinc".

(** A character outside the Basic Multilingual Plane, as the two code
    units of its surrogate pair. *)
Definition astral (code_point : N) : str :=
  [(0xD800 + (code_point - 0x10000) / 0x400)%N; (0xDC00 + (code_point - 0x10000) `mod` 0x400)%N].

(** An entry of [PROJECT_CONFIG]. *)
Record Config := mkConfig {
  cfg_name : str;
  cfg_emoji : str;
  cfg_description : str;
  cfg_color : str;
  cfg_priority : nat;
  cfg_status : option str;
  cfg_prdFiles : list str }.

Definition PROJECT_CONFIG : list (str * Config) :=
  [(lit "Loomiverse-Online",
    mkConfig (lit "Loomiverse") (astral 0x1F4D6) (lit "AI Interactive Storytelling")
             (lit "#8b5cf6") 1 (Some (lit "active")) [lit "PRD.md"]);
   (lit "Quiply",
    mkConfig (lit "Quiplee") (astral 0x1F4AC) (lit "Chrome Extension for Social Replies")
             (lit "#3b82f6") 2 (Some (lit "live"))
             [lit "PRD_Quiply_Enhancement.md"; lit "PRD_REPLY_BOOSTER_COMPLETION.md"]);
   (lit "mockingbirdnews",
    mkConfig (lit "MockingBird News") (astral 0x1F4F0) (lit "News Aggregation Platform")
             (lit "#ef4444") 3 (Some (lit "active"))
             [lit "MBN create-prd.md"; lit "article-summarization-enhancement-prd.md";
              lit "tweet-carousel-prd.md"]);
   (lit "Genesis-Engine",
    mkConfig (lit "Genesis Engine") (astral 0x1F9EC) (lit "Procedural Character Generator")
             (lit "#f59e0b") 4 (Some (lit "active")) [lit "ROADMAP.md"]);
   (lit "tweetminer",
    mkConfig (lit "TweetMiner") [0x26CF%N; 0xFE0F%N] (lit "Reply Analysis for Product Ideas")
             (lit "#06b6d4") 5 (Some (lit "live")) [lit "tweetminer/README.md"]);
   (lit "Gaurdian",
    mkConfig (lit "Guardian") (astral 0x1F6E1 ++ [0xFE0F%N]) (lit "Security & Protection System")
             (lit "#22c55e") 6 (Some (lit "active")) [lit "README.md"]);
   (lit "EmbersInc",
    mkConfig (lit "Embers Inc") (astral 0x1F525) (lit "Embers Inc Project")
             (lit "#f97316") 7 (Some (lit "active")) [lit "README.md"]);
   (lit "DJ-Brain",
    mkConfig (lit "DJ Brain") (astral 0x1F9E0) (lit "AI Knowledge System")
             (lit "#ec4899") 8 (Some (lit "active")) []);
   (lit "MASTER_MockingBirdApp",
    mkConfig (lit "MockingBird App") (astral 0x1F4F1) (lit "Main iOS App")
             (lit "#a855f7") 9 (Some (lit "paused")) [lit "DETAILED_IMPROVEMENT_PRD.md"])].

(** *** What GitHub answers

    [ghFetch] yields the parsed body, or [null] when the response is not
    ok, or fails when [fetch] rejects; there is no check for a token.
    Of a repository the description and [pushed_at] are read (the date
    kept as the milliseconds [new Date(...).getTime()] gives), of the
    issues their number, of a pull request its [draft] flag; the content
    of a file is the text decoded from base 64, empty when the answer has
    no content. *)
Record RepoInfo := mkRepoInfo {
  ri_description : option str;
  ri_pushed_at : option Z }.

Record Pull := mkPull {
  draft : bool }.

Record GitHub := mkGitHub {
  get_repo : str → LiveApi.Reply RepoInfo;
  get_commits : str → LiveApi.Reply (list LiveApi.ApiCommit);
  get_issues : str → LiveApi.Reply (list ());
  get_pulls : str → LiveApi.Reply (list Pull);
  get_content : str → str → LiveApi.Reply str }.

(** *** The project record *)
Inductive JsNull := null.

Record Task := mkTask {
  t_id : str;
  t_name : str;
  t_done : bool;
  t_current : option bool;
  t_aiTime : option JsNull }.

Record Milestone := mkMilestone {
  m_id : str;
  m_name : str;
  m_done : bool;
  m_current : bool;
  m_source : option str;
  m_tasks : list Task }.

Record Project := mkProject {
  p_id : str;
  p_name : str;
  p_emoji : str;
  p_description : str;
  status : str;
  priority : nat;
  color : str;
  repo : str;
  lastCommit : option LiveApi.LastCommit;
  openIssues : nat;
  openPRs : nat;
  daysSinceUpdate : option Z;
  milestones : list Milestone }.

(** [Math.floor((Date.now() - lastPush.getTime()) / DAY)], or [null]. *)
Definition days_since (now : Z) (pushed_at : option Z) : option Z :=
  (λ lastPush, (now - lastPush) `div` LiveApi.DAY) <$> pushed_at.

(** [let status = config.status || 'active';
     if (daysSinceUpdate !== null && daysSinceUpdate > 30 && status === 'active')
       status = 'paused';] *)
Definition deriveStatus (config : Config) (daysSinceUpdate : option Z) : str :=
  let status := match cfg_status config with
                | Some [] | None => lit "active"
                | Some s => s
                end in
  match daysSinceUpdate with
  | Some d => if bool_decide (d > 30) && bool_decide (status = lit "active")
              then lit "paused" else status
  | None => status
  end.

(** [a || b] on strings: the empty string is falsy. *)
Definition or_str (a b : str) : str :=
  match a with
  | [] => b
  | _ => a
  end.

(** [getFileContent] and the parse of one configured file; [None] when
    the request fails. *)
Definition fetch_prd (gh : GitHub) (repoName file : str)
  : option (str * list Checklist.Item) :=
  match get_content gh repoName file with
  | LiveApi.Failed => None
  | LiveApi.Nothing => Some (file, [])
  | LiveApi.Data content =>
      if bool_decide (content = []) then Some (file, [])
      else Some (file, Checklist.parseChecklists content file)
  end.

Section Host.
Variable unicodeLower : str → str.

(** [sectionTasks.map((t, i) => ({ id, name, done, current }))] *)
Definition build_tasks (repoName : str) (milestone_index : nat)
    (sectionTasks : list Checklist.Item) : list Task :=
  imap (λ i t,
          mkTask (repoName ++ lit "-t" ++ LiveApi.number milestone_index
                           ++ lit "-" ++ LiveApi.number i)
                 (Checklist.name t) (Checklist.done t)
                 (Some (negb (Checklist.done t)
                        && forallb Checklist.done (take i sectionTasks)))
                 None)
       sectionTasks.

(** One turn of the loop over [Object.entries(sections)]. *)
Definition push_milestone (repoName file : str) (milestones : list Milestone)
    (entry : str * list Checklist.Item) : list Milestone :=
  let '(sectionName, sectionTasks) := entry in
  let doneTasks := length (filter (λ t, Checklist.done t = true) sectionTasks) in
  let allDone := bool_decide (doneTasks = length sectionTasks) in
  milestones ++
  [mkMilestone (take 40 (LiveApi.id_of unicodeLower (repoName ++ lit "-" ++ sectionName)))
               sectionName allDone
               (negb allDone && forallb m_done milestones)
               (Some file)
               (build_tasks repoName (length milestones) sectionTasks)].

(** The loop over [prdResults]; [None] when grouping throws. *)
Fixpoint from_checklists (repoName : str) (prdResults : list (str * list Checklist.Item))
    (milestones : list Milestone) : option (list Milestone) :=
  match prdResults with
  | [] => Some milestones
  | (file, tasks) :: rest =>
      if bool_decide (length tasks = 0%nat) then from_checklists repoName rest milestones
      else
        sections ← LiveApi.group file tasks [];
        from_checklists repoName rest
          (foldl (push_milestone repoName file) milestones (LiveApi.Object_entries sections))
  end.

(** The milestone made from the repository's activity. *)
Definition recent_activity (repoName : str) (commits : list LiveApi.ApiCommit) : Milestone :=
  mkMilestone (repoName ++ lit "-activity") (lit "Recent Activity") false true None
              (imap (λ i c, mkTask (repoName ++ lit "-commit-" ++ LiveApi.number i)
                                  (take 80 (LiveApi.first_line (LiveApi.api_message c)))
                                  true None (Some null))
                    (take 5 commits)).

(** [const firstUndone = milestones.find(m => !m.done);
     if (firstUndone) firstUndone.current = true;] *)
Fixpoint mark_first_undone (milestones : list Milestone) : list Milestone :=
  match milestones with
  | [] => []
  | m :: rest =>
      if m_done m then m :: mark_first_undone rest
      else mkMilestone (m_id m) (m_name m) (m_done m) true (m_source m) (m_tasks m) :: rest
  end.

Definition ensure_current (milestones : list Milestone) : list Milestone :=
  if existsb m_current milestones then milestones else mark_first_undone milestones.

(** *** buildProjectData

    The four requests of the first [Promise.all] are awaited together:
    the build fails when one of them fails, and is [null] when there is
    no repository information.  It fails as well when a file request
    fails or the grouping throws. *)
Definition buildProjectData (gh : GitHub) (now : Z) (repoName : str) (config : Config)
  : LiveApi.Reply Project :=
  match get_repo gh repoName, get_commits gh repoName,
        get_issues gh repoName, get_pulls gh repoName with
  | LiveApi.Failed, _, _, _ | _, LiveApi.Failed, _, _
  | _, _, LiveApi.Failed, _ | _, _, _, LiveApi.Failed => LiveApi.Failed
  | LiveApi.Nothing, _, _, _ => LiveApi.Nothing
  | LiveApi.Data repoInfo, commits, issues, prs =>
      match mapM (fetch_prd gh repoName) (cfg_prdFiles config) with
      | None => LiveApi.Failed
      | Some prdResults =>
          match from_checklists repoName prdResults [] with
          | None => LiveApi.Failed
          | Some milestones =>
              let milestones :=
                match milestones, commits with
                | [], LiveApi.Data (c :: cs) => [recent_activity repoName (c :: cs)]
                | _, _ => milestones
                end in
              let milestones := ensure_current milestones in
              let daysSinceUpdate := days_since now (ri_pushed_at repoInfo) in
              let status := deriveStatus config daysSinceUpdate in
              LiveApi.Data
                (mkProject (toLowerCase unicodeLower repoName) (cfg_name config)
                   (cfg_emoji config)
                   (or_str (cfg_description config)
                           (or_str (default [] (ri_description repoInfo)) []))
                   status (cfg_priority config) (cfg_color config)
                   (lit "github.com/" ++ GITHUB_ORG ++ lit "/" ++ repoName)
                   (match commits with
                    | LiveApi.Data (c :: _) =>
                        Some (LiveApi.mkLastCommit
                                (LiveApi.first_line (LiveApi.api_message c))
                                (LiveApi.api_committer_date c)
                                (take 7 (LiveApi.api_sha c)))
                    | _ => None
                    end)
                   (match issues with
                    | LiveApi.Data l => length l
                    | _ => 0%nat
                    end)
                   (match prs with
                    | LiveApi.Data l => length (filter (λ p, draft p = false) l)
                    | _ => 0%nat
                    end)
                   daysSinceUpdate milestones)
          end
      end
  end.

End Host.

(** The status an entry is configured with: [config.status || 'active']. *)
Definition configured (config : Config) : str :=
  match cfg_status config with
  | Some [] | None => lit "active"
  | Some s => s
  end.

End ConfigApi.

(** *** A sample of what GitHub may answer *)
Module LiveSamples.
Import Js LiveApi.

Definition now0 : Z := 1700000000000.

(** Three personal repositories without checklist files or commits, in
    the order of the listing: pushed at the time of the run, a day
    before, and forty days before. *)
Definition repo_entry (name : string) (days_ago : Z) : ApiRepo :=
  mkApiRepo (lit name) (lit "nolimitjonesinc/" ++ lit name) false None
            (Some (now0 - days_ago * DAY)) (lit "main").

Definition quiet : GitHub :=
  mkGitHub true
    (λ source, if bool_decide (src_type source = lit "user")
               then Data [repo_entry "today" 0; repo_entry "fresh" 1; repo_entry "stale" 40]
               else Nothing)
    (λ _ _, Nothing) (λ _ _ _, Nothing) (λ _ _, Nothing).

(** One repository with a roadmap. *)
Definition with_roadmap : GitHub :=
  mkGitHub true
    (λ source, if bool_decide (src_type source = lit "user")
               then Data [repo_entry "hq" 2]
               else Nothing)
    (λ _ _, Data [lit "README.md"; lit "docs/ROADMAP.md"])
    (λ _ _ file, if bool_decide (file = lit "docs/ROADMAP.md")
                 then Data Checklist.roadmap else Nothing)
    (λ _ _, Data [mkApiCommit (lit "0123456789abcdef") (lit "Initial commit")
                              (lit "2023-11-12T22:13:20Z")]).

Definition stale_repo : Repo :=
  mkRepo (lit "stale") (lit "nolimitjonesinc/stale") (lit "nolimitjonesinc") []
         (Some (now0 - 40 * DAY)) (lit "main") false.

(** The clock of a run that starts at [start]: the builds read it a
    millisecond apart. *)
Definition clock_from (start : Z) (n : nat) : Z := start + Z.of_nat n.

Definition hq_repo : Repo :=
  mkRepo (lit "hq") (lit "nolimitjonesinc/hq") (lit "nolimitjonesinc") []
         (Some (now0 - 2 * DAY)) (lit "main") false.

Definition roadmap_results : list (str * list Checklist.Item) :=
  [(lit "docs/ROADMAP.md", Checklist.parseChecklists Checklist.roadmap (lit "docs/ROADMAP.md"))].

(** No token in the environment; GitHub would refuse every request. *)
Definition no_token : GitHub :=
  mkGitHub false (λ _, Failed) (λ _ _, Failed) (λ _ _ _, Failed) (λ _ _, Failed).

End LiveSamples.

(** *** A sample for the configured aggregator *)
Module ConfigSamples.
Import Js ConfigApi.

Definition loomiverse_config : Config :=
  mkConfig (lit "Loomiverse") (astral 0x1F4D6) (lit "AI Interactive Storytelling")
           (lit "#8b5cf6") 1 (Some (lit "active")) [lit "PRD.md"].

Definition quiply_config : Config :=
  mkConfig (lit "Quiplee") (astral 0x1F4AC) (lit "Chrome Extension for Social Replies")
           (lit "#3b82f6") 2 (Some (lit "live"))
           [lit "PRD_Quiply_Enhancement.md"; lit "PRD_REPLY_BOOSTER_COMPLETION.md"].

(** GitHub knows both repositories, without files, commits, issues or
    pull requests; Quiply was pushed sixty days before [now0],
    Loomiverse-Online forty days before, any other repository on the
    day. *)
Definition quiet_org : GitHub :=
  mkGitHub
    (λ repoName,
       LiveApi.Data
         (mkRepoInfo None
            (Some (LiveSamples.now0
                   - (if bool_decide (repoName = lit "Quiply") then 60
                      else if bool_decide (repoName = lit "Loomiverse-Online") then 40
                      else 0) * LiveApi.DAY))))
    (λ _, LiveApi.Data []) (λ _, LiveApi.Data []) (λ _, LiveApi.Data [])
    (λ _ _, LiveApi.Nothing).

End ConfigSamples.

(* ================================================================== *)
(** * Part II: facts                                                   *)
(* ================================================================== *)

Lemma first_some_Some {A B} (f : A → option B) (l : list A) (i : nat) (b : B) :
  first_some f l = Some (i, b) ↔
  ∃ a, l !! i = Some a ∧ f a = Some b ∧
       ∀ j a', (j < i)%nat → l !! j = Some a' → f a' = None.
Proof.
  revert i. induction l as [|x l IH]; intros i; simpl.
  - split; [discriminate | intros (a & Ha & _); discriminate].
  - destruct (f x) as [b'|] eqn:Hx.
    + split.
      * intros [= <- <-]. exists x. split_and!; [done..|]. intros j a' Hj. lia.
      * intros (a & Ha & Hfa & Hmin). destruct i as [|i].
        -- simpl in Ha. simplify_eq. congruence.
        -- specialize (Hmin 0%nat x ltac:(lia) eq_refl). congruence.
    + split.
      * intros Hs. destruct i as [|i].
        { destruct (first_some f l) as [[??]|]; simplify_eq/=. }
        assert (first_some f l = Some (i, b)) as Hl.
        { destruct (first_some f l) as [[??]|]; simplify_eq/=. done. }
        apply IH in Hl as (a & Ha & Hfa & Hmin).
        exists a. split_and!; [done..|].
        intros [|j] a' Hj Hlk; simpl in Hlk; [by simplify_eq|].
        eapply Hmin; [|done]. lia.
      * intros (a & Ha & Hfa & Hmin). destruct i as [|i].
        { simpl in Ha. simplify_eq. }
        simpl in Ha.
        assert (first_some f l = Some (i, b)) as ->; [|done].
        apply IH. exists a. split_and!; [done..|].
        intros j a' Hj Hlk. apply (Hmin (S j) a'); [lia|done].
Qed.

Lemma first_some_None {A B} (f : A → option B) (l : list A) :
  first_some f l = None ↔ Forall (λ a, f a = None) l.
Proof.
  induction l as [|x l IH]; simpl.
  - split; [constructor | done].
  - destruct (f x) eqn:Hx.
    + split; [discriminate | intros H; inversion H; congruence].
    + destruct (first_some f l) as [[??]|]; simpl.
      * split; [discriminate|]. intros H. inversion H; subst.
        destruct IH as [_ IH]. by specialize (IH ltac:(done)).
      * split; [|done]. intros _. constructor; [done|]. by apply IH.
Qed.

(* ------------------------------------------------------------------ *)
(** ** The scanner CLI                                                 *)
(* ------------------------------------------------------------------ *)
Module ScannerFacts.
Import Scanner.

(** *** Writing through references *)

Lemma at_milestone_ext f g p m d :
  (∀ x, get_milestone d p m = Some x → f x = g x) →
  at_milestone f p m d = at_milestone g p m d.
Proof.
  intros E. unfold at_milestone, set_projects. f_equal.
  apply list_alter_ext; [|done]. intros P HP. f_equal.
  apply list_alter_ext; [|done]. intros M HM. apply E.
  unfold get_milestone. by rewrite HP.
Qed.

Lemma at_milestone_id p m d : at_milestone id p m d = d.
Proof.
  unfold at_milestone, set_projects. destruct d as [x ps]; simpl. f_equal.
  apply list_alter_id. intros P. rewrite list_alter_id by done. by destruct P.
Qed.

Lemma at_milestone_compose f g p m d :
  at_milestone f p m (at_milestone g p m d) = at_milestone (f ∘ g) p m d.
Proof.
  unfold at_milestone, set_projects; simpl. f_equal.
  rewrite list_alter_alter_eq. apply list_alter_ext; [|done].
  intros P _; simpl. by rewrite list_alter_alter_eq.
Qed.

Lemma at_milestone_commute f g p m m' d :
  m ≠ m' →
  at_milestone f p m (at_milestone g p m' d) = at_milestone g p m' (at_milestone f p m d).
Proof.
  intros Hne. unfold at_milestone, set_projects; simpl. f_equal.
  rewrite !list_alter_alter_eq. apply list_alter_ext; [|done].
  intros P _; simpl. by rewrite list_alter_alter_ne.
Qed.

Lemma at_task_ext f g p m t d :
  (∀ x, get_task d p m t = Some x → f x = g x) →
  at_task f p m t d = at_task g p m t d.
Proof.
  intros E. apply at_milestone_ext. intros M HM. f_equal.
  destruct (m_tasks M) as [ts|] eqn:Hts; simpl; [|done]. f_equal.
  apply list_alter_ext; [|done]. intros T HT. apply E.
  unfold get_task. rewrite HM; simpl. by rewrite Hts.
Qed.

Lemma at_task_id p m t d : at_task id p m t d = d.
Proof.
  unfold at_task. rewrite <- (at_milestone_id p m d) at 2.
  apply at_milestone_ext. intros M _.
  destruct M as [? ? ? ? ? [ts|] ?]; simpl; [|done].
  unfold m_set_tasks; simpl. by rewrite list_alter_id.
Qed.

Lemma at_task_compose f g p m t d :
  at_task f p m t (at_task g p m t d) = at_task (f ∘ g) p m t d.
Proof.
  unfold at_task. rewrite at_milestone_compose. apply at_milestone_ext.
  intros M _; simpl. destruct (m_tasks M); simpl; [|done].
  by rewrite list_alter_alter_eq.
Qed.

Lemma at_task_commute f g p m t t' d :
  t ≠ t' →
  at_task f p m t (at_task g p m t' d) = at_task g p m t' (at_task f p m t d).
Proof.
  intros Hne. unfold at_task. rewrite !at_milestone_compose. apply at_milestone_ext.
  intros M _; simpl. destruct (m_tasks M); simpl; [|done].
  by rewrite list_alter_alter_ne.
Qed.

Lemma at_subtask_ext f g p m t s d :
  (∀ x, get_subtask d p m t s = Some x → f x = g x) →
  at_subtask f p m t s d = at_subtask g p m t s d.
Proof.
  intros E. apply at_task_ext. intros T HT. f_equal.
  destruct (t_subtasks T) as [ss|] eqn:Hss; simpl; [|done]. f_equal.
  apply list_alter_ext; [|done]. intros S HS. apply E.
  unfold get_subtask. rewrite HT; simpl. by rewrite Hss.
Qed.

Lemma at_subtask_id p m t s d : at_subtask id p m t s d = d.
Proof.
  unfold at_subtask. rewrite <- (at_task_id p m t d) at 2.
  apply at_task_ext. intros T _.
  destruct T as [? ? ? ? ? [ss|] ?]; simpl; [|done].
  unfold t_set_subtasks; simpl. by rewrite list_alter_id.
Qed.

(** A write through an index past the end of the sibling list is no write. *)
Lemma at_subtask_absent f p m t s d :
  get_subtask d p m t s = None → at_subtask f p m t s d = d.
Proof.
  intros Hn. rewrite <- (at_subtask_id p m t s d) at 2.
  apply at_subtask_ext. intros x Hx. congruence.
Qed.

Lemma at_subtask_compose f g p m t s d :
  at_subtask f p m t s (at_subtask g p m t s d) = at_subtask (f ∘ g) p m t s d.
Proof.
  unfold at_subtask. rewrite at_task_compose. apply at_task_ext.
  intros T _; simpl. destruct (t_subtasks T); simpl; [|done].
  by rewrite list_alter_alter_eq.
Qed.

Lemma at_subtask_commute f g p m t s s' d :
  s ≠ s' →
  at_subtask f p m t s (at_subtask g p m t s' d)
  = at_subtask g p m t s' (at_subtask f p m t s d).
Proof.
  intros Hne. unfold at_subtask. rewrite !at_task_compose. apply at_task_ext.
  intros T _; simpl. destruct (t_subtasks T); simpl; [|done].
  by rewrite list_alter_alter_ne.
Qed.

Lemma at_subtask_set_meta f p m t s x d :
  at_subtask f p m t s (set_meta x d) = set_meta x (at_subtask f p m t s d).
Proof. reflexivity. Qed.

(** *** Reading back *)

Lemma get_milestone_at f p m d :
  get_milestone (at_milestone f p m d) p m = f <$> get_milestone d p m.
Proof.
  unfold get_milestone, at_milestone; simpl.
  rewrite list_lookup_alter_eq. destruct (projects d !! p) as [P|]; simpl; [|done].
  by rewrite list_lookup_alter_eq.
Qed.

Lemma get_task_at f p m t d :
  get_task (at_task f p m t d) p m t = f <$> get_task d p m t.
Proof.
  unfold get_task, at_task. rewrite get_milestone_at.
  destruct (get_milestone d p m) as [M|]; simpl; [|done].
  destruct (m_tasks M) as [ts|]; simpl; [|done].
  by rewrite list_lookup_alter_eq.
Qed.

Lemma get_subtask_at f p m t s d :
  get_subtask (at_subtask f p m t s d) p m t s = f <$> get_subtask d p m t s.
Proof.
  unfold get_subtask, at_subtask. rewrite get_task_at.
  destruct (get_task d p m t) as [T|]; simpl; [|done].
  destruct (t_subtasks T) as [ss|]; simpl; [|done].
  by rewrite list_lookup_alter_eq.
Qed.

(** The sibling list of a task after a write to one of its subtasks. *)
Lemma siblings_at_subtask f p m t s d :
  (T ← get_task (at_subtask f p m t s d) p m t; t_subtasks T)
  = alter f s <$> (T ← get_task d p m t; t_subtasks T).
Proof.
  unfold at_subtask. rewrite get_task_at.
  destruct (get_task d p m t) as [T|]; simpl; [|done]. done.
Qed.

(** *** What [findTaskById] returns *)

Lemma findTaskById_subtask d taskId p m t s :
  findTaskById d taskId = Some (FoundSubtask p m t s) →
  ∃ T ss sub,
    get_task d p m t = Some T ∧ t_subtasks T = Some ss ∧
    list_find (λ x, s_id x = taskId) ss = Some (s, sub).
Proof.
  unfold findTaskById.
  destruct (first_some _ _) as [[p' [m' [[t' [s'|]]|]]]|] eqn:Hf; intros [=]; subst.
  apply first_some_Some in Hf as (P & HP & Hf & _).
  apply first_some_Some in Hf as (M & HM & Hf & _).
  unfold find_in_milestone in Hf. case_bool_decide; [done|].
  destruct (m_tasks M) as [ts|] eqn:Hts; [|done].
  apply fmap_Some in Hf as (r & Hf & [=]); subst.
  apply first_some_Some in Hf as (T & HT & Hf & _).
  unfold find_in_task in Hf. case_bool_decide; [done|].
  destruct (t_subtasks T) as [ss|] eqn:Hss; [|done].
  apply fmap_Some in Hf as ([i sub] & Hf & [=]); subst.
  exists T, ss, sub. split_and!; [|done..].
  unfold get_task, get_milestone. rewrite HP; simpl. rewrite HM; simpl.
  rewrite Hts; simpl. done.
Qed.

Lemma findIndex_alter (f : Subtask → Subtask) taskId ss s sub :
  (∀ x, s_id (f x) = s_id x) →
  list_find (λ x, s_id x = taskId) ss = Some (s, sub) →
  findIndex taskId (alter f s ss) = Z.of_nat s.
Proof.
  intros Hid (Hl & HP & Hmin)%list_find_Some. unfold findIndex.
  rewrite (proj2 (list_find_Some (λ x, s_id x = taskId) (alter f s ss) s (f sub))); [done|].
  split_and!.
  - by rewrite list_lookup_alter_eq, Hl.
  - by rewrite Hid.
  - intros j y Hj Hlt. rewrite list_lookup_alter_ne in Hj by lia. eauto.
Qed.

Lemma get_subtask_siblings d p m t s :
  get_subtask d p m t s = siblings d p m t !! s.
Proof.
  unfold get_subtask, siblings.
  destruct (get_task d p m t) as [T|]; simpl; [|done].
  by destruct (t_subtasks T).
Qed.

Lemma siblings_at_subtask' f p m t s d :
  siblings (at_subtask f p m t s d) p m t = alter f s (siblings d p m t).
Proof.
  unfold siblings. rewrite siblings_at_subtask.
  by destruct (T ← get_task d p m t; t_subtasks T).
Qed.

(** *** Running the commands *)

Lemma loadData_ok w d : file w = Some d → loadData w = (Return d, w).
Proof. intros H. unfold loadData, readFileSync_parse, mbind, cmd_bind. by rewrite H. Qed.

Lemma loadData_fails w :
  file w = None →
  loadData w = (Exit 1, mkWorld None (clock w) (ticks w) (writes w) (console w ++ [CouldNotLoad])).
Proof.
  intros H. unfold loadData, readFileSync_parse, mbind, cmd_bind. rewrite H. simpl.
  unfold process_exit. by rewrite H.
Qed.

Lemma saveData_run d w :
  saveData d w =
  (Return (),
   mkWorld (Some (set_meta (meta_set_lastUpdated (clock w (ticks w)) (meta d)) d))
           (clock w) (S (ticks w)) (S (writes w)) (console w ++ [Saved])).
Proof. reflexivity. Qed.

Lemma auto_advance_subtask taskId stamp p m t s d T ss sub :
  get_task d p m t = Some T → t_subtasks T = Some ss →
  list_find (λ x, s_id x = taskId) ss = Some (s, sub) →
  fst (auto_advance taskId (FoundSubtask p m t s)
         (mark_item stamp (FoundSubtask p m t s) d))
  = at_subtask (s_set_current (Some true)) p m t (S s)
      (at_subtask (mark_subtask stamp) p m t s d).
Proof.
  intros HT Hss Hfind. unfold auto_advance, parent_subtasks, mark_item.
  rewrite siblings_at_subtask, HT; simpl. rewrite Hss; simpl.
  rewrite (findIndex_alter _ _ _ _ sub) by done.
  rewrite length_alter. case_bool_decide as Hlt; simpl.
  - replace (Z.to_nat (Z.of_nat s + 1)) with (S s) by lia. done.
  - symmetry. apply at_subtask_absent.
    rewrite get_subtask_siblings, siblings_at_subtask'.
    rewrite list_lookup_alter_ne by lia.
    apply lookup_ge_None_2. unfold siblings. rewrite HT; simpl. rewrite Hss; simpl. lia.
Qed.

Lemma cmdMarkDone_subtask w d taskId p m t s :
  file w = Some d →
  findTaskById d taskId = Some (FoundSubtask p m t s) →
  stored_after (cmdMarkDone taskId) w =
  Some (set_meta (meta_set_lastUpdated (clock w (S (ticks w))) (meta d))
          (at_subtask (s_set_current (Some true)) p m t (S s)
             (at_subtask (mark_subtask (clock w (ticks w))) p m t s d))).
Proof.
  intros Hfile Hfound.
  destruct (findTaskById_subtask _ _ _ _ _ _ Hfound) as (T & ss & sub & HT & Hss & Hfind).
  pose proof (auto_advance_subtask taskId (clock w (ticks w)) p m t s d T ss sub HT Hss Hfind) as Hadv.
  unfold stored_after, cmdMarkDone. unfold mbind at 1. unfold cmd_bind at 1.
  rewrite (loadData_ok w d Hfile), Hfound.
  unfold mbind, cmd_bind, new_Date_toISOString, console_log, mret, cmd_ret.
  cbv beta iota.
  destruct (auto_advance _ _ _) as [d2 next]. simpl in Hadv. subst d2.
  destruct next; reflexivity.
Qed.

Lemma cmd_not_found_exits taskId w d :
  file w = Some d → findTaskById d taskId = None →
  cmdMarkDone taskId w
    = (Exit 1, mkWorld (file w) (clock w) (ticks w) (writes w)
                       (console w ++ [TaskNotFound taskId]))
  ∧ cmdSetCurrent taskId w
    = (Exit 1, mkWorld (file w) (clock w) (ticks w) (writes w)
                       (console w ++ [TaskNotFound taskId])).
Proof.
  intros Hfile Hnone.
  split; [unfold cmdMarkDone | unfold cmdSetCurrent];
    unfold mbind at 1, cmd_bind at 1;
    rewrite (loadData_ok w d Hfile), Hnone; reflexivity.
Qed.

Lemma cmd_unreadable_exits taskId w :
  file w = None →
  cmdMarkDone taskId w
    = (Exit 1, mkWorld None (clock w) (ticks w) (writes w) (console w ++ [CouldNotLoad]))
  ∧ cmdSetCurrent taskId w
    = (Exit 1, mkWorld None (clock w) (ticks w) (writes w) (console w ++ [CouldNotLoad])).
Proof.
  intros Hfile.
  split; [unfold cmdMarkDone | unfold cmdSetCurrent];
    unfold mbind at 1, cmd_bind at 1;
    rewrite (loadData_fails w Hfile); reflexivity.
Qed.

Lemma main_missing_id flag args w :
  includes "--help" args = false → includes "-h" args = false →
  includes "--status" args = false →
  flag = "--mark-done" ∨ (flag = "--set-current" ∧ includes "--mark-done" args = false) →
  includes flag args = true →
  falsy (arg_after flag args) = true →
  main args w
    = (Exit 1, mkWorld (file w) (clock w) (ticks w) (writes w)
                       (console w ++ [MissingTaskId])).
Proof.
  intros H1 H2 H3 Hflag Hin Hfalsy. unfold main. rewrite H1, H2, H3; simpl.
  destruct Hflag as [->|[-> Hmd]].
  - by rewrite Hin, Hfalsy.
  - by rewrite Hmd, Hin, Hfalsy.
Qed.

(** C9.  A run of Mark-done or Set-current whose id matches no milestone,
    task or subtask ends with exit code 1 and the data file as it was: no
    write is made and the clock is not even read; the same holds when the
    data file is missing or is not JSON, and when the id argument of
    [--mark-done] or [--set-current] is missing (the run then ends before
    the file is read). *)
Theorem mutation_errors_exit_nonzero_without_write :
  (∀ taskId w d,
     file w = Some d → findTaskById d taskId = None →
     ∀ cmd, cmd = cmdMarkDone ∨ cmd = cmdSetCurrent →
     ∃ code w', cmd taskId w = (Exit code, w') ∧ code ≠ 0 ∧
                file w' = file w ∧ writes w' = writes w ∧
                console w' = console w ++ [TaskNotFound taskId])
  ∧ (∀ taskId w,
     file w = None →
     ∀ cmd, cmd = cmdMarkDone ∨ cmd = cmdSetCurrent →
     ∃ code w', cmd taskId w = (Exit code, w') ∧ code ≠ 0 ∧
                file w' = file w ∧ writes w' = writes w ∧
                console w' = console w ++ [CouldNotLoad])
  ∧ (∀ flag args w,
     includes "--help" args = false → includes "-h" args = false →
     includes "--status" args = false →
     flag = "--mark-done" ∨ (flag = "--set-current" ∧ includes "--mark-done" args = false) →
     includes flag args = true →
     falsy (arg_after flag args) = true →
     ∃ code w', main args w = (Exit code, w') ∧ code ≠ 0 ∧
                file w' = file w ∧ writes w' = writes w ∧
                console w' = console w ++ [MissingTaskId]).
Proof.
  split_and!.
  - intros taskId w d Hfile Hnone cmd Hcmd.
    destruct (cmd_not_found_exits taskId w d Hfile Hnone) as [E1 E2].
    exists 1, (mkWorld (file w) (clock w) (ticks w) (writes w)
                 (console w ++ [TaskNotFound taskId])).
    destruct Hcmd as [-> | ->]; split_and!; done.
  - intros taskId w Hfile cmd Hcmd.
    destruct (cmd_unreadable_exits taskId w Hfile) as [E1 E2].
    exists 1, (mkWorld None (clock w) (ticks w) (writes w) (console w ++ [CouldNotLoad])).
    destruct Hcmd as [-> | ->]; split_and!; done.
  - intros flag args w H1 H2 H3 Hflag Hin Hfalsy.
    exists 1, (mkWorld (file w) (clock w) (ticks w) (writes w) (console w ++ [MissingTaskId])).
    split_and!; try done. by apply (main_missing_id flag).
Qed.

Lemma mutation_errors_witness :
  (∃ code w', cmdMarkDone "l-s9" (ScannerSamples.world (Some ScannerSamples.loom))
                = (Exit code, w') ∧ code ≠ 0 ∧
              file w' = Some ScannerSamples.loom ∧ writes w' = 0%nat ∧
              console w' = [TaskNotFound "l-s9"])
  ∧ (∃ code w', cmdSetCurrent "l-s5" (ScannerSamples.world None)
                = (Exit code, w') ∧ code ≠ 0 ∧
              file w' = None ∧ writes w' = 0%nat ∧ console w' = [CouldNotLoad])
  ∧ (∃ code w', main ["--set-current"] (ScannerSamples.world (Some ScannerSamples.loom))
                = (Exit code, w') ∧ code ≠ 0 ∧
              file w' = Some ScannerSamples.loom ∧ writes w' = 0%nat ∧
              console w' = [MissingTaskId]).
Proof.
  destruct mutation_errors_exit_nonzero_without_write as (H1 & H2 & H3).
  split_and!.
  - apply (H1 "l-s9" (ScannerSamples.world (Some ScannerSamples.loom)) ScannerSamples.loom);
      [reflexivity | reflexivity | by left].
  - apply (H2 "l-s5" (ScannerSamples.world None)); [reflexivity | by right].
  - apply (H3 "--set-current" ["--set-current"]
             (ScannerSamples.world (Some ScannerSamples.loom)));
      try reflexivity. right. split; reflexivity.
Defined.

(** C10.  Mark-done on a subtask leaves in the data file a document that
    differs from the one it read at most in the matched subtask's [done],
    [completedAt] and [current], in the [current] of the sibling right
    after it, and in [meta.lastUpdated]: once those are blanked on both
    sides the two documents are equal, so every other property of every
    project, milestone, task and subtask (the [current] flags of other
    nodes among them) is written back as it was read. *)
Theorem cmdMarkDone_frame w d taskId p m t s :
  file w = Some d →
  findTaskById d taskId = Some (FoundSubtask p m t s) →
  ∃ d', stored_after (cmdMarkDone taskId) w = Some d' ∧
        forget p m t s d' = forget p m t s d.
Proof.
  intros Hfile Hfound. eexists. split; [by apply cmdMarkDone_subtask|].
  unfold forget. rewrite !at_subtask_set_meta.
  set (stamp := clock w (ticks w)).
  assert (at_subtask forget_marks p m t s
            (at_subtask (s_set_current None) p m t (S s)
               (at_subtask (s_set_current (Some true)) p m t (S s)
                  (at_subtask (mark_subtask stamp) p m t s d)))
          = at_subtask forget_marks p m t s
              (at_subtask (s_set_current None) p m t (S s) d)) as ->.
  { rewrite at_subtask_compose.
    rewrite (at_subtask_commute _ (mark_subtask stamp) p m t (S s) s) by lia.
    rewrite at_subtask_compose.
    reflexivity. }
  reflexivity.
Qed.

Lemma cmdMarkDone_frame_witness :
  ∃ d', stored_after (cmdMarkDone "l-s5") (ScannerSamples.world (Some ScannerSamples.loom))
          = Some d' ∧
        forget 0 0 0 0 d' = forget 0 0 0 0 ScannerSamples.loom.
Proof.
  apply (cmdMarkDone_frame (ScannerSamples.world (Some ScannerSamples.loom))
           ScannerSamples.loom "l-s5" 0 0 0 0); reflexivity.
Defined.

(** The focus flags of a sibling list after an auto-advance, when no
    sibling other than the marked one and its successor was in focus. *)
Lemma filter_current_advance stamp (l : list Subtask) (s : nat) :
  (∀ j x, j ≠ s → j ≠ S s → l !! j = Some x → is_true (s_current x) = false) →
  (s < length l)%nat →
  filter (λ y, is_true (s_current y) = true)
         (alter (s_set_current (Some true)) (S s) (alter (mark_subtask stamp) s l))
  = match l !! S s with
    | Some n => [s_set_current (Some true) n]
    | None => []
    end.
Proof.
  assert (Hnil : ∀ k : list Subtask,
            (∀ j x, k !! j = Some x → is_true (s_current x) = false) →
            filter (λ y, is_true (s_current y) = true) k = []).
  { induction k as [|y k IH]; intros Hk; [done|].
    rewrite filter_cons_False.
    - apply IH. intros j x Hj. apply (Hk (S j) x Hj).
    - rewrite (Hk 0%nat y eq_refl). done. }
  revert s. induction l as [|x l IH]; intros s Hoth Hlen; simpl in Hlen; [lia|].
  destruct s as [|s]; simpl.
  - rewrite filter_cons_False by done.
    destruct l as [|n l]; simpl; [done|].
    rewrite filter_cons_True by done. f_equal.
    apply Hnil. intros j y Hj. apply (Hoth (S (S j)) y); [lia|lia|done].
  - rewrite filter_cons_False.
    + apply IH; [|lia]. intros j y H1 H2 Hj. apply (Hoth (S j) y); [lia|lia|done].
    + rewrite (Hoth 0%nat x); [done|lia|lia|done].
Qed.

(** C2, as the code has it.  Mark-done on a subtask sets its [done],
    stamps [completedAt] and deletes its [current]; the sibling right
    after it, if there is one, gets [current = true] whether or not it is
    done; every other sibling is left as it was.  So when no other
    sibling was in focus beforehand, exactly one sibling is in focus
    afterwards (the immediately following one), and none when the marked
    subtask was the last of its list. *)
Theorem cmdMarkDone_advances w d taskId p m t s :
  file w = Some d →
  findTaskById d taskId = Some (FoundSubtask p m t s) →
  ∃ d' x,
    stored_after (cmdMarkDone taskId) w = Some d' ∧
    siblings d p m t !! s = Some x ∧ s_id x = taskId ∧
    siblings d' p m t !! s
      = Some (mkSubtask (s_id x) (s_name x) true (Some (clock w (ticks w))) None (s_extra x)) ∧
    (∀ n, siblings d p m t !! S s = Some n →
          siblings d' p m t !! S s = Some (s_set_current (Some true) n)) ∧
    (∀ j, j ≠ s → j ≠ S s → siblings d' p m t !! j = siblings d p m t !! j) ∧
    ((∀ j y, j ≠ s → j ≠ S s → siblings d p m t !! j = Some y →
             is_true (s_current y) = false) →
     filter (λ y, is_true (s_current y) = true) (siblings d' p m t)
     = match siblings d p m t !! S s with
       | Some n => [s_set_current (Some true) n]
       | None => []
       end).
Proof.
  intros Hfile Hfound.
  destruct (findTaskById_subtask _ _ _ _ _ _ Hfound) as (T & ss & x & HT & Hss & Hfind).
  apply list_find_Some in Hfind as (Hx & Hid & _).
  assert (siblings d p m t = ss) as Hsib.
  { unfold siblings. rewrite HT; simpl. by rewrite Hss. }
  eexists _, x. split; [by apply cmdMarkDone_subtask|].
  assert (∀ X, siblings (set_meta X (at_subtask (s_set_current (Some true)) p m t (S s)
                   (at_subtask (mark_subtask (clock w (ticks w))) p m t s d))) p m t
               = alter (s_set_current (Some true)) (S s)
                   (alter (mark_subtask (clock w (ticks w))) s ss)) as ->.
  { intros X. rewrite <- Hsib, <- !siblings_at_subtask'. done. }
  rewrite Hsib. split_and!; [done..| | | |].
  - rewrite list_lookup_alter_ne by lia. by rewrite list_lookup_alter_eq, Hx.
  - intros n Hn. rewrite list_lookup_alter_eq.
    rewrite list_lookup_alter_ne by lia. by rewrite Hn.
  - intros j H1 H2. by rewrite !list_lookup_alter_ne by lia.
  - intros Hoth. apply filter_current_advance; [done|].
    by apply lookup_lt_Some in Hx.
Qed.

Lemma cmdMarkDone_advances_witness :
  ∃ d' x,
    stored_after (cmdMarkDone "l-s5") (ScannerSamples.world (Some ScannerSamples.loom))
      = Some d' ∧
    siblings ScannerSamples.loom 0 0 0 !! 0%nat = Some x ∧ s_id x = "l-s5" ∧
    siblings d' 0 0 0 !! 0%nat
      = Some (mkSubtask "l-s5" "l-s5" true (Some "2025-06-01T10:00:00.000Z") None []) ∧
    filter (λ y, is_true (s_current y) = true) (siblings d' 0 0 0)
      = [ScannerSamples.subtask "l-s6" false (Some true)].
Proof.
  destruct (cmdMarkDone_advances (ScannerSamples.world (Some ScannerSamples.loom))
              ScannerSamples.loom "l-s5" 0 0 0 0 eq_refl eq_refl)
    as (d' & x & Hrun & Hx & Hid & Hs & _ & _ & Hone).
  exists d', x. split_and!; [done..| |].
  - injection Hx as <-. exact Hs.
  - apply Hone. intros [|[|[|j]]] y H1 H2 Hy; try done.
    by injection Hy as <-.
Defined.

(** *** Set-current when the id is not reused by a later project *)

Lemma existsb_false_Forall {A} (f : A → bool) (l : list A) :
  existsb f l = false ↔ Forall (λ x, f x = false) l.
Proof.
  induction l as [|a l IH]; simpl; [by split; [constructor|]|].
  rewrite orb_false_iff, IH. split.
  - intros [? ?]. by constructor.
  - intros H. by inversion H.
Qed.

Lemma existsb_fmap {A B} (f : B → bool) (g : A → B) (l : list A) :
  existsb f (g <$> l) = existsb (λ x, f (g x)) l.
Proof. induction l as [|a l IH]; csimpl; [done|]. by rewrite IH. Qed.

Lemma existsb_ext' {A} (f g : A → bool) (l : list A) :
  (∀ x, f x = g x) → existsb f l = existsb g l.
Proof. intros E. induction l as [|a l IH]; simpl; [done|]. by rewrite E, IH. Qed.

Lemma existsb_alter {A} (f : A → bool) (g : A → A) (l : list A) i :
  (∀ x, f (g x) = f x) → existsb f (alter g i l) = existsb f l.
Proof.
  intros E. revert i. induction l as [|a l IH]; intros [|i]; csimpl; [done..| |].
  - by rewrite E.
  - by rewrite IH.
Qed.

Lemma task_has_clear taskId T : task_has taskId (clear_task T) = task_has taskId T.
Proof.
  unfold task_has. destruct T as [? ? ? ? ? [ss|] ?]; csimpl; [|done].
  by rewrite existsb_fmap.
Qed.

Lemma hasTask_clear taskId M : hasTask taskId (clear_milestone M) = hasTask taskId M.
Proof.
  unfold hasTask. destruct M as [? ? ? ? ? [ts|] ?]; csimpl; [|done].
  rewrite existsb_fmap. apply existsb_ext'. apply task_has_clear.
Qed.

(** A write to a task, or to a subtask of it, that keeps ids keeps the
    answer of the parent search. *)
Lemma hasTask_at_task taskId (f : Task → Task) t M :
  (∀ T, task_has taskId (f T) = task_has taskId T) →
  hasTask taskId (m_set_tasks (alter f t <$> m_tasks M) M) = hasTask taskId M.
Proof.
  intros E. unfold hasTask. destruct M as [? ? ? ? ? [ts|] ?]; simpl; [|done].
  by apply existsb_alter.
Qed.

Lemma task_has_at_subtask taskId (f : Subtask → Subtask) s T :
  (∀ x, s_id (f x) = s_id x) →
  task_has taskId (t_set_subtasks (alter f s <$> t_subtasks T) T) = task_has taskId T.
Proof.
  intros E. unfold task_has. destruct T as [? ? ? ? ? [ss|] ?]; simpl; [|done].
  f_equal. apply existsb_alter. intros x. by rewrite E.
Qed.

Lemma find_in_task_None taskId T :
  find_in_task taskId T = None → task_has taskId T = false.
Proof.
  unfold find_in_task, task_has. case_bool_decide as Hid; [done|]. simpl.
  destruct (t_subtasks T) as [ss|]; [|done].
  destruct (list_find _ ss) as [r|] eqn:Hf; [done|]. intros _.
  apply list_find_None in Hf. apply existsb_false_Forall.
  eapply Forall_impl; [exact Hf|]. intros x Hx. by apply bool_decide_eq_false.
Qed.

Lemma find_in_task_Some taskId T r :
  find_in_task taskId T = Some r → task_has taskId T = true.
Proof.
  unfold find_in_task, task_has. case_bool_decide as Hid; [done|]. simpl.
  destruct (t_subtasks T) as [ss|]; [|done].
  intros ([i x] & Hf & _)%fmap_Some. apply list_find_Some in Hf as (Hi & Hx & _).
  apply existsb_exists. exists x. split; [|by apply bool_decide_eq_true].
  apply list_elem_of_In. by eapply list_elem_of_lookup_2.
Qed.

Lemma find_in_milestone_None taskId M :
  find_in_milestone taskId M = None → hasTask taskId M = false.
Proof.
  unfold find_in_milestone, hasTask. case_bool_decide; [done|].
  destruct (m_tasks M) as [ts|]; [|done].
  destruct (first_some _ ts) as [r|] eqn:Hf; [done|]. intros _.
  apply first_some_None in Hf. apply existsb_false_Forall.
  eapply Forall_impl; [exact Hf|]. intros T. apply find_in_task_None.
Qed.

Lemma find_in_milestone_child taskId M r :
  find_in_milestone taskId M = Some (Some r) → hasTask taskId M = true.
Proof.
  unfold find_in_milestone, hasTask. case_bool_decide; [done|].
  destruct (m_tasks M) as [ts|]; [|done].
  intros (r' & Hf & [= <-])%fmap_Some. destruct r as [t x].
  apply first_some_Some in Hf as (T & HT & Hf & _).
  apply existsb_exists. exists T. split; [|by eapply find_in_task_Some].
  apply list_elem_of_In. by eapply list_elem_of_lookup_2.
Qed.

(** Where the parent search stops in one project. *)
Lemma mark_parent_in_none taskId ms :
  Forall (λ M, hasTask taskId M = false) ms → mark_parent_in taskId ms = ms.
Proof.
  induction 1 as [|M ms HM _ IH]; simpl; [done|]. by rewrite HM, IH.
Qed.

Lemma mark_parent_in_first taskId ms m M :
  ms !! m = Some M → hasTask taskId M = true →
  (∀ j M', (j < m)%nat → ms !! j = Some M' → hasTask taskId M' = false) →
  mark_parent_in taskId ms = alter (m_set_current (Some true)) m ms.
Proof.
  revert m. induction ms as [|M0 ms IH]; intros [|m] Hm HM Hbefore; simpl in *; try done.
  - injection Hm as ->. by rewrite HM.
  - rewrite (Hbefore 0%nat M0) by (done || lia). f_equal.
    apply IH; [done..|]. intros j M' Hj Hl. apply (Hbefore (S j) M'); [lia|done].
Qed.

(** What [findTaskById] tells about the parent search, for a task or a
    subtask that was found. *)
Lemma findTaskById_owner d taskId found :
  findTaskById d taskId = Some found →
  found_type found ≠ "milestone" →
  (∀ i P, (i < found_project found)%nat → projects d !! i = Some P →
          Forall (λ M, hasTask taskId M = false) (p_milestones P)) ∧
  ∃ P M, projects d !! found_project found = Some P ∧
         p_milestones P !! found_milestone found = Some M ∧
         hasTask taskId M = true ∧
         ∀ j M', (j < found_milestone found)%nat → p_milestones P !! j = Some M' →
                 hasTask taskId M' = false.
Proof.
  unfold findTaskById.
  destruct (first_some _ _) as [[p [m [[t x]|]]]|] eqn:Hf; [| |done].
  2:{ intros [= <-]. done. }
  intros Hfound _.
  assert (found_project found = p ∧ found_milestone found = m) as [-> ->].
  { destruct x; injection Hfound as <-; done. }
  apply first_some_Some in Hf as (P & HP & Hf & Hbefore).
  split.
  - intros i Q Hi HQ. specialize (Hbefore i Q Hi HQ).
    apply first_some_None in Hbefore.
    eapply Forall_impl; [exact Hbefore|]. intros M. apply find_in_milestone_None.
  - apply first_some_Some in Hf as (M & HM & Hf & Hmin).
    exists P, M. split_and!; [done|done|by eapply find_in_milestone_child|].
    intros j M' Hj HM'. apply find_in_milestone_None. by eapply Hmin.
Qed.

Lemma p_set_milestones_same P : p_set_milestones (p_milestones P) P = P.
Proof. by destruct P. Qed.

(** The parent search after the flags were cleared and the item set,
    when no project after the one of the item answers the search: it
    sets the milestone the item lies in, and nothing else. *)
Lemma mark_parent_milestone_owner (g : Milestone → Milestone) d taskId p m P M :
  (∀ M', hasTask taskId (g M') = hasTask taskId M') →
  projects d !! p = Some P → p_milestones P !! m = Some M → hasTask taskId M = true →
  (∀ j M', (j < m)%nat → p_milestones P !! j = Some M' → hasTask taskId M' = false) →
  (∀ i Q, i ≠ p → projects d !! i = Some Q →
          Forall (λ M', hasTask taskId M' = false) (p_milestones Q)) →
  mark_parent_milestone taskId (at_milestone g p m (clearCurrentFlags d))
  = at_milestone (m_set_current (Some true)) p m (at_milestone g p m (clearCurrentFlags d)).
Proof.
  intros Hg HP HM Htrue Hbefore Hothers.
  unfold mark_parent_milestone, at_milestone, clearCurrentFlags, set_projects. simpl. f_equal.
  apply list_eq. intros i. rewrite list_lookup_fmap.
  destruct (decide (i = p)) as [->|Hne].
  - rewrite !list_lookup_alter_eq, list_lookup_fmap, HP. simpl. f_equal. f_equal.
    rewrite list_alter_alter_eq.
    erewrite mark_parent_in_first.
    + by rewrite list_alter_alter_eq.
    + by rewrite list_lookup_alter_eq, list_lookup_fmap, HM.
    + by rewrite Hg, hasTask_clear.
    + intros j M' Hj HM'. rewrite list_lookup_alter_ne, list_lookup_fmap in HM' by lia.
      apply fmap_Some in HM' as (M0 & HM0 & ->). rewrite hasTask_clear. by eapply Hbefore.
  - rewrite !list_lookup_alter_ne, list_lookup_fmap by done.
    destruct (projects d !! i) as [Q|] eqn:HQ; simpl; [|done]. f_equal.
    rewrite mark_parent_in_none; [apply p_set_milestones_same|]. simpl.
    apply Forall_fmap. eapply Forall_impl; [by eapply Hothers|].
    intros M'. simpl. by rewrite hasTask_clear.
Qed.

(** C1 for an id that no later project reuses.  Set-current then comes
    down to three writes: every [current] is deleted, the item found gets
    [current = true], and, for a task or a subtask, so does the milestone
    it lies in. *)
Lemma set_current_when_id_not_reused d taskId found :
  findTaskById d taskId = Some found →
  (∀ i Q, (found_project found < i)%nat → projects d !! i = Some Q →
          Forall (λ M, hasTask taskId M = false) (p_milestones Q)) →
  set_current taskId found d
  = match found with
    | FoundMilestone p m =>
        at_milestone (m_set_current (Some true)) p m (clearCurrentFlags d)
    | FoundTask p m t =>
        at_milestone (m_set_current (Some true)) p m
          (at_task (t_set_current (Some true)) p m t (clearCurrentFlags d))
    | FoundSubtask p m t s =>
        at_milestone (m_set_current (Some true)) p m
          (at_subtask (s_set_current (Some true)) p m t s (clearCurrentFlags d))
    end.
Proof.
  intros Hfound Hlater. unfold set_current.
  destruct found as [p m|p m t|p m t s]; simpl; [done| |].
  - destruct (findTaskById_owner d taskId _ Hfound) as (Hearlier & P & M & HP & HM & Ht & Hb);
      [done|]. simpl in *.
    apply (mark_parent_milestone_owner _ d taskId p m P M); try done.
    + intros M'. by apply hasTask_at_task.
    + intros i Q Hi HQ. destruct (decide (i < p)%nat); [by eapply Hearlier|].
      eapply Hlater; [|done]. lia.
  - destruct (findTaskById_owner d taskId _ Hfound) as (Hearlier & P & M & HP & HM & Ht & Hb);
      [done|]. simpl in *.
    apply (mark_parent_milestone_owner _ d taskId p m P M); try done.
    + intros M'. apply hasTask_at_task. intros T. by apply task_has_at_subtask.
    + intros i Q Hi HQ. destruct (decide (i < p)%nat); [by eapply Hearlier|].
      eapply Hlater; [|done]. lia.
Qed.

(** Mark-done does not clear the focus of other siblings: after
    [--set-current l-s7], [--mark-done l-s5] finds a later sibling that is
    not done and leaves two subtasks in focus, not one; and after
    [--set-current l-s5], marking the last subtask [l-s7] leaves [l-s5] in
    focus. *)
Lemma cmdMarkDone_not_exactly_one :
  (∃ d1 d2 later,
     file ScannerSamples.loom_focus_s7 = Some d1 ∧
     findTaskById d1 "l-s5" = Some (FoundSubtask 0 0 0 0) ∧
     siblings d1 0 0 0 !! 2%nat = Some later ∧ s_done later = false ∧
     stored_after (cmdMarkDone "l-s5") ScannerSamples.loom_focus_s7 = Some d2 ∧
     s_id <$> filter (λ y, is_true (s_current y) = true) (siblings d2 0 0 0)
       = ["l-s6"; "l-s7"] ∧
     length (current_subtasks d2) ≠ 1%nat)
  ∧ (∃ d1 d2,
     file ScannerSamples.loom_focus_s5 = Some d1 ∧
     findTaskById d1 "l-s7" = Some (FoundSubtask 0 0 0 2) ∧
     length (siblings d1 0 0 0) = 3%nat ∧
     stored_after (cmdMarkDone "l-s7") ScannerSamples.loom_focus_s5 = Some d2 ∧
     s_id <$> current_subtasks d2 = ["l-s5"] ∧
     current_subtasks d2 ≠ []).
Proof.
  split.
  - eexists _, _, _. split_and!; [reflexivity..|]. vm_compute. lia.
  - eexists _, _. split_and!; [reflexivity..|]. vm_compute. discriminate.
Qed.

(** C1 at a document in which two projects carry the same task id.  The
    search for the parent milestone leaves its inner loop at the first
    hit, but goes on to the next project, so the milestone of the second
    project is put in focus as well: two milestones are current, one of
    them outside the lookup chain of the task that was found. *)
Theorem cmdSetCurrent_duplicate_id_two_milestones :
  findTaskById ScannerSamples.twins "t1" = Some (FoundTask 0 0 0) ∧
  ∃ d', stored_after (cmdSetCurrent "t1")
          (ScannerSamples.world (Some ScannerSamples.twins)) = Some d' ∧
        length (current_milestones d') = 2%nat ∧
        (m_current <$> get_milestone d' 0 0) = Some (Some true) ∧
        (m_current <$> get_milestone d' 1 0) = Some (Some true) ∧
        length (current_tasks d') = 1%nat ∧
        (t_current <$> get_task d' 0 0 0) = Some (Some true).
Proof. split; [reflexivity|]. eexists. split_and!; reflexivity. Qed.

End ScannerFacts.

(* ------------------------------------------------------------------ *)
(** ** Strings and patterns                                            *)
(* ------------------------------------------------------------------ *)
Module JsFacts.
Import Js.

Lemma backtrack_Some {A} (k : nat → option A) (lo n : nat) (r : A) :
  backtrack k lo n = Some r ↔
  ∃ j, (lo ≤ j ≤ n)%nat ∧ k j = Some r ∧ ∀ i, (j < i ≤ n)%nat → k i = None.
Proof.
  induction n as [|n IH]; simpl.
  - destruct (Nat.ltb_spec 0 lo) as [Hlo|Hlo].
    + split; [discriminate|]. intros (j & Hj & _). lia.
    + destruct (k 0%nat) as [r'|] eqn:Hk.
      * split.
        -- intros [= ->]. exists 0%nat. split; [lia|]; split; [done|]. intros i Hi. lia.
        -- intros (j & Hj & Hkj & _). assert (j = 0%nat) as -> by lia. congruence.
      * split; [discriminate|]. intros (j & Hj & Hkj & _).
        assert (j = 0%nat) as -> by lia. congruence.
  - destruct (Nat.ltb_spec (S n) lo) as [Hlo|Hlo].
    + split; [discriminate|]. intros (j & Hj & _). lia.
    + destruct (k (S n)) as [r'|] eqn:Hk.
      * split.
        -- intros [= ->]. exists (S n). split; [lia|]; split; [done|]. intros i Hi. lia.
        -- intros (j & Hj & Hkj & Hmax).
           destruct (decide (j = S n)) as [->|Hne]; [congruence|].
           rewrite (Hmax (S n)) in Hk by lia. discriminate.
      * rewrite IH. split.
        -- intros (j & Hj & Hkj & Hmax). exists j. split; [lia|]; split; [done|].
           intros i Hi. destruct (decide (i = S n)) as [->|]; [done|]. apply Hmax. lia.
        -- intros (j & Hj & Hkj & Hmax).
           destruct (decide (j = S n)) as [->|Hne]; [congruence|].
           exists j. split; [lia|]; split; [done|]. intros i Hi. apply Hmax. lia.
Qed.

Lemma backtrack_None {A} (k : nat → option A) (lo n : nat) :
  backtrack k lo n = None ↔ ∀ j, (lo ≤ j ≤ n)%nat → k j = None.
Proof.
  induction n as [|n IH]; simpl.
  - destruct (Nat.ltb_spec 0 lo) as [Hlo|Hlo].
    + split; [|done]. intros _ j Hj. lia.
    + destruct (k 0%nat) eqn:Hk.
      * split; [discriminate|]. intros H. rewrite H in Hk by lia. discriminate.
      * split; [|done]. intros _ j Hj. by assert (j = 0%nat) as -> by lia.
  - destruct (Nat.ltb_spec (S n) lo) as [Hlo|Hlo].
    + split; [|done]. intros _ j Hj. lia.
    + destruct (k (S n)) eqn:Hk.
      * split; [discriminate|]. intros H. rewrite H in Hk by lia. discriminate.
      * rewrite IH. split.
        -- intros H j Hj. destruct (decide (j = S n)) as [->|]; [done|]. apply H. lia.
        -- intros H j Hj. apply H. lia.
Qed.

(** The greedy choice, when it lets the rest match, is the match. *)
Lemma backtrack_greedy {A} (k : nat → option A) (lo n : nat) :
  (lo ≤ n)%nat → (k n = None → ∀ j, (j < n)%nat → k j = None) →
  backtrack k lo n = k n.
Proof.
  intros Hlo Hk. destruct (k n) as [r|] eqn:Hn.
  - apply backtrack_Some. exists n. split; [lia|]; split; [done|]. intros i Hi. lia.
  - apply backtrack_None. intros j Hj.
    destruct (decide (j = n)) as [->|]; [done|]. apply Hk; [done|lia].
Qed.

Lemma span_app p (ws rest : str) :
  forallb p ws = true → span p (ws ++ rest) = (length ws + span p rest)%nat.
Proof.
  induction ws as [|c ws IH]; simpl; [done|].
  intros [Hc Hws]%andb_prop. rewrite Hc. by rewrite IH.
Qed.

Lemma span_all p (ws : str) : forallb p ws = true → span p ws = length ws.
Proof. intros H. rewrite <- (app_nil_r ws) at 1. rewrite span_app by done. simpl. lia. Qed.

Lemma span_take p (s : str) : forallb p (take (span p s) s) = true.
Proof. induction s as [|c s IH]; simpl; [done|]. destruct (p c) eqn:Hc; simpl; [|done]. by rewrite Hc. Qed.

Lemma span_take_le p (s : str) j :
  (j ≤ span p s)%nat → forallb p (take j s) = true.
Proof.
  intros Hj. pose proof (span_take p s) as Hs.
  rewrite forallb_forall in Hs |- *. intros x Hx%list_elem_of_In.
  apply Hs, list_elem_of_In.
  rewrite <- (Nat.min_l j (span p s)) in Hx by lia. rewrite <- take_take in Hx.
  by eapply subseteq_take.
Qed.

Lemma span_drop p (s : str) : span p (drop (span p s) s) = 0%nat.
Proof. induction s as [|c s IH]; simpl; [done|]. destruct (p c) eqn:Hc; simpl; [done|]. by rewrite Hc. Qed.

Lemma span_le p (s : str) : (span p s ≤ length s)%nat.
Proof. induction s as [|c s IH]; simpl; [lia|]. destruct (p c); simpl; lia. Qed.

Lemma span_0_head p (s : str) :
  span p s = 0%nat → match s with [] => True | c :: _ => p c = false end.
Proof. destruct s as [|c s]; simpl; [done|]. by destruct (p c). Qed.

Lemma drop_app_length' {A} (l k : list A) n : n = length l → drop n (l ++ k) = k.
Proof. intros ->. apply drop_app_length. Qed.

(** A [p*] in front of a single unit that is not of class [p]: the star
    takes every leading [p], and giving units back cannot help. *)
Lemma exec_star_then_one p q (wrap : atom → item) (r : regex) (ws rest : str) :
  (wrap = Plain ∨ wrap = Group) →
  forallb p ws = true → span p rest = 0%nat →
  (∀ c, p c = true → q c = false) →
  exec (Plain (star p) :: wrap (One q) :: r) (ws ++ rest)
  = exec (wrap (One q) :: r) rest.
Proof.
  intros Hwrap Hws Hrest Hpq.
  change (exec (Plain (star p) :: wrap (One q) :: r) (ws ++ rest))
    with (backtrack (λ n, exec (wrap (One q) :: r) (drop n (ws ++ rest))) 0
            (span p (ws ++ rest))).
  rewrite span_app, Hrest, Nat.add_0_r by done.
  rewrite backtrack_greedy; [by rewrite drop_app_length | lia |].
  intros _ j Hj. rewrite drop_app_le by lia.
  destruct (drop j ws) as [|c ws'] eqn:Hd.
  { apply (f_equal length) in Hd. rewrite length_drop in Hd. simpl in Hd. lia. }
  assert (p c = true) as Hc.
  { assert (c ∈ ws) as Hin.
    { eapply (subseteq_drop j ws). rewrite Hd. left. }
    rewrite forallb_forall in Hws. apply Hws. by apply list_elem_of_In. }
  destruct Hwrap as [-> | ->]; simpl; by rewrite (Hpq c Hc).
Qed.

Lemma line_terminator_is_space c : is_line_terminator c = true → is_space c = true.
Proof.
  unfold is_line_terminator. rewrite !orb_true_iff, !N.eqb_eq.
  intros [[[->| ->]| ->]| ->]; reflexivity.
Qed.

Lemma not_space_dot c : is_space c = false → dot c = true.
Proof.
  intros Hs. unfold dot. destruct (is_line_terminator c) eqn:Hl; [|done].
  apply line_terminator_is_space in Hl. congruence.
Qed.

Lemma chr_not_space x c :
  forallb (λ u, negb (is_space u)) (lit x) = true → is_space c = true → chr x c = false.
Proof.
  intros Hx Hc. unfold chr. apply bool_decide_eq_false. intros Hin.
  rewrite forallb_forall in Hx. apply list_elem_of_In, Hx in Hin.
  rewrite Hc in Hin. discriminate.
Qed.

Lemma trimStart_spaces (s : str) : forallb is_space s = true → trimStart s = [].
Proof. induction s as [|c s IH]; simpl; [done|]. intros [-> ?]%andb_prop. auto. Qed.

Lemma trimStart_app_spaces (ws s : str) :
  forallb is_space ws = true → trimStart (ws ++ s) = trimStart s.
Proof. induction ws as [|c ws IH]; simpl; [done|]. intros [-> ?]%andb_prop. auto. Qed.

Lemma trim_spaces (s : str) : forallb is_space s = true → trim s = [].
Proof. intros H. unfold trim. by rewrite trimStart_spaces. Qed.

Lemma trim_app_spaces (ws s : str) :
  forallb is_space ws = true → trim (ws ++ s) = trim s.
Proof. intros H. unfold trim. by rewrite trimStart_app_spaces. Qed.

Lemma trimStart_span (s : str) : trimStart s = drop (span is_space s) s.
Proof. induction s as [|c s IH]; simpl; [done|]. by destruct (is_space c). Qed.

(** Cutting a text at its first line terminator does not change what it
    trims to, when the trimmed text has no line terminator. *)
Lemma trimEnd_span_dot (s : str) :
  forallb dot (trimEnd s) = true → trimEnd (take (span dot s) s) = trimEnd s.
Proof.
  induction s as [|c s IH]; simpl; [done|].
  destruct (dot c) eqn:Hc; simpl.
  - intros H. rewrite IH; [done|].
    destruct (trimEnd s) as [|c' t]; [done|].
    simpl in H. by apply andb_prop in H as [_ H].
  - assert (is_space c = true) as Hsp.
    { apply line_terminator_is_space. unfold dot in Hc. by destruct (is_line_terminator c). }
    destruct (trimEnd s) as [|c' t]; [by rewrite Hsp|].
    simpl. rewrite Hc. discriminate.
Qed.

(** [(.+)] at the end of a pattern. *)
Lemma exec_plus_dot (s : str) :
  exec [Group (plus dot)] s
  = if decide (1 ≤ span dot s)%nat then Some [take (span dot s) s] else None.
Proof.
  change (exec [Group (plus dot)] s)
    with (backtrack (λ n, Some [take n s]) 1 (span dot s)).
  case_decide as H.
  - rewrite backtrack_greedy; [done|lia|done].
  - apply backtrack_None. intros j Hj. lia.
Qed.

Lemma existsb_span_dot (s : str) j :
  (1 ≤ span dot (drop j s))%nat → existsb dot (drop j s) = true.
Proof.
  destruct (drop j s) as [|c r]; simpl; [lia|]. destruct (dot c); [done|lia].
Qed.

Lemma existsb_drop {A} (p : A → bool) (s : list A) j :
  existsb p (drop j s) = true → existsb p s = true.
Proof.
  rewrite !existsb_exists. intros (x & Hx & Hp). exists x. split; [|done].
  apply list_elem_of_In. eapply subseteq_drop. by apply list_elem_of_In.
Qed.

(** [\s{lo,}(.+)] closing a pattern, on a text that comes after exactly
    [lo] units of white space: it matches as soon as the text has a unit
    that is not a line terminator, and the capture trims to the trimmed
    text when that has no line terminator in it. *)
Lemma exec_spaces_then_text lo (gap text : str) :
  length gap = lo → forallb is_space gap = true → existsb dot text = true →
  ∃ body,
    exec [Plain (Rep is_space lo None); Group (plus dot)] (gap ++ text) = Some [body] ∧
    (forallb dot (trim text) = true → trim body = trim text).
Proof.
  intros Hlen Hgap Hdot.
  set (F := gap ++ text).
  set (k := λ n : nat, exec [Group (plus dot)] (drop n F)).
  change (exec [Plain (Rep is_space lo None); Group (plus dot)] F)
    with (backtrack k lo (span is_space F)).
  assert (lo ≤ span is_space F)%nat as Hlo.
  { unfold F. rewrite span_app by done. lia. }
  assert (drop lo F = text) as Htext by (by apply drop_app_length').
  destruct (drop (span is_space F) F) as [|c R] eqn:HR.
  - (* nothing but white space: some unit is given back to [(.+)] *)
    assert (forallb is_space F = true) as Hall.
    { rewrite <- (take_drop (span is_space F) F), HR, app_nil_r. apply span_take. }
    assert (trim text = []) as Htrim.
    { apply trim_spaces. rewrite <- Htext.
      rewrite forallb_forall in Hall |- *. intros x Hx. apply Hall.
      apply list_elem_of_In. eapply subseteq_drop. by apply list_elem_of_In. }
    destruct (backtrack k lo (span is_space F)) as [r|] eqn:Hb.
    + apply backtrack_Some in Hb as (j & Hj & Hkj & _). unfold k in Hkj.
      rewrite exec_plus_dot in Hkj. case_decide; [|done]. injection Hkj as <-.
      eexists. split; [done|]. intros _. rewrite Htrim. apply trim_spaces.
      rewrite forallb_forall in Hall |- *. intros x Hx. apply Hall.
      apply list_elem_of_In. eapply subseteq_drop, subseteq_take. by apply list_elem_of_In.
    + exfalso. rewrite backtrack_None in Hb.
      rewrite <- Htext in Hdot. apply existsb_exists in Hdot as (x & Hx & Hdx).
      apply list_elem_of_In, list_elem_of_lookup in Hx as [i Hi].
      rewrite lookup_drop in Hi.
      assert (lo + i < span is_space F)%nat as Hlt.
      { apply lookup_lt_Some in Hi.
        assert (length F = span is_space F) as <-; [|done].
        rewrite <- (take_drop (span is_space F) F) at 1. rewrite HR, app_nil_r.
        rewrite length_take. pose proof (span_le is_space F). lia. }
      specialize (Hb (lo + i)%nat ltac:(lia)). unfold k in Hb.
      rewrite exec_plus_dot in Hb.
      rewrite (drop_S _ _ _ Hi) in Hb. simpl in Hb. rewrite Hdx in Hb.
      case_decide as Hc; [done|]. lia.
  - (* the text starts, after its white space, with [c] *)
    assert (is_space c = false) as Hc.
    { pose proof (span_drop is_space F) as H0. rewrite HR in H0.
      by apply span_0_head in H0. }
    assert (k (span is_space F) = Some [take (span dot (c :: R)) (c :: R)]) as Hk.
    { unfold k. rewrite HR, exec_plus_dot. case_decide as H1; [done|].
      simpl in H1. rewrite (not_space_dot c Hc) in H1. lia. }
    rewrite backtrack_greedy; [|done|by rewrite Hk].
    eexists. split; [exact Hk|]. intros Hnolt.
    assert (trimStart text = c :: R) as Hts.
    { rewrite <- Htext, <- HR.
      replace (span is_space F) with (lo + (span is_space F - lo))%nat by lia.
      rewrite <- drop_drop, Htext.
      rewrite trimStart_span. f_equal.
      unfold F. rewrite span_app by done. lia. }
    unfold trim in *. rewrite Hts in *.
    replace (trimStart (take (span dot (c :: R)) (c :: R)))
      with (take (span dot (c :: R)) (c :: R)).
    + by apply trimEnd_span_dot.
    + simpl. rewrite (not_space_dot c Hc). simpl. by rewrite Hc.
Qed.

(** The converse: a match needs a unit that is not a line terminator
    after at least [lo] units of white space. *)
Lemma exec_spaces_then_text_inv lo (F : str) caps :
  exec [Plain (Rep is_space lo None); Group (plus dot)] F = Some caps →
  ∃ n body, (lo ≤ n ≤ span is_space F)%nat ∧ caps = [body] ∧
            existsb dot (drop n F) = true.
Proof.
  change (exec [Plain (Rep is_space lo None); Group (plus dot)] F)
    with (backtrack (λ n : nat, exec [Group (plus dot)] (drop n F)) lo (span is_space F)).
  intros (j & Hj & Hkj & _)%backtrack_Some.
  rewrite exec_plus_dot in Hkj. case_decide; [|done]. injection Hkj as <-.
  exists j. eexists. split_and!; [lia|lia|done|]. by apply existsb_span_dot.
Qed.

End JsFacts.

(* ------------------------------------------------------------------ *)
(** ** The checklist parser                                            *)
(* ------------------------------------------------------------------ *)
Module ChecklistFacts.
Import Js Checklist JsFacts.

Lemma exec_one_plain q r c (s : str) :
  q c = true → exec (Plain (One q) :: r) (c :: s) = exec r s.
Proof. intros H. simpl. by rewrite H. Qed.

Lemma exec_one_group q r c (s : str) :
  q c = true →
  exec (Group (One q) :: r) (c :: s) = (λ caps, [c] :: caps) <$> exec r s.
Proof. intros H. simpl. by rewrite H. Qed.

Lemma exec_one_inv (wrap : atom → item) q r (s : str) caps :
  wrap = Plain ∨ wrap = Group →
  exec (wrap (One q) :: r) s = Some caps →
  ∃ c s', s = c :: s' ∧ q c = true.
Proof.
  intros Hw H. destruct s as [|c s']; [by destruct Hw as [-> | ->]|].
  exists c, s'. split; [done|].
  destruct (q c) eqn:Hq; [done|]. destruct Hw as [-> | ->]; simpl in H; by rewrite Hq in H.
Qed.

Lemma bullet_not_space c : chr "-*" c = true → is_space c = false.
Proof.
  intros H. destruct (is_space c) eqn:Hs; [|done].
  rewrite (chr_not_space "-*" c) in H; done.
Qed.

Lemma open_not_space c : chr "[" c = true → is_space c = false.
Proof.
  intros H. destruct (is_space c) eqn:Hs; [|done].
  rewrite (chr_not_space "[" c) in H; done.
Qed.

Lemma span_space_0 q c (s : str) :
  (∀ u, q u = true → is_space u = false) → q c = true → span is_space (c :: s) = 0%nat.
Proof. intros Hq Hc. simpl. by rewrite (Hq c Hc). Qed.

(** A bullet line matches, and the captures are its marker and a text
    that trims to its free text. *)
Lemma exec_checkRe_bullet line mark text :
  bullet_line line mark text →
  ∃ body, exec checkRe line = Some [[mark]; body] ∧
          (forallb dot (trim text) = true → trim body = trim text).
Proof.
  intros (lead & bullet & gap & -> & Hlead & Hbullet & Hgap & Hmark & Htext).
  destruct (exec_spaces_then_text 0 [] text eq_refl eq_refl Htext) as (body & Hbody & Htrim).
  exists body. split; [|done].
  unfold checkRe.
  rewrite (exec_star_then_one is_space (chr "-*") Plain);
    [|by left|done|by apply (span_space_0 (chr "-*")), Hbullet; apply bullet_not_space
     |by intros c Hc; apply chr_not_space].
  simpl app at 1. rewrite exec_one_plain by done.
  rewrite (exec_star_then_one is_space (chr "[") Plain);
    [|by left|done|by apply (span_space_0 (chr "[")); [apply open_not_space|]
     |by intros c Hc; apply chr_not_space].
  change (lit "[" ++ [mark] ++ lit "]" ++ text) with (91%N :: mark :: 93%N :: text).
  rewrite exec_one_plain by done. rewrite exec_one_group by done.
  rewrite exec_one_plain by done.
  simpl app in Hbody. unfold star. by rewrite Hbody.
Qed.

(** Only bullet lines match. *)
Lemma exec_checkRe_inv line caps :
  exec checkRe line = Some caps →
  ∃ mark text body, caps = [[mark]; body] ∧ bullet_line line mark text.
Proof.
  unfold checkRe. intros H.
  rewrite <- (take_drop (span is_space line) line) in H.
  rewrite (exec_star_then_one is_space (chr "-*") Plain) in H;
    [|by left|apply span_take|apply span_drop|by intros c Hc; apply chr_not_space].
  destruct (exec_one_inv Plain _ _ _ _ (or_introl eq_refl) H) as (bullet & s2 & Hs2 & Hbullet).
  rewrite Hs2, exec_one_plain in H by done.
  rewrite <- (take_drop (span is_space s2) s2) in H.
  rewrite (exec_star_then_one is_space (chr "[") Plain) in H;
    [|by left|apply span_take|apply span_drop|by intros c Hc; apply chr_not_space].
  destruct (exec_one_inv Plain _ _ _ _ (or_introl eq_refl) H) as (o & s3 & Hs3 & Ho).
  rewrite Hs3, exec_one_plain in H by done.
  destruct (exec_one_inv Group _ _ _ _ (or_intror eq_refl) H) as (mark & s4 & -> & Hmark).
  rewrite exec_one_group in H by done.
  apply fmap_Some in H as (caps' & H & ->).
  destruct (exec_one_inv Plain _ _ _ _ (or_introl eq_refl) H) as (cl & F & -> & Hcl).
  rewrite exec_one_plain in H by done.
  apply exec_spaces_then_text_inv in H as (n & body & Hn & -> & Hdot).
  exists mark, F, body. split; [done|].
  exists (take (span is_space line) line), bullet, (take (span is_space s2) s2).
  split_and!; [|apply span_take|done|apply span_take|done|by eapply existsb_drop].
  rewrite <- (take_drop (span is_space line) line) at 1. f_equal.
  rewrite Hs2. simpl. f_equal.
  rewrite <- (take_drop (span is_space s2) s2) at 1. f_equal.
  rewrite Hs3.
  assert (o = 91%N) as ->.
  { unfold chr in Ho. apply bool_decide_eq_true in Ho. by apply list_elem_of_singleton in Ho. }
  assert (cl = 93%N) as ->.
  { unfold chr in Hcl. apply bool_decide_eq_true in Hcl. by apply list_elem_of_singleton in Hcl. }
  done.
Qed.

Lemma hash_not_space c : chr "#" c = true → is_space c = false.
Proof.
  intros H. destruct (is_space c) eqn:Hs; [|done].
  rewrite (chr_not_space "#" c) in H; done.
Qed.

Lemma forallb_hash_replicate (s : str) :
  forallb (chr "#") s = true → s = replicate (length s) 35%N.
Proof.
  induction s as [|c s IH]; simpl; [done|].
  intros [Hc Hs]%andb_prop. rewrite <- IH by done. f_equal.
  unfold chr in Hc. apply bool_decide_eq_true in Hc. by apply list_elem_of_singleton in Hc.
Qed.

Lemma forallb_replicate_hash n : forallb (chr "#") (replicate n 35%N) = true.
Proof. induction n; simpl; [done|]. by rewrite IHn. Qed.

(** [#{lo,3}\s+(.+)] on a heading line, with or without a group around
    the hashes. *)
Lemma exec_heading (wrap : atom → item) lo line lvl title :
  wrap = Plain ∨ wrap = Group →
  (lo ≤ lvl ≤ 3)%nat → heading_line line lvl title →
  ∃ body,
    exec [wrap (Rep (chr "#") lo (Some 3%nat)); Plain (plus is_space); Group (plus dot)] line
    = Some (match wrap (One dot) with
            | Plain _ => [body]
            | Group _ => [replicate lvl 35%N; body]
            end) ∧
    (forallb dot (trim title) = true → trim body = trim title).
Proof.
  intros Hwrap Hlvl (gap & -> & Hne & Hgap & Htitle).
  destruct gap as [|g gap]; [done|]. simpl in Hgap. apply andb_prop in Hgap as [Hg Hgap].
  destruct (exec_spaces_then_text 1 [g] (gap ++ title)) as (body & Hbody & Htrim);
    [done|by rewrite forallb_app || (simpl; rewrite Hg)|..].
  { rewrite existsb_app, Htitle. by rewrite orb_true_r. }
  exists body. split.
  2:{ intros H. rewrite trim_app_spaces in Htrim by done. auto. }
  unfold plus in *.
  set (F := replicate lvl 35%N ++ (g :: gap) ++ title).
  assert (span (chr "#") F = lvl) as Hspan.
  { unfold F. rewrite span_app by apply forallb_replicate_hash.
    rewrite length_replicate. simpl.
    destruct (chr "#" g) eqn:Hc; [|lia].
    apply hash_not_space in Hc. congruence. }
  assert (drop lvl F = [g] ++ gap ++ title) as Hdrop.
  { unfold F. apply drop_app_length'. by rewrite length_replicate. }
  assert (take lvl F = replicate lvl 35%N) as Htake.
  { unfold F. rewrite take_app_length'; [done|]. by rewrite length_replicate. }
  destruct Hwrap as [-> | ->].
  - change (exec _ F)
      with (backtrack (λ n, exec [Plain (Rep is_space 1 None); Group (Rep dot 1 None)]
                              (drop n F)) lo
              (Nat.min 3 (span (chr "#") F))).
    rewrite Hspan, Nat.min_r by lia.
    rewrite backtrack_greedy; [by rewrite Hdrop|lia|]. by rewrite Hdrop, Hbody.
  - change (exec _ F)
      with (backtrack (λ n, (λ caps, take n F :: caps)
                              <$> exec [Plain (Rep is_space 1 None); Group (Rep dot 1 None)]
                                    (drop n F)) lo
              (Nat.min 3 (span (chr "#") F))).
    rewrite Hspan, Nat.min_r by lia.
    rewrite backtrack_greedy; [|lia|].
    + by rewrite Hdrop, Htake, Hbody.
    + by rewrite Hdrop, Hbody.
Qed.

(** Only heading lines of a level from [lo] to 3 match. *)
Lemma exec_heading_inv (wrap : atom → item) lo line caps :
  wrap = Plain ∨ wrap = Group →
  exec [wrap (Rep (chr "#") lo (Some 3%nat)); Plain (plus is_space); Group (plus dot)] line
  = Some caps →
  ∃ lvl title, (lo ≤ lvl ≤ 3)%nat ∧ heading_line line lvl title.
Proof.
  intros Hwrap H.
  assert (∃ j caps', (lo ≤ j ≤ Nat.min 3 (span (chr "#") line))%nat ∧
            exec [Plain (plus is_space); Group (plus dot)] (drop j line) = Some caps')
    as (j & caps' & Hj & Hk).
  { destruct Hwrap as [-> | ->].
    - change (exec _ line)
        with (backtrack (λ n, exec [Plain (plus is_space); Group (plus dot)] (drop n line)) lo
                (Nat.min 3 (span (chr "#") line))) in H.
      apply backtrack_Some in H as (j & Hj & Hk & _). eauto.
    - change (exec _ line)
        with (backtrack (λ n, (λ caps, take n line :: caps)
                                <$> exec [Plain (plus is_space); Group (plus dot)] (drop n line)) lo
                (Nat.min 3 (span (chr "#") line))) in H.
      apply backtrack_Some in H as (j & Hj & Hk & _).
      apply fmap_Some in Hk as (caps' & Hk & _). eauto. }
  apply exec_spaces_then_text_inv in Hk as (n & body & Hn & -> & Hdot).
  exists j, (drop n (drop j line)). split; [lia|].
  exists (take n (drop j line)). split_and!.
  - rewrite take_drop.
    rewrite <- (take_drop j line) at 1. f_equal.
    assert (forallb (chr "#") (take j line) = true) as Hall
      by (apply span_take_le; lia).
    apply forallb_hash_replicate in Hall. rewrite Hall at 1.
    f_equal. rewrite length_take. pose proof (span_le (chr "#") line). lia.
  - intros Hnil. apply (f_equal length) in Hnil. rewrite length_take in Hnil.
    pose proof (span_le is_space (drop j line)). simpl in Hnil. lia.
  - apply span_take_le. lia.
  - done.
Qed.

Local Arguments exec : simpl never.

Lemma is_x_mark mark :
  chr " xX" mark = true → is_x [mark] = bool_decide (mark = 120%N ∨ mark = 88%N).
Proof.
  unfold chr. intros Hin%bool_decide_eq_true.
  change (lit " xX") with [32%N; 120%N; 88%N] in Hin.
  rewrite !elem_of_cons, elem_of_nil in Hin.
  destruct Hin as [->|[->|[->|[]]]]; reflexivity.
Qed.

(** The decomposition of a bullet line is unique. *)
Lemma spaces_then_unique (ws1 ws2 : str) c1 c2 (r1 r2 : str) :
  ws1 ++ c1 :: r1 = ws2 ++ c2 :: r2 →
  forallb is_space ws1 = true → forallb is_space ws2 = true →
  is_space c1 = false → is_space c2 = false →
  ws1 = ws2 ∧ c1 = c2 ∧ r1 = r2.
Proof.
  revert ws2. induction ws1 as [|a ws1 IH]; intros [|b ws2]; simpl;
    intros Heq H1 H2 Hc1 Hc2.
  - by simplify_eq.
  - simplify_eq. apply andb_prop in H2 as [H2 _]. congruence.
  - simplify_eq. apply andb_prop in H1 as [H1 _]. congruence.
  - injection Heq as -> Heq. apply andb_prop in H1 as [_ H1]. apply andb_prop in H2 as [_ H2].
    destruct (IH ws2 Heq H1 H2 Hc1 Hc2) as (-> & -> & ->). done.
Qed.

Lemma bullet_line_unique line m1 t1 m2 t2 :
  bullet_line line m1 t1 → bullet_line line m2 t2 → m1 = m2 ∧ t1 = t2.
Proof.
  intros (l1 & b1 & g1 & -> & Hl1 & Hb1 & Hg1 & _ & _)
         (l2 & b2 & g2 & Heq & Hl2 & Hb2 & Hg2 & _ & _).
  simpl in Heq.
  apply spaces_then_unique in Heq as (_ & _ & Heq);
    [|done|done|by apply bullet_not_space..].
  change (g1 ++ 91%N :: m1 :: 93%N :: t1 = g2 ++ 91%N :: m2 :: 93%N :: t2) in Heq.
  apply spaces_then_unique in Heq as (_ & _ & Heq); [|done..].
  by simplify_eq.
Qed.

(** C3 as stated fails on a line with a carriage return inside its free
    text: the line is a bullet checklist line whose free text trims to
    [a], CR, [b], but the record is named [a]. *)
Lemma parseChecklists_cuts_at_carriage_return :
  bullet_line cr_inside 32%N (lit " a" ++ [CR] ++ lit "b") ∧
  trim (lit " a" ++ [CR] ++ lit "b") = lit "a" ++ [CR] ++ lit "b" ∧
  parseChecklists cr_inside (lit "TODO.md") = [mkItem false (lit "a") (lit "TODO")] ∧
  ¬ records (split LF cr_inside)
            ((λ i, (done i, name i)) <$> parseChecklists cr_inside (lit "TODO.md")).
Proof.
  assert (bullet_line cr_inside 32%N (lit " a" ++ [CR] ++ lit "b")) as Hb.
  { exists [], 45%N, [32%N]. split_and!; reflexivity. }
  split_and!; [done|reflexivity|reflexivity|].
  change (split LF cr_inside) with [cr_inside].
  change ((λ i, (done i, name i)) <$> parseChecklists cr_inside (lit "TODO.md"))
    with [(false, lit "a")].
  intros H. inversion H as [|line mark text rest rs Hb' Hrest E1 E2|line rest rs Hno Hrest]; subst.
  - destruct (bullet_line_unique _ _ _ _ _ Hb Hb') as [<- <-]. discriminate.
  - by apply (Hno _ _ Hb).
Qed.

(** *** Section tagging *)

Lemma heading_not_bullet line lvl title mark text :
  (1 ≤ lvl)%nat → heading_line line lvl title → ¬ bullet_line line mark text.
Proof.
  intros Hlvl (gap & -> & _) (lead & bullet & g & Heq & Hlead & Hbullet & _).
  destruct lvl as [|lvl]; [lia|]. simpl in Heq.
  destruct lead as [|c lead]; simpl in Heq; injection Heq as <- _.
  - by vm_compute in Hbullet.
  - by simpl in Hlead.
Qed.

End ChecklistFacts.

Module CaptureFacts.
Import Js Checklist JsFacts ChecklistFacts.

Lemma trimStart_first_piece (text : str) : trimStart (first_piece text) = first_piece text.
Proof.
  unfold first_piece. cbv zeta. rewrite (trimStart_span text).
  pose proof (span_drop is_space text) as H0.
  destruct (drop (span is_space text) text) as [|c R] eqn:HR; [done|].
  apply span_0_head in H0. cbn [span]. rewrite (not_space_dot c H0).
  cbn [take trimStart]. by rewrite H0.
Qed.

Lemma captured_spaces (ws text : str) :
  forallb is_space ws = true → captured (ws ++ text) = captured text.
Proof. intros H. unfold captured, first_piece. by rewrite trimStart_app_spaces. Qed.

(** On a text that trims to something without a line terminator, what is
    captured is the trimmed text. *)
Lemma captured_clean (text : str) :
  forallb dot (trim text) = true → captured text = trim text.
Proof.
  intros H. unfold captured, trim. rewrite trimStart_first_piece.
  unfold first_piece. cbv zeta. by apply trimEnd_span_dot.
Qed.

Lemma captured_all_space (text : str) : forallb is_space text = true → captured text = [].
Proof.
  intros H. unfold captured, first_piece. by rewrite (trimStart_spaces text H).
Qed.

(** [\s{lo,}(.+)] on a text after exactly [lo] units of white space: the
    capture trims to what [captured] gives. *)
Lemma exec_spaces_then_text_body lo (gap text : str) :
  length gap = lo → forallb is_space gap = true → existsb dot text = true →
  ∃ body,
    exec [Plain (Rep is_space lo None); Group (plus dot)] (gap ++ text) = Some [body] ∧
    trim body = captured text.
Proof.
  intros Hlen Hgap Hdot.
  set (F := gap ++ text).
  set (k := λ n : nat, exec [Group (plus dot)] (drop n F)).
  change (exec [Plain (Rep is_space lo None); Group (plus dot)] F)
    with (backtrack k lo (span is_space F)).
  assert (lo ≤ span is_space F)%nat as Hlo.
  { unfold F. rewrite span_app by done. lia. }
  assert (drop lo F = text) as Htext by (by apply drop_app_length').
  destruct (drop (span is_space F) F) as [|c R] eqn:HR.
  - assert (forallb is_space F = true) as Hall.
    { rewrite <- (take_drop (span is_space F) F), HR, app_nil_r. apply span_take. }
    assert (forallb is_space text = true) as Hsp.
    { rewrite <- Htext.
      rewrite forallb_forall in Hall |- *. intros x Hx. apply Hall.
      apply list_elem_of_In. eapply subseteq_drop. by apply list_elem_of_In. }
    destruct (exec_spaces_then_text lo gap text Hlen Hgap Hdot) as (body & Hbody & _).
    fold F in Hbody.
    change (exec [Plain (Rep is_space lo None); Group (plus dot)] F)
      with (backtrack k lo (span is_space F)) in Hbody.
    exists body. split; [done|]. rewrite (captured_all_space text Hsp).
    apply backtrack_Some in Hbody as (j & Hj & Hkj & _). unfold k in Hkj.
    rewrite exec_plus_dot in Hkj. case_decide; [|done]. injection Hkj as <-.
    apply trim_spaces.
    rewrite forallb_forall in Hall |- *. intros x Hx. apply Hall.
    apply list_elem_of_In. eapply subseteq_drop, subseteq_take. by apply list_elem_of_In.
  - assert (is_space c = false) as Hc.
    { pose proof (span_drop is_space F) as H0. rewrite HR in H0.
      by apply span_0_head in H0. }
    assert (k (span is_space F) = Some [take (span dot (c :: R)) (c :: R)]) as Hk.
    { unfold k. rewrite HR, exec_plus_dot. case_decide as H1; [done|].
      simpl in H1. rewrite (not_space_dot c Hc) in H1. lia. }
    rewrite backtrack_greedy; [|done|by rewrite Hk].
    eexists. split; [exact Hk|].
    assert (trimStart text = c :: R) as Hts.
    { rewrite <- Htext, <- HR.
      replace (span is_space F) with (lo + (span is_space F - lo))%nat by lia.
      rewrite <- drop_drop, Htext.
      rewrite trimStart_span. f_equal.
      unfold F. rewrite span_app by done. lia. }
    unfold captured, first_piece. cbv zeta. by rewrite Hts.
Qed.

(** A bullet line matches; the captures are its marker and a text that
    trims to what is captured of its free text. *)
Lemma exec_checkRe_bullet_body line mark text :
  bullet_line line mark text →
  ∃ body, exec checkRe line = Some [[mark]; body] ∧ trim body = captured text.
Proof.
  intros (lead & bullet & gap & -> & Hlead & Hbullet & Hgap & Hmark & Htext).
  destruct (exec_spaces_then_text_body 0 [] text eq_refl eq_refl Htext) as (body & Hbody & Htrim).
  exists body. split; [|done].
  unfold checkRe.
  rewrite (exec_star_then_one is_space (chr "-*") Plain);
    [|by left|done|by apply (span_space_0 (chr "-*")), Hbullet; apply bullet_not_space
     |by intros c Hc; apply chr_not_space].
  simpl app at 1. rewrite exec_one_plain by done.
  rewrite (exec_star_then_one is_space (chr "[") Plain);
    [|by left|done|by apply (span_space_0 (chr "[")); [apply open_not_space|]
     |by intros c Hc; apply chr_not_space].
  change (lit "[" ++ [mark] ++ lit "]" ++ text) with (91%N :: mark :: 93%N :: text).
  rewrite exec_one_plain by done. rewrite exec_one_group by done.
  rewrite exec_one_plain by done.
  simpl app in Hbody. unfold star. by rewrite Hbody.
Qed.

(** [#{lo,3}\s+(.+)] on a heading line, with or without a group around
    the hashes. *)
Lemma exec_heading_body (wrap : atom → item) lo line lvl title :
  wrap = Plain ∨ wrap = Group →
  (lo ≤ lvl ≤ 3)%nat → heading_line line lvl title →
  ∃ body,
    exec [wrap (Rep (chr "#") lo (Some 3%nat)); Plain (plus is_space); Group (plus dot)] line
    = Some (match wrap (One dot) with
            | Plain _ => [body]
            | Group _ => [replicate lvl 35%N; body]
            end) ∧
    trim body = captured title.
Proof.
  intros Hwrap Hlvl (gap & -> & Hne & Hgap & Htitle).
  destruct gap as [|g gap]; [done|]. simpl in Hgap. apply andb_prop in Hgap as [Hg Hgap].
  destruct (exec_spaces_then_text_body 1 [g] (gap ++ title)) as (body & Hbody & Htrim);
    [done|by rewrite forallb_app || (simpl; rewrite Hg)|..].
  { rewrite existsb_app, Htitle. by rewrite orb_true_r. }
  exists body. split.
  2:{ by rewrite Htrim, captured_spaces. }
  unfold plus in *.
  set (F := replicate lvl 35%N ++ (g :: gap) ++ title).
  assert (span (chr "#") F = lvl) as Hspan.
  { unfold F. rewrite span_app by apply forallb_replicate_hash.
    rewrite length_replicate. simpl.
    destruct (chr "#" g) eqn:Hc; [|lia].
    apply hash_not_space in Hc. congruence. }
  assert (drop lvl F = [g] ++ gap ++ title) as Hdrop.
  { unfold F. apply drop_app_length'. by rewrite length_replicate. }
  assert (take lvl F = replicate lvl 35%N) as Htake.
  { unfold F. rewrite take_app_length'; [done|]. by rewrite length_replicate. }
  destruct Hwrap as [-> | ->].
  - change (exec _ F)
      with (backtrack (λ n, exec [Plain (Rep is_space 1 None); Group (Rep dot 1 None)]
                              (drop n F)) lo
              (Nat.min 3 (span (chr "#") F))).
    rewrite Hspan, Nat.min_r by lia.
    rewrite backtrack_greedy; [by rewrite Hdrop|lia|]. by rewrite Hdrop, Hbody.
  - change (exec _ F)
      with (backtrack (λ n, (λ caps, take n F :: caps)
                              <$> exec [Plain (Rep is_space 1 None); Group (Rep dot 1 None)]
                                    (drop n F)) lo
              (Nat.min 3 (span (chr "#") F))).
    rewrite Hspan, Nat.min_r by lia.
    rewrite backtrack_greedy; [|lia|].
    + by rewrite Hdrop, Htake, Hbody.
    + by rewrite Hdrop, Hbody.
Qed.

Local Arguments exec : simpl never.

Lemma not_bullet_None line :
  (∀ mark text, ¬ bullet_line line mark text) → exec checkRe line = None.
Proof.
  intros Hno. destruct (exec checkRe line) as [caps|] eqn:Hexec; [|done].
  destruct (exec_checkRe_inv _ _ Hexec) as (mark & text & body & _ & Hb).
  by destruct (Hno mark text).
Qed.

Lemma None_not_bullet line :
  exec checkRe line = None → ∀ mark text, ¬ bullet_line line mark text.
Proof.
  intros Hnone mark text Hb.
  destruct (exec_checkRe_bullet_body _ _ _ Hb) as (body & Hexec & _). congruence.
Qed.

Lemma not_heading_None (wrap : atom → item) lo line :
  wrap = Plain ∨ wrap = Group →
  (∀ lvl title, (lo ≤ lvl ≤ 3)%nat → ¬ heading_line line lvl title) →
  exec [wrap (Rep (chr "#") lo (Some 3%nat)); Plain (plus is_space); Group (plus dot)] line
  = None.
Proof.
  intros Hwrap Hno.
  destruct (exec _ line) as [caps|] eqn:Hh; [|done].
  apply (exec_heading_inv wrap lo) in Hh as (lvl & title & Hlvl & Hl); [|done].
  by destruct (Hno lvl title Hlvl).
Qed.

Lemma None_not_heading (wrap : atom → item) lo line :
  wrap = Plain ∨ wrap = Group →
  exec [wrap (Rep (chr "#") lo (Some 3%nat)); Plain (plus is_space); Group (plus dot)] line
  = None →
  ∀ lvl title, (lo ≤ lvl ≤ 3)%nat → ¬ heading_line line lvl title.
Proof.
  intros Hwrap Hnone lvl title Hlvl Hl.
  destruct (exec_heading_body wrap lo line lvl title Hwrap Hlvl Hl) as (body & Hexec & _).
  congruence.
Qed.

(** One turn of the loop of [parseChecklists], by the kind of the line. *)
Lemma scan_bullet line mark text rest heading :
  bullet_line line mark text →
  ∃ heading',
    scan (line :: rest) heading
    = mkItem (bool_decide (mark = 120%N ∨ mark = 88%N)) (captured text) heading'
      :: scan rest heading' ∧
    ((∀ lvl title, (1 ≤ lvl ≤ 3)%nat → ¬ heading_line line lvl title) → heading' = heading).
Proof.
  intros Hb.
  destruct (exec_checkRe_bullet_body _ _ _ Hb) as (body & Hexec & Htrim).
  pose proof Hb as (_ & _ & _ & _ & _ & _ & _ & Hmark & _).
  eexists. split.
  - cbn [scan]. rewrite Hexec, (is_x_mark mark Hmark), Htrim. reflexivity.
  - intros Hno. unfold headingRe.
    by rewrite (not_heading_None Plain 1 line (or_introl eq_refl) Hno).
Qed.

Lemma scan_heading_line line lvl title rest heading :
  (1 ≤ lvl ≤ 3)%nat → heading_line line lvl title →
  scan (line :: rest) heading = scan rest (captured title).
Proof.
  intros Hlvl Hl.
  destruct (exec_heading_body Plain 1 line lvl title (or_introl eq_refl) Hlvl Hl)
    as (body & Hexec & Htrim).
  cbn [scan]. unfold headingRe. simpl in Hexec. rewrite Hexec, Htrim.
  rewrite not_bullet_None; [done|].
  intros mark text Hb. eapply heading_not_bullet; [|done..]. lia.
Qed.

Lemma scan_other_line line rest heading :
  (∀ lvl title, (1 ≤ lvl ≤ 3)%nat → ¬ heading_line line lvl title) →
  (∀ mark text, ¬ bullet_line line mark text) →
  scan (line :: rest) heading = scan rest heading.
Proof.
  intros Hnoh Hnob. cbn [scan].
  rewrite (not_bullet_None line Hnob). unfold headingRe.
  by rewrite (not_heading_None Plain 1 line (or_introl eq_refl) Hnoh).
Qed.

Lemma scan_not_bullet line rest heading :
  (∀ mark text, ¬ bullet_line line mark text) →
  ∃ heading', scan (line :: rest) heading = scan rest heading'.
Proof. intros Hnob. eexists. cbn [scan]. by rewrite (not_bullet_None line Hnob). Qed.

(** The lines decide the records. *)
Lemma line_records_scan lines heading :
  line_records lines ((λ i, (done i, name i)) <$> scan lines heading).
Proof.
  revert heading. induction lines as [|line rest IH]; intros heading; [constructor|].
  destruct (exec checkRe line) as [caps|] eqn:Hexec.
  - destruct (exec_checkRe_inv _ _ Hexec) as (mark & text & body & _ & Hb).
    destruct (scan_bullet line mark text rest heading Hb) as (h' & -> & _).
    rewrite fmap_cons. cbn [done name]. by constructor.
  - pose proof (None_not_bullet line Hexec) as Hnob.
    destruct (scan_not_bullet line rest heading Hnob) as (h' & ->).
    by apply line_records_other.
Qed.

Lemma line_records_unique lines rs :
  line_records lines rs → ∀ heading, rs = (λ i, (done i, name i)) <$> scan lines heading.
Proof.
  induction 1 as [|line mark text rest rs Hb _ IH|line rest rs Hnob _ IH]; intros heading.
  - done.
  - destruct (scan_bullet line mark text rest heading Hb) as (h' & -> & _).
    rewrite fmap_cons. cbn [done name]. by rewrite <- IH.
  - destruct (scan_not_bullet line rest heading Hnob) as (h' & ->). apply IH.
Qed.

Lemma line_records_clean lines rs :
  line_records lines rs → clean_bullets lines → records lines rs.
Proof.
  induction 1 as [|line mark text rest rs Hb _ IH|line rest rs Hnob _ IH];
    intros Hclean.
  - constructor.
  - inversion Hclean as [|? ? Hline Hrest]; subst.
    rewrite (captured_clean text) by (by eapply Hline).
    constructor; [done|by apply IH].
  - inversion Hclean; subst. apply records_other; [done|by apply IH].
Qed.

(** The lines decide the items. *)
Lemma line_items_scan lines heading : line_items heading lines (scan lines heading).
Proof.
  revert heading. induction lines as [|line rest IH]; intros heading; [constructor|].
  destruct (exec headingRe line) as [caps|] eqn:Hh.
  - destruct (exec_heading_inv Plain 1 line caps (or_introl eq_refl) Hh)
      as (lvl & title & Hlvl & Hl).
    rewrite (scan_heading_line line lvl title rest heading Hlvl Hl).
    by eapply line_items_heading.
  - pose proof (None_not_heading Plain 1 line (or_introl eq_refl) Hh) as Hnoh.
    destruct (exec checkRe line) as [caps|] eqn:Hexec.
    + destruct (exec_checkRe_inv _ _ Hexec) as (mark & text & body & _ & Hb).
      destruct (scan_bullet line mark text rest heading Hb) as (h' & -> & Hsame).
      rewrite (Hsame Hnoh). by constructor.
    + pose proof (None_not_bullet line Hexec) as Hnob.
      rewrite (scan_other_line line rest heading Hnoh Hnob).
      by apply line_items_other.
Qed.

Lemma line_items_unique heading lines items :
  line_items heading lines items → items = scan lines heading.
Proof.
  induction 1 as [current|current line lvl title rest items Hlvl Hl _ IH
                  |current line mark text rest items Hb _ IH
                  |current line rest items Hnoh Hnob _ IH].
  - done.
  - by rewrite (scan_heading_line line lvl title rest current Hlvl Hl).
  - destruct (scan_bullet line mark text rest current Hb) as (h' & -> & Hsame).
    rewrite Hsame, <- IH; [done|].
    intros lvl title Hlvl Hl. eapply heading_not_bullet; [|done..]. lia.
  - by rewrite (scan_other_line line rest current Hnoh Hnob).
Qed.

(** C3, as the code has it.  On every content the parser gives one
    record per bullet checklist line, in line order, done exactly when
    the marker is [x] or [X], and nothing for the other lines; the lines
    decide the records.  A record is named by what is captured of the
    free text: the free text without its leading white space, up to its
    first line terminator (CR, U+2028, U+2029), without trailing white
    space.  That is the trimmed free text whenever the trimmed free text
    holds no line terminator, so on a content whose bullet lines are of
    that kind, whatever its other lines hold, the records are named by
    the trimmed free texts.  The empty content gives the empty list. *)
Theorem parseChecklists_one_record_per_bullet :
  (∀ content fileName rs,
     line_records (split LF content) rs
     ↔ rs = (λ i, (done i, name i)) <$> parseChecklists content fileName)
  ∧ (∀ text, forallb dot (trim text) = true → captured text = trim text)
  ∧ (∀ content fileName,
     clean_bullets (split LF content) →
     records (split LF content)
             ((λ i, (done i, name i)) <$> parseChecklists content fileName))
  ∧ (∀ fileName, parseChecklists [] fileName = []).
Proof.
  split_and!.
  - intros content fileName rs. split.
    + intros H. by apply line_records_unique.
    + intros ->. apply line_records_scan.
  - apply captured_clean.
  - intros content fileName Hclean.
    apply line_records_clean; [apply line_records_scan|done].
  - reflexivity.
Qed.

Lemma parseChecklists_one_record_per_bullet_witness :
  split LF stray_cr
  = [lit "see notes" ++ [CR] ++ lit "below"; lit "## Phase 1"; lit "- [x] A"; lit "- [ ] B"] ∧
  records (split LF stray_cr) [(true, lit "A"); (false, lit "B")] ∧
  line_records (split LF cr_inside) [(false, lit "a")].
Proof.
  destruct parseChecklists_one_record_per_bullet as (H1 & _ & H3 & _).
  split_and!.
  - reflexivity.
  - apply (H3 stray_cr (lit "NOTES.md")).
    change (split LF stray_cr)
      with [lit "see notes" ++ [CR] ++ lit "below"; lit "## Phase 1"; lit "- [x] A";
            lit "- [ ] B"].
    repeat apply Forall_cons_2; [| | | |constructor]; intros mark text Hb.
    + destruct (exec_checkRe_bullet_body _ _ _ Hb) as (body & Hexec & _). discriminate.
    + destruct (exec_checkRe_bullet_body _ _ _ Hb) as (body & Hexec & _). discriminate.
    + assert (bullet_line (lit "- [x] A") 120%N (lit " A")) as Hb0.
      { exists [], 45%N, [32%N]. split_and!; reflexivity. }
      by destruct (bullet_line_unique _ _ _ _ _ Hb Hb0) as [-> ->].
    + assert (bullet_line (lit "- [ ] B") 32%N (lit " B")) as Hb0.
      { exists [], 45%N, [32%N]. split_and!; reflexivity. }
      by destruct (bullet_line_unique _ _ _ _ _ Hb Hb0) as [-> ->].
  - by apply (H1 cr_inside (lit "TODO.md")).
Defined.

End CaptureFacts.

(* ------------------------------------------------------------------ *)
(** ** The PRD migration script                                        *)
(* ------------------------------------------------------------------ *)
Module MigrateFacts.
Import Js Migrate JsFacts.

Lemma filter_ext_in {A} (P1 P2 : A → Prop)
    `{!∀ x, Decision (P1 x), !∀ x, Decision (P2 x)} (l : list A) :
  (∀ x, x ∈ l → P1 x ↔ P2 x) → filter P1 l = filter P2 l.
Proof.
  induction l as [|a l IH]; intros Hext; [done|].
  assert (filter P1 l = filter P2 l) as E.
  { apply IH. intros x Hx. apply Hext. by right. }
  destruct (decide (P1 a)) as [Ha|Ha].
  - rewrite !filter_cons_True; [by rewrite E| |done]. apply Hext; [left|done].
  - rewrite !filter_cons_False; [done| |done]. intros Ha'. apply Ha, Hext; [left|done].
Qed.

Lemma filter_all {A} (P : A → Prop) `{!∀ x, Decision (P x)} (l : list A) :
  (∀ x, x ∈ l → P x) → filter P l = l.
Proof.
  induction l as [|a l IH]; intros Hall; [done|].
  rewrite filter_cons_True by (apply Hall; left). f_equal.
  apply IH. intros x Hx. apply Hall. by right.
Qed.

(** *** The map *)

Lemma Map_get_None k (m : Merged) : Map_get k m = None ↔ k ∉ m.*1.
Proof.
  induction m as [|[k' v] m IH]; csimpl.
  - split; [intros _; apply not_elem_of_nil | done].
  - case_bool_decide as Hk.
    + subst. split; [discriminate|]. intros Hn. exfalso. apply Hn. left.
    + rewrite IH, not_elem_of_cons. split; [intros ?; split; [congruence|done] | by intros [_ ?]].
Qed.

Lemma Map_modify_keys k f (m : Merged) : (Map_modify k f m).*1 = m.*1.
Proof.
  induction m as [|[k' v] m IH]; csimpl; [done|].
  case_bool_decide; csimpl; [done|]. by rewrite IH.
Qed.

Lemma Map_get_modify k k' f (m : Merged) :
  Map_get k' (Map_modify k f m)
  = if bool_decide (k = k') then f <$> Map_get k' m else Map_get k' m.
Proof.
  induction m as [|[k0 v] m IH]; simpl.
  - by case_bool_decide.
  - destruct (bool_decide (k0 = k)) eqn:H0; simpl.
    + apply bool_decide_eq_true in H0 as ->.
      destruct (bool_decide (k = k')) eqn:H1; simpl; done.
    + apply bool_decide_eq_false in H0.
      destruct (bool_decide (k0 = k')) eqn:H1; simpl; [|done].
      apply bool_decide_eq_true in H1 as ->. by rewrite bool_decide_eq_false_2 by done.
Qed.

Lemma Map_get_snoc k k' v (m : Merged) :
  Map_get k (m ++ [(k', v)])
  = match Map_get k m with
    | Some r => Some r
    | None => if bool_decide (k' = k) then Some v else None
    end.
Proof.
  induction m as [|[k0 v0] m IH]; simpl; [done|].
  destruct (bool_decide (k0 = k)); [done|apply IH].
Qed.

Section Host.
Variable unicodeLower : str → str.

Lemma merge_step_well_keyed m s :
  well_keyed unicodeLower m → well_keyed unicodeLower (merge_step unicodeLower m s).
Proof.
  intros [Hnd Hk]. unfold merge_step.
  destruct (Map_get (key unicodeLower s) m) as [e|] eqn:Hget.
  - split; [by rewrite Map_modify_keys|].
    clear Hnd Hget. induction m as [|[k0 v0] m IH]; simpl; [done|].
    inversion Hk as [|?? Hhd Htl]; subst. case_bool_decide; constructor; auto.
  - split.
    + rewrite fmap_app. csimpl. apply list.NoDup_app. split_and!; [done| |apply NoDup_singleton].
      intros k Hin Hin'. apply list_elem_of_singleton in Hin' as ->.
      by apply Map_get_None in Hget.
    + apply list.Forall_app. split; [done|]. by constructor.
Qed.

Lemma merge_snoc secs s :
  merge unicodeLower (secs ++ [s]) = merge_step unicodeLower (merge unicodeLower secs) s.
Proof. unfold merge. by rewrite foldl_app. Qed.

Lemma merge_well_keyed secs : well_keyed unicodeLower (merge unicodeLower secs).
Proof.
  induction secs as [|s secs IH] using rev_ind.
  - split; constructor.
  - rewrite merge_snoc. by apply merge_step_well_keyed.
Qed.

Lemma Map_get_merge_step k m s :
  Map_get k (merge_step unicodeLower m s)
  = if bool_decide (key unicodeLower s = k)
    then Some (match Map_get k m with Some e => absorb s e | None => s end)
    else Map_get k m.
Proof.
  unfold merge_step. destruct (Map_get (key unicodeLower s) m) as [e|] eqn:Hget.
  - rewrite Map_get_modify. case_bool_decide as Hk; [|done]. rewrite <- Hk, Hget. done.
  - rewrite Map_get_snoc. case_bool_decide as Hk.
    + rewrite <- Hk, Hget. done.
    + by destruct (Map_get k m).
Qed.

Lemma absorbed_snoc group s :
  absorbed (group ++ [s])
  = Some (match absorbed group with Some e => absorb s e | None => s end).
Proof. destruct group as [|first later]; simpl; [done|]. by rewrite foldl_app. Qed.

Lemma Map_get_merge k secs :
  Map_get k (merge unicodeLower secs)
  = absorbed (filter (λ s, key unicodeLower s = k) secs).
Proof.
  induction secs as [|s secs IH] using rev_ind; [done|].
  rewrite merge_snoc, Map_get_merge_step, list.filter_app, IH.
  case_bool_decide as Hk.
  - rewrite filter_cons_True by done. by rewrite filter_nil, absorbed_snoc.
  - rewrite filter_cons_False by done. by rewrite filter_nil, app_nil_r.
Qed.

Lemma filter_values k (m : Merged) :
  well_keyed unicodeLower m →
  filter (λ s, key unicodeLower s = k) m.*2
  = match Map_get k m with Some r => [r] | None => [] end.
Proof.
  intros [Hnd Hk]. induction m as [|[k0 v0] m IH]; csimpl; [done|].
  inversion Hnd as [|?? Hnotin Hnd']; subst. inversion Hk as [|?? Hhd Htl]; subst.
  simpl in Hhd. case_bool_decide as H0.
  - subst k. rewrite filter_cons_True by done. f_equal.
    rewrite IH by done. apply Map_get_None in Hnotin. by rewrite Hnotin.
  - rewrite filter_cons_False by (simpl; congruence). by apply IH.
Qed.

End Host.

(** *** The merged task list *)

Lemma keep_new_texts_NoDup acc t :
  NoDup (text <$> acc) → NoDup (text <$> keep_new acc t).
Proof.
  intros H. unfold keep_new. case_bool_decide as Hin; [done|].
  rewrite fmap_app. csimpl. apply list.NoDup_app. split_and!; [done| |apply NoDup_singleton].
  intros x Hx Hx'. apply list_elem_of_singleton in Hx' as ->. done.
Qed.

Lemma foldl_keep_new_NoDup acc ts :
  NoDup (text <$> acc) → NoDup (text <$> foldl keep_new acc ts).
Proof.
  revert acc. induction ts as [|t ts IH]; intros acc H; simpl; [done|].
  by apply IH, keep_new_texts_NoDup.
Qed.

(** Appending the tasks of a section whose texts are not in the list is
    the scan that keeps unseen texts, provided the section does not
    repeat a text. *)
Lemma append_new_is_scan acc ts :
  NoDup (text <$> ts) →
  foldl keep_new acc ts = acc ++ filter (λ t, text t ∉ text <$> acc) ts.
Proof.
  revert acc. induction ts as [|t ts IH]; intros acc Hts; simpl.
  { by rewrite filter_nil, app_nil_r. }
  rewrite fmap_cons in Hts. apply list.NoDup_cons in Hts as [Hnotin Hts].
  rewrite IH by done. unfold keep_new. case_bool_decide as Hin.
  - rewrite filter_cons_False; [done|]. intros Hn. by apply Hn.
  - rewrite filter_cons_True by done.
    rewrite <- app_assoc. simpl. do 2 f_equal.
    apply filter_ext_in. intros x Hx. rewrite fmap_app, elem_of_app. csimpl.
    rewrite list_elem_of_singleton. split.
    + intros Hn Hacc. apply Hn. by left.
    + intros Hn [Hacc|Heq]; [done|]. apply Hnotin. rewrite <- Heq.
      by apply list_elem_of_fmap_2.
Qed.

Lemma comma_joined_snoc sources x :
  sources ≠ [] → comma_joined (sources ++ [x]) = comma_joined sources ++ lit ", " ++ x.
Proof.
  induction sources as [|a sources IH]; [done|]. intros _.
  destruct sources as [|b sources]; [done|].
  change (comma_joined ((a :: b :: sources) ++ [x]))
    with (a ++ lit ", " ++ comma_joined ((b :: sources) ++ [x])).
  rewrite IH by done.
  change (comma_joined (a :: b :: sources)) with (a ++ lit ", " ++ comma_joined (b :: sources)).
  by rewrite <- !app_assoc.
Qed.

Lemma absorbed_fields first later :
  let r := foldl (λ e s, absorb s e) first later in
  heading r = heading first ∧ level r = level first ∧
  source r = comma_joined (source <$> first :: later) ∧
  tasks r = foldl (λ acc s, acc ++ filter (λ t, text t ∉ text <$> acc) (tasks s))
                  (tasks first) later.
Proof.
  induction later as [|s later IH] using rev_ind; [done|].
  rewrite !foldl_app. cbn [foldl]. cbv zeta in IH |- *.
  destruct IH as (Hh & Hl & Hs & Ht).
  set (r := foldl (λ e s, absorb s e) first later) in *.
  split_and!; [exact Hh|exact Hl| |].
  - change (source (absorb s r)) with (source r ++ lit ", " ++ source s).
    rewrite Hs. change (first :: later ++ [s]) with ((first :: later) ++ [s]).
    rewrite fmap_app. change (source <$> [s]) with [source s].
    by rewrite comma_joined_snoc.
  - change (tasks (absorb s r))
      with (tasks r ++ filter (λ t, text t ∉ text <$> tasks r) (tasks s)).
    by rewrite Ht.
Qed.

Lemma append_new_all acc later :
  Forall (λ s, NoDup (text <$> tasks s)) later →
  foldl (λ acc s, acc ++ filter (λ t, text t ∉ text <$> acc) (tasks s)) acc later
  = foldl keep_new acc (concat (tasks <$> later)).
Proof.
  revert acc. induction later as [|s later IH]; intros acc Hnd; [done|].
  inversion Hnd as [|?? Hs Hlater]; subst. csimpl.
  rewrite foldl_app, (append_new_is_scan acc (tasks s)) by done. by apply IH.
Qed.

Section Host.
Variable unicodeLower : str → str.

(** C4, as the code has it.  For two parsed documents and a slug that
    some section of theirs has, the merge leaves exactly one section of
    that slug.  It carries the heading of the first such section and the
    sources of all of them joined by comma and space; its tasks are those
    of the first section followed, for each later section in turn, by
    the tasks of that section whose exact text the list did not hold
    before that section was taken.  When no section repeats a text within
    itself, this is the union of all their tasks in first-seen order
    without exact-text duplicates. *)
Theorem merge_same_slug (d1 d2 : list Section) (k : str) first later :
  filter (λ s, slugify unicodeLower (heading s) = k) (d1 ++ d2) = first :: later →
  ∃ r,
    filter (λ s, slugify unicodeLower (heading s) = k) (finalSections unicodeLower (d1 ++ d2))
      = [r] ∧
    heading r = heading first ∧
    source r = comma_joined (source <$> first :: later) ∧
    tasks r = foldl (λ acc s, acc ++ filter (λ t, text t ∉ text <$> acc) (tasks s))
                    (tasks first) later ∧
    (Forall (λ s, NoDup (text <$> tasks s)) (first :: later) →
     tasks r = union_first_seen (concat (tasks <$> first :: later))).
Proof.
  intros Hgroup.
  pose proof (Map_get_merge unicodeLower k (d1 ++ d2)) as Hget.
  unfold key in Hget. rewrite Hgroup in Hget. simpl in Hget.
  pose proof (filter_values unicodeLower k _ (merge_well_keyed unicodeLower (d1 ++ d2))) as Hval.
  unfold key in Hval. rewrite Hget in Hval.
  destruct (absorbed_fields first later) as (Hh & _ & Hs & Ht).
  eexists. split; [exact Hval|]. split_and!; [done..|].
  intros Hnd. rewrite Ht. inversion Hnd as [|?? Hfirst Hlater]; subst.
  rewrite append_new_all by done. unfold union_first_seen. csimpl.
  rewrite foldl_app. f_equal.
  rewrite append_new_is_scan by done. simpl.
  symmetry. apply filter_all. intros t _. apply not_elem_of_nil.
Qed.

End Host.

Lemma merge_same_slug_witness :
  ∃ r,
    filter (λ s, slugify id (heading s) = lit "setup") (finalSections id (prd_md ++ roadmap_md))
      = [r] ∧
    heading r = lit "Setup" ∧
    source r = lit "PRD.md, docs/ROADMAP.md" ∧
    show_tasks r = [(true, lit "install"); (false, lit "configure"); (false, lit "deploy")] ∧
    tasks r = union_first_seen (concat (tasks <$> filter (λ s, slugify id (heading s) = lit "setup")
                                                    (prd_md ++ roadmap_md))).
Proof.
  destruct (merge_same_slug id prd_md roadmap_md (lit "setup")
              (mkSection (lit "Setup") 2
                 [mkTask true (lit "install"); mkTask false (lit "configure")] (lit "PRD.md"))
              [mkSection (lit "setup!") 2
                 [mkTask false (lit "install"); mkTask false (lit "deploy")]
                 (lit "docs/ROADMAP.md")] eq_refl)
    as (r & Hr & Hh & Hs & Ht & Hu).
  exists r. split_and!; [done|done|done|by unfold show_tasks; rewrite Ht|].
  apply Hu. apply (bool_decide_unpack _). by vm_compute.
Defined.

(** C4 as stated fails when a section repeats a task: [TODO.md] lists
    [install] twice under Setup and [tasks.md] lists [run] twice under
    SETUP; the one merged section keeps both repetitions, where the union
    without duplicates has two tasks. *)
Lemma merge_keeps_repeats_within_a_section :
  slugify id (lit "Setup") = slugify id (lit "SETUP") ∧
  ∃ r, finalSections id (todo_md ++ tasks_md) = [r] ∧
       show_tasks r = [(false, lit "install"); (false, lit "install");
                       (false, lit "run"); (false, lit "run")] ∧
       union_first_seen (concat (tasks <$> todo_md ++ tasks_md))
         = [mkTask false (lit "install"); mkTask false (lit "run")] ∧
       tasks r ≠ union_first_seen (concat (tasks <$> todo_md ++ tasks_md)).
Proof.
  split; [reflexivity|]. eexists. split_and!; [reflexivity..|]. by vm_compute.
Qed.

End MigrateFacts.

(* ------------------------------------------------------------------ *)
(** ** Headings and sections in the two parsers                        *)
(* ------------------------------------------------------------------ *)
Module SectionFacts.
Import Js Checklist Migrate JsFacts ChecklistFacts CaptureFacts.

(** A line that does not start with [|] is no table row. *)
Lemma table_needs_pipe line : head line ≠ Some 124%N → exec tableRe line = None.
Proof.
  intros Hhead. destruct line as [|c line]; [done|].
  unfold tableRe. cbn [exec match_atom].
  destruct (chr "|" c) eqn:Hc; [exfalso|done].
  unfold chr in Hc. apply bool_decide_eq_true in Hc.
  apply list_elem_of_singleton in Hc as ->. by apply Hhead.
Qed.

Local Arguments exec : simpl never.

Section Host.
Variable unicodeLower : str → str.

Lemma table_step_no_pipe line cur :
  head line ≠ Some 124%N → table_step unicodeLower line cur = cur.
Proof. intros H. unfold table_step. by rewrite (table_needs_pipe line H). Qed.

Lemma table_step_None line : table_step unicodeLower line None = None.
Proof.
  unfold table_step. by destruct (exec tableRe line) as [[|? [|? [|??]]]|].
Qed.

(** One turn of the loop of [parsePRD], by the kind of the line. *)
Lemma walk_heading_line fileName line lvl title rest cur :
  (2 ≤ lvl ≤ 3)%nat → heading_line line lvl title →
  walk unicodeLower fileName (line :: rest) cur
  = flush cur
    ++ walk unicodeLower fileName rest (Some (mkSection (captured title) lvl [] fileName)).
Proof.
  intros Hlvl Hl.
  destruct (exec_heading_body Group 2 line lvl title (or_intror eq_refl) Hlvl Hl)
    as (body & Hexec & Htrim).
  cbn [walk]. unfold headingRe. simpl in Hexec. by rewrite Hexec, Htrim, length_replicate.
Qed.

Lemma walk_bullet_line fileName line mark text rest cur :
  bullet_line line mark text →
  walk unicodeLower fileName (line :: rest) (Some cur)
  = walk unicodeLower fileName rest
      (Some (push (mkTask (bool_decide (mark = 120%N ∨ mark = 88%N)) (captured text)) cur)).
Proof.
  intros Hb.
  destruct (exec_checkRe_bullet_body _ _ _ Hb) as (body & Hexec & Htrim).
  pose proof Hb as (_ & _ & _ & _ & _ & _ & _ & Hmark & _).
  cbn [walk]. unfold headingRe.
  rewrite (not_heading_None Group 2 line (or_intror eq_refl)).
  2:{ intros lvl title Hlvl Hl. eapply heading_not_bullet; [|done..]. lia. }
  unfold Migrate.checkRe. by rewrite Hexec, Htrim, (is_x_mark mark Hmark).
Qed.

Lemma walk_no_heading_None fileName line rest :
  (∀ lvl title, (2 ≤ lvl ≤ 3)%nat → ¬ heading_line line lvl title) →
  walk unicodeLower fileName (line :: rest) None = walk unicodeLower fileName rest None.
Proof.
  intros Hnoh. cbn [walk]. unfold headingRe.
  rewrite (not_heading_None Group 2 line (or_intror eq_refl) Hnoh).
  destruct (exec Migrate.checkRe line) as [[|? [|? [|??]]]|];
    destruct (exec tableRe line) as [[|? [|? [|??]]]|]; reflexivity.
Qed.

Lemma walk_other_line fileName line rest cur :
  (∀ lvl title, (2 ≤ lvl ≤ 3)%nat → ¬ heading_line line lvl title) →
  (∀ mark text, ¬ bullet_line line mark text) →
  walk unicodeLower fileName (line :: rest) cur
  = walk unicodeLower fileName rest (table_step unicodeLower line cur).
Proof.
  intros Hnoh Hnob. cbn [walk]. unfold headingRe.
  rewrite (not_heading_None Group 2 line (or_intror eq_refl) Hnoh).
  unfold Migrate.checkRe. rewrite (not_bullet_None line Hnob).
  unfold table_step.
  destruct (exec tableRe line) as [[|? [|? [|??]]]|]; destruct cur as [cur|]; try reflexivity.
  cbv zeta. by destruct (is_task_cell _ _).
Qed.

(** The lines decide the sections. *)
Lemma line_sections_walk fileName lines cur :
  line_sections unicodeLower fileName cur lines (walk unicodeLower fileName lines cur).
Proof.
  revert cur. induction lines as [|line rest IH]; intros cur; [constructor|].
  destruct (exec headingRe line) as [caps|] eqn:Hh.
  - destruct (exec_heading_inv Group 2 line caps (or_intror eq_refl) Hh)
      as (lvl & title & Hlvl & Hl).
    rewrite (walk_heading_line fileName line lvl title rest cur Hlvl Hl).
    by eapply line_sections_heading.
  - pose proof (None_not_heading Group 2 line (or_intror eq_refl) Hh) as Hnoh.
    destruct (exec Checklist.checkRe line) as [caps|] eqn:Hexec.
    + destruct (exec_checkRe_inv _ _ Hexec) as (mark & text & body & _ & Hb).
      destruct cur as [cur|].
      * rewrite (walk_bullet_line fileName line mark text rest cur Hb).
        by eapply line_sections_bullet.
      * rewrite (walk_no_heading_None fileName line rest Hnoh).
        by eapply line_sections_dropped.
    + pose proof (None_not_bullet line Hexec) as Hnob.
      rewrite (walk_other_line fileName line rest cur Hnoh Hnob).
      by apply line_sections_other.
Qed.

Lemma line_sections_unique fileName cur lines out :
  line_sections unicodeLower fileName cur lines out →
  out = walk unicodeLower fileName lines cur.
Proof.
  induction 1 as [cur|cur line lvl title rest out Hlvl Hl _ IH
                  |cur line mark text rest out Hb _ IH
                  |line mark text rest out Hb _ IH
                  |cur line rest out Hnoh Hnob _ IH].
  - done.
  - by rewrite (walk_heading_line fileName line lvl title rest cur Hlvl Hl), IH.
  - by rewrite (walk_bullet_line fileName line mark text rest cur Hb).
  - rewrite walk_no_heading_None; [done|].
    intros lvl title Hlvl Hl. eapply heading_not_bullet; [|done..]. lia.
  - by rewrite (walk_other_line fileName line rest cur Hnoh Hnob).
Qed.

End Host.

(** C8, as the code has it.  In the checklist parser of the aggregators
    a heading line of level 1 to 3 sets the section that tags the bullet
    lines after it, up to the next heading, and the bullet lines before
    any heading are tagged with the file name without its [.md] and with
    hyphens and underscores turned into spaces.  In the parser of the
    migration script only a heading line of level 2 or 3 opens a section:
    a bullet line goes to the section that the last such heading before
    it opened, and to no other; with no such heading before it, it is
    dropped; a heading of level 1 is a line like any other, which leaves
    the open section as it is unless it is a table row; a section is
    returned when it holds a task.  In both parsers the lines decide the
    result, whatever they hold; section names and task texts are what is
    captured of the title and of the free text, which is the trimmed text
    when that holds no line terminator. *)
Theorem headings_open_sections :
  (∀ content fileName items,
     line_items (default_heading fileName) (split LF content) items
     ↔ items = parseChecklists content fileName)
  ∧ (∀ unicodeLower content fileName out,
     line_sections unicodeLower fileName None (split LF content) out
     ↔ out = parsePRD unicodeLower content fileName)
  ∧ (∀ unicodeLower line cur,
     head line ≠ Some 124%N → table_step unicodeLower line cur = cur)
  ∧ (∀ text, forallb dot (trim text) = true → captured text = trim text).
Proof.
  split_and!.
  - intros content fileName items. split.
    + apply line_items_unique.
    + intros ->. apply line_items_scan.
  - intros u content fileName out. split.
    + apply line_sections_unique.
    + intros ->. apply line_sections_walk.
  - apply table_step_no_pipe.
  - apply captured_clean.
Qed.

Lemma headings_open_sections_witness :
  default_heading (lit "docs/ROAD-MAP_v2.MD") = lit "docs/ROAD MAP v2" ∧
  line_items (lit "ROADMAP") (split LF roadmap)
             [mkItem false (lit "early") (lit "ROADMAP");
              mkItem true (lit "A") (lit "Phase 1"); mkItem false (lit "B") (lit "Phase 1");
              mkItem true (lit "C") (lit "Phase 2")] ∧
  line_sections id (lit "ROADMAP.md") None (split LF roadmap)
                [mkSection (lit "Phase 1") 2
                           [mkTask true (lit "A"); mkTask false (lit "B"); mkTask true (lit "C")]
                           (lit "ROADMAP.md")].
Proof.
  destruct headings_open_sections as (HA & HB & _ & _).
  split_and!.
  - reflexivity.
  - by apply (HA roadmap (lit "ROADMAP.md")).
  - by apply (HB id roadmap (lit "ROADMAP.md")).
Defined.

(** C8 as stated fails for the parser of the migration script: a task
    line outside any heading gets no default label, it is dropped, and
    the level-1 heading opens no section, so the task under it is dropped
    as well.  The parser of the aggregators keeps both. *)
Lemma parsePRD_has_no_default_section :
  bullet_line (lit "- [ ] early") 32%N (lit " early") ∧
  heading_line (lit "# Title") 1 (lit "Title") ∧
  split LF Migrate.untitled = [lit "- [ ] early"; lit "# Title"; lit "- [ ] a"] ∧
  Migrate.parsePRD id Migrate.untitled (lit "PRD.md") = [] ∧
  parseChecklists Migrate.untitled (lit "PRD.md")
    = [mkItem false (lit "early") (lit "PRD"); mkItem false (lit "a") (lit "Title")].
Proof.
  split_and!; try reflexivity.
  - exists [], 45%N, [32%N]. split_and!; reflexivity.
  - exists [32%N]. split_and!; reflexivity || done.
Qed.

End SectionFacts.

(* ------------------------------------------------------------------ *)
(** ** The aggregators                                                 *)
(* ------------------------------------------------------------------ *)
Module ApiFacts.
Import Js LiveApi LiveSamples.

(** *** Ordering *)

(** An idle project compares before an active one, whatever the other
    keys: the rank [0] of [active] is falsy and becomes [2]. *)
Lemma compare_idle_active (a b : Project) :
  status a = lit "idle" → status b = lit "active" → compare a b < 0.
Proof.
  intros Ha Hb. unfold compare. rewrite Ha, Hb.
  change (or_else (statusOrder (lit "idle")) 2 - or_else (statusOrder (lit "active")) 2)
    with (-1).
  rewrite bool_decide_eq_true_2 by lia. lia.
Qed.

(** C5 at three repositories listed as pushed today, a day ago and forty
    days ago, none with checklist files: the handler returns the idle
    one first and, of the two active ones, the one pushed today last. *)
Theorem handler_puts_idle_first :
  ∃ d, handler id quiet (clock_from now0) now0 = Ok200 d ∧
       p_id <$> projects d = [lit "stale"; lit "fresh"; lit "today"] ∧
       status <$> projects d = [lit "idle"; lit "active"; lit "active"] ∧
       prdFiles <$> projects d = [0; 0; 0]%nat ∧
       daysSinceUpdate <$> projects d = [Some 40; Some 1; Some 0] ∧
       priority <$> projects d = [2; 1; 0]%nat.
Proof. eexists. split_and!; reflexivity. Qed.

(** *** Status *)

Lemma buildProjectData_status unicodeLower gh now repo index p :
  buildProjectData unicodeLower gh now repo index = Some p →
  daysSinceUpdate p = days_since now (pushedAt repo) ∧
  status p = deriveStatus (daysSinceUpdate p).
Proof.
  unfold buildProjectData. intros H.
  destruct (mapM _ _) as [prdResults|]; [|done]. simpl in H.
  destruct (match ghFetch gh (get_commits gh (owner repo) (name repo)) with
            | Data cs => Some (Some cs) | Nothing => Some None | Failed => None end)
    as [commits|]; [|done]. simpl in H.
  destruct (from_checklists _ _ _ _) as [ms|]; [|done]. simpl in H.
  injection H as <-. done.
Qed.

(** *** The clock *)

Lemma buildProjectData_same_days unicodeLower gh now1 now2 repo index :
  days_since now1 (pushedAt repo) = days_since now2 (pushedAt repo) →
  buildProjectData unicodeLower gh now1 repo index
  = buildProjectData unicodeLower gh now2 repo index.
Proof. intros H. unfold buildProjectData. by rewrite H. Qed.

Lemma buildProjectData_forget_clock unicodeLower gh now1 now2 repo index :
  forget_clock <$> buildProjectData unicodeLower gh now1 repo index
  = forget_clock <$> buildProjectData unicodeLower gh now2 repo index.
Proof.
  unfold buildProjectData.
  destruct (mapM _ _) as [prdResults|]; [|done]. simpl.
  destruct (match ghFetch gh (get_commits gh (owner repo) (name repo)) with
            | Data cs => Some (Some cs) | Nothing => Some None | Failed => None end)
    as [commits|]; [|done]. simpl.
  destruct (from_checklists _ _ _ _) as [ms|]; [|done]. reflexivity.
Qed.

Lemma batches_same_days unicodeLower gh c1 c2 fuel i repos :
  (∀ n repo, repos !! n = Some repo →
             days_since (c1 n) (pushedAt repo) = days_since (c2 n) (pushedAt repo)) →
  batches unicodeLower gh c1 fuel i repos = batches unicodeLower gh c2 fuel i repos.
Proof.
  intros Hdays. revert i. induction fuel as [|fuel IH]; intros i; simpl; [done|].
  case_bool_decide; [|done]. rewrite IH. f_equal. f_equal.
  apply imap_ext. intros j repo Hj.
  apply buildProjectData_same_days, Hdays.
  apply lookup_take_Some in Hj as [Hj _]. by rewrite lookup_drop in Hj.
Qed.

(** C7, as the code has it.  The clock enters a run only through the
    day count of each repository.  Two runs against the same answers of
    GitHub in which every repository gets the same day count return
    responses that are identical except for [meta.lastUpdated]; and
    whatever the clocks, the record built for a repository is the same
    in both runs in every field but [daysSinceUpdate] and [status]:
    ids, name, colour from the name hash, milestones and tasks depend on
    the answers only. *)
Theorem handler_same_answers unicodeLower gh :
  (∀ c1 c2 s1 s2,
     (∀ repos n repo,
        getAllRepos unicodeLower gh = Some repos → repos !! n = Some repo →
        days_since (c1 n) (pushedAt repo) = days_since (c2 n) (pushedAt repo)) →
     handler unicodeLower gh c1 s1 = restamp s1 (handler unicodeLower gh c2 s2))
  ∧ (∀ now1 now2 repo index,
     forget_clock <$> buildProjectData unicodeLower gh now1 repo index
     = forget_clock <$> buildProjectData unicodeLower gh now2 repo index).
Proof.
  split.
  - intros c1 c2 s1 s2 Hdays. unfold handler.
    destruct (getAllRepos unicodeLower gh) as [repos|] eqn:Hrepos; [|done].
    rewrite (batches_same_days unicodeLower gh c1 c2 _ _ repos); [done|].
    intros n repo. by apply Hdays.
  - intros. apply buildProjectData_forget_clock.
Qed.

Lemma handler_same_answers_witness :
  handler id with_roadmap (clock_from now0) now0
  = restamp now0 (handler id with_roadmap (clock_from (now0 + 3600000)) (now0 + 3600000)).
Proof.
  apply (proj1 (handler_same_answers id with_roadmap)).
  intros repos n repo Hrepos Hn. injection Hrepos as <-.
  destruct n as [|n]; [|done]. injection Hn as <-. reflexivity.
Defined.

(** C7 as stated fails once days pass between the two runs: with the
    same answers of GitHub, a run sixty days later reports other day
    counts and statuses, and another order. *)
Lemma handler_depends_on_the_clock :
  ∃ d1 d2,
    handler id quiet (clock_from now0) now0 = Ok200 d1 ∧
    handler id quiet (clock_from (now0 + 60 * DAY)) (now0 + 60 * DAY) = Ok200 d2 ∧
    (p_id <$> projects d1, status <$> projects d1)
      = ([lit "stale"; lit "fresh"; lit "today"], [lit "idle"; lit "active"; lit "active"]) ∧
    (p_id <$> projects d2, status <$> projects d2)
      = ([lit "today"; lit "fresh"; lit "stale"], [lit "idle"; lit "idle"; lit "paused"]) ∧
    Ok200 d1 ≠ restamp now0 (Ok200 d2).
Proof.
  eexists _, _. split_and!; [reflexivity..|]. intros H. by vm_compute in H.
Qed.

End ApiFacts.

Module StatusFacts.
Import Js LiveSamples.

Lemma configured_buildProjectData_status unicodeLower gh now repoName config p :
  ConfigApi.buildProjectData unicodeLower gh now repoName config = LiveApi.Data p →
  ∃ repoInfo,
    ConfigApi.get_repo gh repoName = LiveApi.Data repoInfo ∧
    ConfigApi.daysSinceUpdate p
    = ConfigApi.days_since now (ConfigApi.ri_pushed_at repoInfo) ∧
    ConfigApi.status p = ConfigApi.deriveStatus config (ConfigApi.daysSinceUpdate p).
Proof.
  unfold ConfigApi.buildProjectData. intros H.
  destruct (ConfigApi.get_repo gh repoName) as [repoInfo| |];
    destruct (ConfigApi.get_commits gh repoName) as [commits| |];
    destruct (ConfigApi.get_issues gh repoName) as [issues| |];
    destruct (ConfigApi.get_pulls gh repoName) as [prs| |]; try done;
    (destruct (mapM _ _) as [prdResults|]; [|done]);
    (destruct (ConfigApi.from_checklists _ _ _ _) as [ms|]; [|done]);
    injection H as <-; by exists repoInfo.
Qed.

(** C6, as the code has it.  The live aggregator has no configuration:
    its status is "paused" when the last push is more than 90 days old,
    "idle" when it is more than 30 days old, "active" otherwise and when
    there is no push date.  The configured aggregator returns the
    configured status ("active" when none is configured) whatever the
    time since the last push, with one exception: a configured "active"
    becomes "paused" when the last push is more than 30 days old.  The
    days are the whole days between the push and the build. *)
Theorem status_from_activity :
  (∀ unicodeLower gh now repo index p,
     LiveApi.buildProjectData unicodeLower gh now repo index = Some p →
     LiveApi.daysSinceUpdate p
     = (λ lastPush, (now - lastPush) `div` LiveApi.DAY) <$> LiveApi.pushedAt repo ∧
     match LiveApi.daysSinceUpdate p with
     | Some d => (d > 90 → LiveApi.status p = lit "paused") ∧
                 (30 < d ≤ 90 → LiveApi.status p = lit "idle") ∧
                 (d ≤ 30 → LiveApi.status p = lit "active")
     | None => LiveApi.status p = lit "active"
     end)
  ∧ (∀ unicodeLower gh now repoName config p,
     ConfigApi.buildProjectData unicodeLower gh now repoName config = LiveApi.Data p →
     ∃ repoInfo,
       ConfigApi.get_repo gh repoName = LiveApi.Data repoInfo ∧
       ConfigApi.daysSinceUpdate p
       = (λ lastPush, (now - lastPush) `div` LiveApi.DAY)
         <$> ConfigApi.ri_pushed_at repoInfo ∧
       match ConfigApi.daysSinceUpdate p with
       | Some d =>
           (d ≤ 30 → ConfigApi.status p = ConfigApi.configured config) ∧
           (d > 30 → ConfigApi.configured config = lit "active" →
            ConfigApi.status p = lit "paused") ∧
           (d > 30 → ConfigApi.configured config ≠ lit "active" →
            ConfigApi.status p = ConfigApi.configured config)
       | None => ConfigApi.status p = ConfigApi.configured config
       end).
Proof.
  split.
  - intros u gh now repo index p H.
    destruct (ApiFacts.buildProjectData_status u gh now repo index p H) as [Hd Hs].
    split; [done|]. rewrite Hs. unfold LiveApi.deriveStatus.
    destruct (LiveApi.daysSinceUpdate p) as [d|]; [|done].
    split_and!; intros Hc; repeat case_bool_decide; try done; lia.
  - intros u gh now repoName config p H.
    destruct (configured_buildProjectData_status u gh now repoName config p H)
      as (repoInfo & Hrepo & Hd & Hs).
    exists repoInfo. split; [done|]. split; [done|].
    rewrite Hs. unfold ConfigApi.deriveStatus. fold (ConfigApi.configured config).
    destruct (ConfigApi.daysSinceUpdate p) as [d|]; [|done].
    split_and!.
    + intros Hle. by rewrite (bool_decide_eq_false_2 (d > 30)) by lia.
    + intros Hgt ->. by rewrite (bool_decide_eq_true_2 (d > 30)) by lia.
    + intros Hgt Hne. rewrite (bool_decide_eq_false_2 (_ = lit "active")) by done.
      by rewrite andb_false_r.
Qed.

Lemma status_from_activity_witness :
  (∃ p, LiveApi.buildProjectData id quiet now0 stale_repo 2 = Some p ∧
        LiveApi.daysSinceUpdate p = Some 40 ∧ LiveApi.status p = lit "idle")
  ∧ (∃ p, ConfigApi.buildProjectData id ConfigSamples.quiet_org now0
            (lit "Genesis-Engine")
            (default ConfigSamples.loomiverse_config
               (snd <$> ConfigApi.PROJECT_CONFIG !! 3%nat))
          = LiveApi.Data p ∧
          ConfigApi.daysSinceUpdate p = Some 0 ∧ ConfigApi.status p = lit "active").
Proof.
  destruct status_from_activity as (H1 & H2).
  split.
  - destruct (LiveApi.buildProjectData id quiet now0 stale_repo 2) as [p|] eqn:Hp;
      [|by vm_compute in Hp].
    destruct (H1 id quiet now0 stale_repo 2%nat p Hp) as [Hd Hs].
    assert (LiveApi.daysSinceUpdate p = Some 40) as Hd40 by (rewrite Hd; reflexivity).
    rewrite Hd40 in Hs. exists p. split_and!; [done|done|]. apply Hs. lia.
  - set (config := default ConfigSamples.loomiverse_config
                      (snd <$> ConfigApi.PROJECT_CONFIG !! 3%nat)).
    destruct (ConfigApi.buildProjectData id ConfigSamples.quiet_org now0
                (lit "Genesis-Engine") config) as [p| |] eqn:Hp;
      [|by vm_compute in Hp..].
    destruct (H2 id ConfigSamples.quiet_org now0 (lit "Genesis-Engine") config p Hp)
      as (repoInfo & Hrepo & Hd & Hs).
    assert (ConfigApi.daysSinceUpdate p = Some 0) as Hd0.
    { rewrite Hd. vm_compute in Hrepo. injection Hrepo as <-. reflexivity. }
    rewrite Hd0 in Hs. destruct Hs as (Hs & _ & _).
    exists p. split_and!; [done|done|]. rewrite Hs by lia. reflexivity.
Defined.

(** C6 as stated fails for the configured aggregator.  Quiply is
    configured "live" and was pushed sixty days before the build, beyond
    the window of 30 days: its status is still "live", where the rule of
    the days would say "idle".  Loomiverse-Online is configured "active"
    and was pushed forty days before: its status is "paused", not the
    "idle" that more than 30 days give. *)
Lemma configured_status_outlasts_the_window :
  ConfigApi.PROJECT_CONFIG !! 1%nat = Some (lit "Quiply", ConfigSamples.quiply_config) ∧
  ConfigApi.PROJECT_CONFIG !! 0%nat
  = Some (lit "Loomiverse-Online", ConfigSamples.loomiverse_config) ∧
  (∃ p, ConfigApi.buildProjectData id ConfigSamples.quiet_org now0 (lit "Quiply")
          ConfigSamples.quiply_config = LiveApi.Data p ∧
        ConfigApi.daysSinceUpdate p = Some 60 ∧
        ConfigApi.status p = lit "live" ∧
        LiveApi.deriveStatus (Some 60) = lit "idle") ∧
  (∃ p, ConfigApi.buildProjectData id ConfigSamples.quiet_org now0
          (lit "Loomiverse-Online") ConfigSamples.loomiverse_config = LiveApi.Data p ∧
        ConfigApi.daysSinceUpdate p = Some 40 ∧
        ConfigApi.status p = lit "paused" ∧
        LiveApi.deriveStatus (Some 40) = lit "idle").
Proof.
  split_and!; [reflexivity|reflexivity| |];
    (eexists; split; [reflexivity|]; split_and!; reflexivity).
Qed.

End StatusFacts.

(* ------------------------------------------------------------------ *)
(** ** The scanner CLI: lookups, flags and progress                    *)
(* ------------------------------------------------------------------ *)
Module LookupFacts.
Import Scanner ScannerFacts.

(** *** Nodes by position and nodes by enumeration *)

Lemma get_milestone_all d p m M :
  get_milestone d p m = Some M → M ∈ all_milestones d.
Proof.
  unfold get_milestone, all_milestones.
  destruct (projects d !! p) as [P|] eqn:HP; simpl; [|done]. intros HM.
  apply list_elem_of_bind. exists P. split; by eapply list_elem_of_lookup_2.
Qed.

Lemma get_task_all d p m t T :
  get_task d p m t = Some T → T ∈ all_tasks d.
Proof.
  unfold get_task, all_tasks.
  destruct (get_milestone d p m) as [M|] eqn:HM; simpl; [|done].
  destruct (m_tasks M) as [ts|] eqn:Hts; simpl; [|done]. intros HT.
  apply list_elem_of_bind. exists M. split; [|by eapply get_milestone_all].
  rewrite Hts. simpl. by eapply list_elem_of_lookup_2.
Qed.

Lemma get_subtask_all d p m t s x :
  get_subtask d p m t s = Some x → x ∈ all_subtasks d.
Proof.
  unfold get_subtask, all_subtasks.
  destruct (get_task d p m t) as [T|] eqn:HT; simpl; [|done].
  destruct (t_subtasks T) as [ss|] eqn:Hss; simpl; [|done]. intros Hx.
  apply list_elem_of_bind. exists T. split; [|by eapply get_task_all].
  rewrite Hss. simpl. by eapply list_elem_of_lookup_2.
Qed.

Lemma findTaskById_found_id d taskId found :
  findTaskById d taskId = Some found → found_id d found = Some taskId.
Proof.
  unfold findTaskById.
  destruct (first_some _ _) as [[p [m r]]|] eqn:Hf; [|done].
  apply first_some_Some in Hf as (P & HP & Hf & _).
  apply first_some_Some in Hf as (M & HM & Hf & _).
  assert (get_milestone d p m = Some M) as HgM.
  { unfold get_milestone. by rewrite HP. }
  unfold find_in_milestone in Hf. case_bool_decide as Hid.
  { injection Hf as <-. intros [= <-]. simpl. rewrite HgM. simpl. by rewrite Hid. }
  destruct (m_tasks M) as [ts|] eqn:Hts; [|done].
  apply fmap_Some in Hf as ([t r'] & Hf & ->).
  apply first_some_Some in Hf as (T & HT & Hf & _).
  assert (get_task d p m t = Some T) as HgT.
  { unfold get_task. rewrite HgM. simpl. by rewrite Hts. }
  unfold find_in_task in Hf. case_bool_decide as Hid2.
  { injection Hf as <-. intros [= <-]. simpl. rewrite HgT. simpl. by rewrite Hid2. }
  destruct (t_subtasks T) as [ss|] eqn:Hss; [|done].
  apply fmap_Some in Hf as ([s x] & Hf & ->).
  apply list_find_Some in Hf as (Hl & Hx & _).
  intros [= <-]. simpl. unfold get_subtask. rewrite HgT. simpl. rewrite Hss. simpl.
  rewrite Hl. simpl. by rewrite Hx.
Qed.

(** X1.  The reference [findTaskById] returns points to a node that is
    there, and the [id] of that node is the one asked for. *)
Theorem findTaskById_sound d taskId found :
  findTaskById d taskId = Some found → found_id d found = Some taskId.
Proof. apply findTaskById_found_id. Qed.

Lemma findTaskById_sound_witness :
  found_id ScannerSamples.loom (FoundSubtask 0 0 0 1) = Some "l-s6".
Proof. apply findTaskById_sound. reflexivity. Defined.

Lemma found_id_elem_of d found taskId :
  found_id d found = Some taskId →
  taskId ∈ (m_id <$> all_milestones d) ++ (t_id <$> all_tasks d) ++ (s_id <$> all_subtasks d).
Proof.
  destruct found as [p m|p m t|p m t s]; simpl; intros (x & Hx & ->)%fmap_Some;
    rewrite !elem_of_app, !list_elem_of_fmap.
  - left. exists x. split; [done|]. by eapply get_milestone_all.
  - right. left. exists x. split; [done|]. by eapply get_task_all.
  - right. right. exists x. split; [done|]. by eapply get_subtask_all.
Qed.

Lemma find_in_task_None_ids taskId T :
  find_in_task taskId T = None →
  t_id T ≠ taskId ∧ Forall (λ x, s_id x ≠ taskId) (default [] (t_subtasks T)).
Proof.
  unfold find_in_task. case_bool_decide as Hid; [done|]. split; [done|].
  destruct (t_subtasks T) as [ss|]; simpl; [|constructor].
  destruct (list_find _ ss) as [r|] eqn:Hf; [done|].
  by apply list_find_None in Hf.
Qed.

Lemma find_in_milestone_None_ids taskId M :
  find_in_milestone taskId M = None →
  m_id M ≠ taskId ∧ Forall (λ T, find_in_task taskId T = None) (default [] (m_tasks M)).
Proof.
  unfold find_in_milestone. case_bool_decide as Hid; [done|]. split; [done|].
  destruct (m_tasks M) as [ts|]; simpl; [|constructor].
  destruct (first_some _ ts) as [r|] eqn:Hf; [done|].
  by apply first_some_None in Hf.
Qed.

(** X2.  [findTaskById] returns [null] exactly when no milestone, task or
    subtask of the document has the id. *)
Theorem findTaskById_None d taskId :
  findTaskById d taskId = None ↔
  taskId ∉ (m_id <$> all_milestones d) ++ (t_id <$> all_tasks d) ++ (s_id <$> all_subtasks d).
Proof.
  split.
  - intros Hnone.
    assert (first_some (find_in_project taskId) (projects d) = None) as Hf.
    { unfold findTaskById in Hnone.
      by destruct (first_some _ _) as [[p [m [[t [s|]]|]]]|]. }
    rewrite first_some_None, Forall_forall in Hf.
    assert (∀ M, M ∈ all_milestones d → find_in_milestone taskId M = None) as HM.
    { intros M (P & HMP & HP)%list_elem_of_bind.
      specialize (Hf P HP). unfold find_in_project in Hf.
      rewrite first_some_None, Forall_forall in Hf. by apply Hf. }
    assert (∀ T, T ∈ all_tasks d → find_in_task taskId T = None) as HT.
    { intros T (M & HTM & HMd)%list_elem_of_bind.
      destruct (find_in_milestone_None_ids _ _ (HM M HMd)) as [_ Hts].
      rewrite Forall_forall in Hts. by apply Hts. }
    rewrite !elem_of_app, !list_elem_of_fmap.
    intros [(M & -> & HMd)|[(T & -> & HTd)|(x & -> & Hxd)]].
    + by destruct (find_in_milestone_None_ids _ _ (HM M HMd)).
    + by destruct (find_in_task_None_ids _ _ (HT T HTd)).
    + apply list_elem_of_bind in Hxd as (T & HxT & HTd).
      destruct (find_in_task_None_ids _ _ (HT T HTd)) as [_ Hss].
      rewrite Forall_forall in Hss. by apply (Hss x).
  - intros Hnot. destruct (findTaskById d taskId) as [found|] eqn:Hfound; [|done].
    destruct Hnot. eapply found_id_elem_of. by apply findTaskById_found_id.
Qed.

End LookupFacts.

Module FocusFacts.
Import Scanner ScannerFacts LookupFacts.

(** *** [clearCurrentFlags], by enumeration and by position *)

Lemma bind_fmap_comm {A A' B B'} (g : A → list B) (g' : A' → list B')
    (f : A → A') (h : B → B') (l : list A) :
  (∀ a, g' (f a) = h <$> g a) → (f <$> l) ≫= g' = h <$> (l ≫= g).
Proof.
  intros E. induction l as [|a l IH]; csimpl; [done|].
  by rewrite E, IH, fmap_app.
Qed.

Lemma all_milestones_clear d :
  all_milestones (clearCurrentFlags d) = clear_milestone <$> all_milestones d.
Proof. unfold all_milestones. simpl. by apply bind_fmap_comm. Qed.

Lemma all_tasks_clear d :
  all_tasks (clearCurrentFlags d) = clear_task <$> all_tasks d.
Proof.
  unfold all_tasks. rewrite all_milestones_clear. apply bind_fmap_comm.
  intros M. by destruct M as [? ? ? ? ? [ts|] ?].
Qed.

Lemma all_subtasks_clear d :
  all_subtasks (clearCurrentFlags d) = clear_subtask <$> all_subtasks d.
Proof.
  unfold all_subtasks. rewrite all_tasks_clear. apply bind_fmap_comm.
  intros T. by destruct T as [? ? ? ? ? [ss|] ?].
Qed.

Lemma get_milestone_clear d p m :
  get_milestone (clearCurrentFlags d) p m = clear_milestone <$> get_milestone d p m.
Proof.
  unfold get_milestone, clearCurrentFlags; simpl. rewrite list_lookup_fmap.
  destruct (projects d !! p) as [P|]; simpl; [|done]. by rewrite list_lookup_fmap.
Qed.

Lemma get_task_clear d p m t :
  get_task (clearCurrentFlags d) p m t = clear_task <$> get_task d p m t.
Proof.
  unfold get_task. rewrite get_milestone_clear.
  destruct (get_milestone d p m) as [M|]; simpl; [|done].
  destruct (m_tasks M) as [ts|]; simpl; [|done]. by rewrite list_lookup_fmap.
Qed.

Lemma get_subtask_clear d p m t s :
  get_subtask (clearCurrentFlags d) p m t s = clear_subtask <$> get_subtask d p m t s.
Proof.
  unfold get_subtask. rewrite get_task_clear.
  destruct (get_task d p m t) as [T|]; simpl; [|done].
  destruct (t_subtasks T) as [ss|]; simpl; [|done]. by rewrite list_lookup_fmap.
Qed.

(** X3.  After [clearCurrentFlags] no milestone, task or subtask has a
    [current] property, and nothing else has changed: [meta] and the
    projects' own properties are as before, and at every position of the
    tree there is a node exactly when there was one, with the properties
    it had, [current] apart, and with as many children (or none, where
    it had no list of them). *)
Theorem clearCurrentFlags_clears d :
  let d' := clearCurrentFlags d in
  (Forall (λ M, m_current M = None) (all_milestones d') ∧
   Forall (λ T, t_current T = None) (all_tasks d') ∧
   Forall (λ x, s_current x = None) (all_subtasks d')) ∧
  meta d' = meta d ∧
  p_set_milestones [] <$> projects d' = p_set_milestones [] <$> projects d ∧
  (∀ i, length ∘ p_milestones <$> projects d' !! i
        = length ∘ p_milestones <$> projects d !! i) ∧
  (∀ i j,
     m_set_tasks None <$> get_milestone d' i j
     = m_set_tasks None ∘ m_set_current None <$> get_milestone d i j ∧
     (λ M, length <$> m_tasks M) <$> get_milestone d' i j
     = (λ M, length <$> m_tasks M) <$> get_milestone d i j) ∧
  (∀ i j k,
     t_set_subtasks None <$> get_task d' i j k
     = t_set_subtasks None ∘ t_set_current None <$> get_task d i j k ∧
     (λ T, length <$> t_subtasks T) <$> get_task d' i j k
     = (λ T, length <$> t_subtasks T) <$> get_task d i j k) ∧
  (∀ i j k l, get_subtask d' i j k l = s_set_current None <$> get_subtask d i j k l).
Proof.
  cbv zeta. split_and!.
  - rewrite all_milestones_clear. by apply Forall_fmap, Forall_true.
  - rewrite all_tasks_clear. by apply Forall_fmap, Forall_true.
  - rewrite all_subtasks_clear. by apply Forall_fmap, Forall_true.
  - done.
  - unfold clearCurrentFlags. cbn [projects set_projects].
    rewrite <- list_fmap_compose. by apply list_fmap_ext.
  - intros i. unfold clearCurrentFlags. cbn [projects set_projects].
    rewrite list_lookup_fmap. destruct (projects d !! i) as [P|]; [|done].
    cbn. by rewrite length_fmap.
  - intros i j. rewrite get_milestone_clear.
    destruct (get_milestone d i j) as [M|]; [|done]. cbn. split; [done|].
    f_equal. destruct (m_tasks M) as [ts|]; [|done]. cbn. by rewrite length_fmap.
  - intros i j k. rewrite get_task_clear.
    destruct (get_task d i j k) as [T|]; [|done]. cbn. split; [done|].
    f_equal. destruct (t_subtasks T) as [ss|]; [|done]. cbn. by rewrite length_fmap.
  - intros i j k l. apply get_subtask_clear.
Qed.

Local Ltac elsewhere :=
  intros ?; destruct_and?;
  first [ congruence | match goal with H : ¬ _ |- _ => apply H; by split_and? end ].

Lemma get_milestone_at_any f p m d i j :
  get_milestone (at_milestone f p m d) i j
  = (if bool_decide (i = p ∧ j = m) then f else id) <$> get_milestone d i j.
Proof.
  unfold get_milestone, at_milestone; simpl.
  destruct (decide (i = p)) as [->|Hp].
  - rewrite list_lookup_alter_eq. destruct (projects d !! p) as [P|]; simpl; [|done].
    destruct (decide (j = m)) as [->|Hm].
    + rewrite list_lookup_alter_eq. by rewrite bool_decide_eq_true_2.
    + rewrite list_lookup_alter_ne by done.
      rewrite bool_decide_eq_false_2 by elsewhere. by rewrite option_fmap_id.
  - rewrite list_lookup_alter_ne by done.
    rewrite bool_decide_eq_false_2 by elsewhere. by rewrite option_fmap_id.
Qed.

Lemma get_task_at_any f p m t d i j k :
  get_task (at_task f p m t d) i j k
  = (if bool_decide (i = p ∧ j = m ∧ k = t) then f else id) <$> get_task d i j k.
Proof.
  unfold at_task, get_task. rewrite get_milestone_at_any.
  destruct (get_milestone d i j) as [M|]; simpl; [|done].
  case_bool_decide as H1; simpl.
  - destruct (m_tasks M) as [ts|]; simpl; [|done].
    destruct (decide (k = t)) as [->|Hk].
    + rewrite list_lookup_alter_eq. by rewrite bool_decide_eq_true_2 by (destruct_and?; split_and?; congruence).
    + rewrite list_lookup_alter_ne by done.
      rewrite bool_decide_eq_false_2 by elsewhere. by rewrite option_fmap_id.
  - rewrite bool_decide_eq_false_2 by elsewhere. by rewrite option_fmap_id.
Qed.

Lemma get_subtask_at_any f p m t s d i j k l :
  get_subtask (at_subtask f p m t s d) i j k l
  = (if bool_decide (i = p ∧ j = m ∧ k = t ∧ l = s) then f else id)
    <$> get_subtask d i j k l.
Proof.
  unfold at_subtask, get_subtask. rewrite get_task_at_any.
  destruct (get_task d i j k) as [T|]; simpl; [|done].
  case_bool_decide as H1; simpl.
  - destruct (t_subtasks T) as [ss|]; simpl; [|done].
    destruct (decide (l = s)) as [->|Hl].
    + rewrite list_lookup_alter_eq. by rewrite bool_decide_eq_true_2 by (destruct_and?; split_and?; congruence).
    + rewrite list_lookup_alter_ne by done.
      rewrite bool_decide_eq_false_2 by elsewhere. by rewrite option_fmap_id.
  - rewrite bool_decide_eq_false_2 by elsewhere. by rewrite option_fmap_id.
Qed.

(** A write to a node leaves the children of every node where they
    were, and a write below a node leaves the node's own flag alone. *)
Lemma get_task_at_milestone f p m d i j k :
  (∀ M, m_tasks (f M) = m_tasks M) →
  get_task (at_milestone f p m d) i j k = get_task d i j k.
Proof.
  intros Hf. unfold get_task. rewrite get_milestone_at_any.
  destruct (get_milestone d i j) as [M|]; simpl; [|done].
  case_bool_decide; simpl; [|done]. by rewrite Hf.
Qed.

Lemma get_subtask_at_milestone f p m d i j k l :
  (∀ M, m_tasks (f M) = m_tasks M) →
  get_subtask (at_milestone f p m d) i j k l = get_subtask d i j k l.
Proof. intros Hf. unfold get_subtask. by rewrite get_task_at_milestone. Qed.

Lemma get_subtask_at_task f p m t d i j k l :
  (∀ T, t_subtasks (f T) = t_subtasks T) →
  get_subtask (at_task f p m t d) i j k l = get_subtask d i j k l.
Proof.
  intros Hf. unfold get_subtask. rewrite get_task_at_any.
  destruct (get_task d i j k) as [T|]; simpl; [|done].
  case_bool_decide; simpl; [|done]. by rewrite Hf.
Qed.

Lemma milestone_flag_at_task f p m t d i j :
  m_current <$> get_milestone (at_task f p m t d) i j = m_current <$> get_milestone d i j.
Proof.
  unfold at_task. rewrite get_milestone_at_any.
  destruct (get_milestone d i j) as [M|]; simpl; [|done]. by case_bool_decide.
Qed.

Lemma task_flag_at_subtask f p m t s d i j k :
  t_current <$> get_task (at_subtask f p m t s d) i j k = t_current <$> get_task d i j k.
Proof.
  unfold at_subtask. rewrite get_task_at_any.
  destruct (get_task d i j k) as [T|]; simpl; [|done]. by case_bool_decide.
Qed.

Lemma cmdSetCurrent_run w d taskId found :
  file w = Some d → findTaskById d taskId = Some found →
  stored_after (cmdSetCurrent taskId) w
  = Some (set_meta (meta_set_lastUpdated (clock w (ticks w)) (meta d))
                   (set_current taskId found d)).
Proof.
  intros Hfile Hfound. unfold stored_after, cmdSetCurrent.
  unfold mbind at 1, cmd_bind at 1. rewrite (loadData_ok w d Hfile), Hfound.
  destruct found; reflexivity.
Qed.

(** Where the flags are after the three writes of Set-current, for an
    id that no later project uses for a task or a subtask. *)
Lemma set_current_flags d taskId found :
  findTaskById d taskId = Some found →
  (∀ i Q, (found_project found < i)%nat → projects d !! i = Some Q →
          Forall (λ M, hasTask taskId M = false) (p_milestones Q)) →
  ∀ d', d' = set_current taskId found d →
    found_id d' found = Some taskId ∧
    is_Some (get_milestone d' (found_project found) (found_milestone found)) ∧
    (∀ i j M, get_milestone d' i j = Some M →
       (is_true (m_current M) = true ↔
        i = found_project found ∧ j = found_milestone found)) ∧
    (∀ i j k T, get_task d' i j k = Some T →
       (is_true (t_current T) = true ↔ found = FoundTask i j k)) ∧
    (∀ i j k l x, get_subtask d' i j k l = Some x →
       (is_true (s_current x) = true ↔ found = FoundSubtask i j k l)).
Proof.
  intros Hfound Hlater d' ->.
  rewrite set_current_when_id_not_reused by done.
  pose proof (findTaskById_found_id _ _ _ Hfound) as Hid.
  assert (∀ c M, m_tasks (m_set_current c M) = m_tasks M) as Hkeep_m by done.
  assert (∀ c T, t_subtasks (t_set_current c T) = t_subtasks T) as Hkeep_t by done.
  destruct found as [p m|p m t|p m t s]; simpl in *.
  - destruct (get_milestone d p m) as [M0|] eqn:HM0; [|done].
    split_and!.
    + rewrite get_milestone_at_any, get_milestone_clear, HM0.
      by rewrite bool_decide_eq_true_2.
    + rewrite get_milestone_at_any, get_milestone_clear, HM0. by eexists.
    + intros i j M. rewrite get_milestone_at_any, get_milestone_clear.
      intros (M1 & (M2 & _ & ->)%fmap_Some & ->)%fmap_Some.
      case_bool_decide; simpl; [done|]. by split.
    + intros i j k T. rewrite get_task_at_milestone, get_task_clear by done.
      intros (T1 & _ & ->)%fmap_Some. by split.
    + intros i j k l x. rewrite get_subtask_at_milestone, get_subtask_clear by done.
      intros (x1 & _ & ->)%fmap_Some. by split.
  - destruct (get_task d p m t) as [T0|] eqn:HT0; [|done].
    assert (is_Some (get_milestone d p m)) as [M0 HM0].
    { unfold get_task in HT0. destruct (get_milestone d p m); [by eexists|done]. }
    split_and!.
    + rewrite get_task_at_milestone, get_task_at_any, get_task_clear, HT0 by done.
      by rewrite bool_decide_eq_true_2.
    + unfold at_task. rewrite !get_milestone_at_any, get_milestone_clear, HM0. by eexists.
    + intros i j M. rewrite get_milestone_at_any.
      intros (M1 & HM1 & ->)%fmap_Some.
      pose proof (milestone_flag_at_task (t_set_current (Some true)) p m t
                    (clearCurrentFlags d) i j) as Hflag.
      rewrite HM1, get_milestone_clear in Hflag.
      destruct (get_milestone d i j) as [M2|]; simplify_eq/=.
      case_bool_decide; simpl; [done|]. rewrite Hflag. by split.
    + intros i j k T. rewrite get_task_at_milestone, get_task_at_any, get_task_clear by done.
      intros (T1 & (T2 & _ & ->)%fmap_Some & ->)%fmap_Some.
      case_bool_decide as Hpos; simpl.
      * destruct Hpos as (-> & -> & ->). by split.
      * split; [done|]. intros [= -> -> ->]. by destruct Hpos.
    + intros i j k l x.
      rewrite get_subtask_at_milestone, get_subtask_at_task, get_subtask_clear by done.
      intros (x1 & _ & ->)%fmap_Some. by split.
  - destruct (get_subtask d p m t s) as [x0|] eqn:Hx0; [|done].
    assert (is_Some (get_milestone d p m)) as [M0 HM0].
    { unfold get_subtask, get_task in Hx0.
      destruct (get_milestone d p m); [by eexists|done]. }
    split_and!.
    + rewrite get_subtask_at_milestone, get_subtask_at_any, get_subtask_clear, Hx0 by done.
      by rewrite bool_decide_eq_true_2.
    + unfold at_subtask, at_task.
      rewrite !get_milestone_at_any, get_milestone_clear, HM0. by eexists.
    + intros i j M. rewrite get_milestone_at_any.
      intros (M1 & HM1 & ->)%fmap_Some.
      pose proof (milestone_flag_at_task
                    (λ T, t_set_subtasks (alter (s_set_current (Some true)) s <$> t_subtasks T) T)
                    p m t (clearCurrentFlags d) i j) as Hflag.
      fold (at_subtask (s_set_current (Some true)) p m t s (clearCurrentFlags d)) in Hflag.
      rewrite HM1, get_milestone_clear in Hflag.
      destruct (get_milestone d i j) as [M2|]; simplify_eq/=.
      case_bool_decide; simpl; [done|]. rewrite Hflag. by split.
    + intros i j k T. rewrite get_task_at_milestone by done. intros HT.
      pose proof (task_flag_at_subtask (s_set_current (Some true)) p m t s
                    (clearCurrentFlags d) i j k) as Hflag.
      rewrite HT, get_task_clear in Hflag.
      destruct (get_task d i j k) as [T2|]; simplify_eq/=. rewrite Hflag. by split.
    + intros i j k l x.
      rewrite get_subtask_at_milestone, get_subtask_at_any, get_subtask_clear by done.
      intros (x1 & (x2 & _ & ->)%fmap_Some & ->)%fmap_Some.
      case_bool_decide as Hpos; simpl.
      * destruct Hpos as (-> & -> & -> & ->). by split.
      * split; [done|]. intros [= -> -> -> ->]. by destruct Hpos.
Qed.

(** X4.  Set-current on an id that no project after the one of the match
    uses for a task or a subtask: the stored document has the flag on the
    matched node and on the milestone it lies in (the milestone itself when
    that is the match), and on no other milestone, task or subtask; the
    task that holds a matched subtask is not flagged. *)
Theorem cmdSetCurrent_focus w d taskId found :
  file w = Some d → findTaskById d taskId = Some found →
  (∀ i Q, (found_project found < i)%nat → projects d !! i = Some Q →
          Forall (λ M, hasTask taskId M = false) (p_milestones Q)) →
  ∃ d', stored_after (cmdSetCurrent taskId) w = Some d' ∧
    found_id d' found = Some taskId ∧
    is_Some (get_milestone d' (found_project found) (found_milestone found)) ∧
    (∀ i j M, get_milestone d' i j = Some M →
       (is_true (m_current M) = true ↔
        i = found_project found ∧ j = found_milestone found)) ∧
    (∀ i j k T, get_task d' i j k = Some T →
       (is_true (t_current T) = true ↔ found = FoundTask i j k)) ∧
    (∀ i j k l x, get_subtask d' i j k l = Some x →
       (is_true (s_current x) = true ↔ found = FoundSubtask i j k l)).
Proof.
  intros Hfile Hfound Hlater. eexists. split; [by apply cmdSetCurrent_run|].
  exact (set_current_flags d taskId found Hfound Hlater _ eq_refl).
Qed.

Lemma cmdSetCurrent_focus_witness :
  ∃ d', stored_after (cmdSetCurrent "l-s6") (ScannerSamples.world (Some ScannerSamples.loom))
        = Some d' ∧
        found_id d' (FoundSubtask 0 0 0 1) = Some "l-s6" ∧
        ∀ i j k l x, get_subtask d' i j k l = Some x →
          (is_true (s_current x) = true ↔ FoundSubtask 0 0 0 1 = FoundSubtask i j k l).
Proof.
  destruct (cmdSetCurrent_focus (ScannerSamples.world (Some ScannerSamples.loom))
              ScannerSamples.loom "l-s6" (FoundSubtask 0 0 0 1) eq_refl eq_refl)
    as (d' & Hrun & Hid & _ & _ & _ & Hsub).
  { intros [|i] Q Hi HQ; [simpl in Hi; lia|done]. }
  by exists d'.
Defined.

End FocusFacts.

Module ProgressFacts.
Import Scanner.

Lemma tally_total b c : total (tally b c) = S (total c).
Proof. done. Qed.

Lemma tally_done b c : (done c ≤ done (tally b c) ≤ S (done c))%nat.
Proof. destruct b; simpl; lia. Qed.

Lemma grows_tally b c : grows 1 c (tally b c).
Proof. unfold grows. destruct b; simpl; lia. Qed.

Lemma grows_trans n1 n2 c1 c2 c3 :
  grows n1 c1 c2 → grows n2 c2 c3 → grows (n1 + n2) c1 c3.
Proof. unfold grows. lia. Qed.

Lemma grows_foldl {A} (step : Counters → A → Counters) (l : list A) c :
  (∀ c a, grows 1 c (step c a)) → grows (length l) c (foldl step c l).
Proof.
  intros Hstep. revert c. induction l as [|a l IH]; intros c; simpl.
  - unfold grows. lia.
  - apply (grows_trans 1 (length l) _ (step c a)); [apply Hstep|apply IH].
Qed.

Lemma grows_weaken n c c' : (1 ≤ n)%nat → grows n c c' → grows 1 c c'.
Proof. unfold grows. lia. Qed.

Lemma grows_count_task c T : grows 1 c (count_task c T).
Proof.
  unfold count_task. destruct (t_subtasks T) as [[|s ss]|]; try apply grows_tally.
  apply (grows_weaken (length (s :: ss))); [simpl; lia|].
  apply grows_foldl. intros c' x. apply grows_tally.
Qed.

Lemma grows_count_milestone c M : grows 1 c (count_milestone c M).
Proof.
  unfold count_milestone. destruct (m_tasks M) as [[|t ts]|]; try apply grows_tally.
  apply (grows_weaken (length (t :: ts))); [simpl; lia|].
  apply grows_foldl. intros c' x. apply grows_count_task.
Qed.

(** X7.  [calculateProgress]: [done] never exceeds [total], and every
    milestone is counted at least once; so a project without milestones
    gets 0, and a project with a milestone gets the rounded percentage of
    two counters with [0 < total] and [done ≤ total]. *)
Theorem progress_counters_bounds round_percent project :
  let c := progress_counters project in
  (done c ≤ total c)%nat ∧
  (length (p_milestones project) ≤ total c)%nat ∧
  (p_milestones project = [] → calculateProgress round_percent project = 0) ∧
  (p_milestones project ≠ [] →
   (0 < total c)%nat ∧
   calculateProgress round_percent project = round_percent (done c) (total c)).
Proof.
  cbv zeta.
  pose proof (grows_foldl count_milestone (p_milestones project) (mkCounters 0 0)
                grows_count_milestone) as (Ht & Hd & _).
  fold (progress_counters project) in Ht, Hd. simpl in Ht, Hd.
  split; [lia|]. split; [lia|]. split.
  - intros Hnil. unfold calculateProgress, progress_counters. by rewrite Hnil.
  - intros Hne.
    assert (0 < total (progress_counters project))%nat as Hpos.
    { destruct (p_milestones project); [done|]. simpl in Ht. lia. }
    split; [done|]. unfold calculateProgress. by rewrite bool_decide_eq_true_2.
Qed.

End ProgressFacts.

Module StableLookupFacts.
Import Scanner ScannerFacts.

(** *** Lookups see ids and positions only *)

Lemma Forall2_fmap_same {A} (R : A → A → Prop) (g : A → A) (l : list A) :
  (∀ x, R x (g x)) → Forall2 R l (g <$> l).
Proof. intros Hg. induction l; csimpl; by constructor. Qed.

Lemma Forall2_alter_same {A} (R : A → A → Prop) (g : A → A) (i : nat) (l : list A) :
  (∀ x, R x x) → (∀ x, R x (g x)) → Forall2 R l (alter g i l).
Proof.
  intros Hrefl Hg. revert i. induction l as [|a l IH]; intros [|i]; csimpl;
    try constructor; try done.
  by apply Forall_Forall2_diag, Forall_true.
Qed.

Lemma first_some_Forall2 {A B} (f : A → option B) (l l' : list A) :
  Forall2 (λ x y, f x = f y) l l' → first_some f l = first_some f l'.
Proof. induction 1 as [|x y l l' Hxy _ IH]; simpl; [done|]. by rewrite Hxy, IH. Qed.

Lemma list_find_index_Forall2 {A} (P : A → Prop) `{∀ x, Decision (P x)} (l l' : list A) :
  Forall2 (λ x y, P x ↔ P y) l l' → fst <$> list_find P l = fst <$> list_find P l'.
Proof.
  induction 1 as [|x y l l' Hxy _ IH]; simpl; [done|].
  rewrite (decide_ext (P x) (P y)) by done. destruct (decide (P y)); [done|].
  rewrite <- !option_fmap_compose.
  change (fst ∘ prod_map S id) with (S ∘ (@fst nat A)).
  by rewrite !option_fmap_compose, IH.
Qed.

Lemma find_in_task_same taskId T T' :
  t_id T = t_id T' →
  Forall2 (λ x y, s_id x = s_id y) (default [] (t_subtasks T)) (default [] (t_subtasks T')) →
  find_in_task taskId T = find_in_task taskId T'.
Proof.
  intros Hid Hss. unfold find_in_task. rewrite Hid. case_bool_decide; [done|].
  assert (fst <$> list_find (λ s, s_id s = taskId) (default [] (t_subtasks T))
          = fst <$> list_find (λ s, s_id s = taskId) (default [] (t_subtasks T'))) as Hfind.
  { apply list_find_index_Forall2. eapply Forall2_impl; [exact Hss|].
    intros x y Hxy. simpl in Hxy. by rewrite Hxy. }
  destruct (t_subtasks T) as [ss|], (t_subtasks T') as [ss'|]; simpl in *.
  - destruct (list_find _ ss), (list_find _ ss'); simplify_eq/=; congruence.
  - by destruct (list_find _ ss).
  - by destruct (list_find _ ss').
  - done.
Qed.

Lemma find_in_milestone_same taskId M M' :
  m_id M = m_id M' →
  Forall2 (λ x y, find_in_task taskId x = find_in_task taskId y)
          (default [] (m_tasks M)) (default [] (m_tasks M')) →
  find_in_milestone taskId M = find_in_milestone taskId M'.
Proof.
  intros Hid Hts. unfold find_in_milestone. rewrite Hid. case_bool_decide; [done|].
  apply first_some_Forall2 in Hts.
  destruct (m_tasks M) as [ts|], (m_tasks M') as [ts'|]; simpl in *.
  - by rewrite Hts.
  - by rewrite Hts.
  - by rewrite <- Hts.
  - done.
Qed.

Lemma findTaskById_same d d' taskId :
  Forall2 (λ P P', Forall2 (λ x y, find_in_milestone taskId x = find_in_milestone taskId y)
                           (p_milestones P) (p_milestones P'))
          (projects d) (projects d') →
  findTaskById d' taskId = findTaskById d taskId.
Proof.
  intros Hps. unfold findTaskById.
  rewrite (first_some_Forall2 (find_in_project taskId) (projects d) (projects d')); [done|].
  eapply Forall2_impl; [exact Hps|]. intros P P' HP. by apply first_some_Forall2.
Qed.

(** A write to one milestone that the lookup cannot tell from the
    milestone as it was. *)
Lemma findTaskById_at_milestone f p m d taskId :
  (∀ M, find_in_milestone taskId (f M) = find_in_milestone taskId M) →
  findTaskById (at_milestone f p m d) taskId = findTaskById d taskId.
Proof.
  intros Hf. apply findTaskById_same. simpl.
  apply (Forall2_alter_same _ _ p (projects d)).
  - intros P. by apply Forall_Forall2_diag, Forall_true.
  - intros P. simpl. by apply Forall2_alter_same.
Qed.

Lemma findTaskById_at_task f p m t d taskId :
  (∀ T, find_in_task taskId (f T) = find_in_task taskId T) →
  findTaskById (at_task f p m t d) taskId = findTaskById d taskId.
Proof.
  intros Hf. apply findTaskById_at_milestone. intros M. symmetry.
  apply find_in_milestone_same; [done|].
  destruct M as [? ? ? ? ? [ts|] ?]; simpl; [|constructor].
  by apply Forall2_alter_same.
Qed.

Lemma findTaskById_at_subtask f p m t s d taskId :
  (∀ x, s_id (f x) = s_id x) →
  findTaskById (at_subtask f p m t s d) taskId = findTaskById d taskId.
Proof.
  intros Hf. apply findTaskById_at_task. intros T. symmetry.
  apply find_in_task_same; [done|].
  destruct T as [? ? ? ? ? [ss|] ?]; simpl; [|constructor].
  by apply Forall2_alter_same.
Qed.

Lemma find_in_task_clear taskId T :
  find_in_task taskId (clear_task T) = find_in_task taskId T.
Proof.
  symmetry. apply find_in_task_same; [done|].
  destruct T as [? ? ? ? ? [ss|] ?]; simpl; [|constructor].
  by apply Forall2_fmap_same.
Qed.

Lemma find_in_milestone_clear taskId M :
  find_in_milestone taskId (clear_milestone M) = find_in_milestone taskId M.
Proof.
  symmetry. apply find_in_milestone_same; [done|].
  destruct M as [? ? ? ? ? [ts|] ?]; simpl; [|constructor].
  apply Forall2_fmap_same. intros T. by rewrite find_in_task_clear.
Qed.

Lemma findTaskById_clear d taskId :
  findTaskById (clearCurrentFlags d) taskId = findTaskById d taskId.
Proof.
  apply findTaskById_same. simpl. apply Forall2_fmap_same. intros P. simpl.
  apply Forall2_fmap_same. intros M. by rewrite find_in_milestone_clear.
Qed.

Lemma mark_parent_in_same id taskId ms :
  Forall2 (λ x y, find_in_milestone taskId x = find_in_milestone taskId y)
          ms (mark_parent_in id ms).
Proof.
  induction ms as [|M ms IH]; simpl; [constructor|].
  destruct (hasTask id M); constructor; try done.
  by apply Forall_Forall2_diag, Forall_true.
Qed.

Lemma findTaskById_mark_parent id d taskId :
  findTaskById (mark_parent_milestone id d) taskId = findTaskById d taskId.
Proof.
  apply findTaskById_same. simpl. apply Forall2_fmap_same. intros P. simpl.
  apply mark_parent_in_same.
Qed.

Lemma findTaskById_set_current id found d taskId :
  findTaskById (set_current id found d) taskId = findTaskById d taskId.
Proof.
  unfold set_current.
  assert (findTaskById (set_item_current found (clearCurrentFlags d)) taskId
          = findTaskById d taskId) as Hitem.
  { rewrite <- (findTaskById_clear d taskId).
    destruct found; simpl;
      [by apply findTaskById_at_milestone
      |by apply findTaskById_at_task
      |by apply findTaskById_at_subtask]. }
  destruct (_ || _); [|done]. by rewrite findTaskById_mark_parent.
Qed.

Lemma findTaskById_mark_item stamp found d taskId :
  findTaskById (mark_item stamp found d) taskId = findTaskById d taskId.
Proof.
  destruct found; simpl;
    [by apply findTaskById_at_milestone
    |by apply findTaskById_at_task
    |by apply findTaskById_at_subtask].
Qed.

Lemma findTaskById_auto_advance id found d taskId :
  findTaskById (fst (auto_advance id found d)) taskId = findTaskById d taskId.
Proof.
  unfold auto_advance. destruct found as [p m|p m t|p m t s]; try done.
  destruct (parent_subtasks _ _); [|done].
  case_bool_decide; [|done]. simpl. by apply findTaskById_at_subtask.
Qed.

Lemma cmdMarkDone_run w d taskId found :
  file w = Some d → findTaskById d taskId = Some found →
  stored_after (cmdMarkDone taskId) w
  = Some (set_meta (meta_set_lastUpdated (clock w (S (ticks w))) (meta d))
            (fst (auto_advance taskId found (mark_item (clock w (ticks w)) found d)))).
Proof.
  intros Hfile Hfound. unfold stored_after, cmdMarkDone.
  unfold mbind at 1, cmd_bind at 1. rewrite (loadData_ok w d Hfile), Hfound.
  unfold mbind, cmd_bind, new_Date_toISOString, console_log, mret, cmd_ret.
  cbv beta iota.
  assert (meta (fst (auto_advance taskId found (mark_item (clock w (ticks w)) found d)))
          = meta d) as Hmeta.
  { unfold auto_advance. destruct found as [p m|p m t|p m t s]; try done.
    destruct (parent_subtasks _ _); [|done]. by case_bool_decide. }
  destruct (auto_advance _ _ _) as [d2 next]. simpl in *. rewrite <- Hmeta.
  destruct next; reflexivity.
Qed.

(** X6.  Neither Mark-done nor Set-current changes what any id resolves
    to: whatever the command was asked, [findTaskById] finds, in the data
    file it leaves, every id where it found it before. *)
Theorem commands_keep_lookups w d taskId :
  file w = Some d →
  ∀ d', (stored_after (cmdMarkDone taskId) w = Some d' ∨
         stored_after (cmdSetCurrent taskId) w = Some d') →
  ∀ id, findTaskById d' id = findTaskById d id.
Proof.
  intros Hfile d' Hrun id.
  destruct (findTaskById d taskId) as [found|] eqn:Hfound.
  - rewrite (cmdMarkDone_run w d taskId found Hfile Hfound) in Hrun.
    rewrite (FocusFacts.cmdSetCurrent_run w d taskId found Hfile Hfound) in Hrun.
    destruct Hrun as [[= <-]|[= <-]].
    + change (findTaskById (set_meta ?x ?d) id) with (findTaskById d id).
      by rewrite findTaskById_auto_advance, findTaskById_mark_item.
    + change (findTaskById (set_meta ?x ?d) id) with (findTaskById d id).
      by rewrite findTaskById_set_current.
  - destruct (cmd_not_found_exits taskId w d Hfile Hfound) as [H1 H2].
    unfold stored_after in Hrun. rewrite H1, H2 in Hrun. simpl in Hrun.
    rewrite Hfile in Hrun. by destruct Hrun as [[= <-]|[= <-]].
Qed.

Lemma commands_keep_lookups_witness :
  ∃ d', stored_after (cmdMarkDone "l-s5") (ScannerSamples.world (Some ScannerSamples.loom))
        = Some d' ∧
        findTaskById d' "l-s7" = Some (FoundSubtask 0 0 0 2).
Proof.
  eexists. split; [reflexivity|].
  rewrite (commands_keep_lookups (ScannerSamples.world (Some ScannerSamples.loom))
             ScannerSamples.loom "l-s5" eq_refl _ (or_introl eq_refl) "l-s7").
  reflexivity.
Defined.

End StableLookupFacts.

Module WorkflowFacts.
Import Scanner ScannerFacts LookupFacts FocusFacts StableLookupFacts.

Lemma cmdSetCurrent_clock w d taskId found :
  file w = Some d → findTaskById d taskId = Some found →
  clock (snd (cmdSetCurrent taskId w)) = clock w ∧
  ticks (snd (cmdSetCurrent taskId w)) = S (ticks w).
Proof.
  intros Hfile Hfound.
  split; unfold cmdSetCurrent; unfold mbind at 1, cmd_bind at 1;
    rewrite (loadData_ok w d Hfile), Hfound; by destruct found.
Qed.

(** X8.  Set-current on a subtask followed by Mark-done on the same
    subtask, for an id that no later project uses: the subtask ends up
    done, with [completedAt] set to the time Mark-done read (the second
    reading of the clock in the two runs), and out of focus; the sibling
    right after it, if there is one, is the only subtask in focus, the
    milestone stays the only milestone in focus, and no task is in
    focus. *)
Theorem set_current_then_mark_done w d taskId p m t s :
  file w = Some d → findTaskById d taskId = Some (FoundSubtask p m t s) →
  (∀ i Q, (p < i)%nat → projects d !! i = Some Q →
          Forall (λ M, hasTask taskId M = false) (p_milestones Q)) →
  ∃ d2, stored_after (cmdMarkDone taskId) (snd (cmdSetCurrent taskId w)) = Some d2 ∧
    (∃ x, get_subtask d2 p m t s = Some x ∧ s_id x = taskId ∧
          s_done x = true ∧ s_completedAt x = Some (clock w (S (ticks w))) ∧
          s_current x = None) ∧
    (∀ i j k l x, get_subtask d2 i j k l = Some x →
       (is_true (s_current x) = true ↔ i = p ∧ j = m ∧ k = t ∧ l = S s)) ∧
    (∀ i j M, get_milestone d2 i j = Some M →
       (is_true (m_current M) = true ↔ i = p ∧ j = m)) ∧
    (∀ i j k T, get_task d2 i j k = Some T → is_true (t_current T) = false).
Proof.
  intros Hfile Hfound Hlater.
  pose proof (cmdSetCurrent_run w d taskId _ Hfile Hfound) as Hrun1.
  unfold stored_after in Hrun1.
  set (w1 := snd (cmdSetCurrent taskId w)) in *.
  set (d1 := set_current taskId (FoundSubtask p m t s) d) in *.
  set (x1 := meta_set_lastUpdated _ _) in Hrun1.
  assert (findTaskById (set_meta x1 d1) taskId = Some (FoundSubtask p m t s)) as Hfound1.
  { change (findTaskById (set_meta x1 d1) taskId) with (findTaskById d1 taskId).
    unfold d1. by rewrite findTaskById_set_current. }
  destruct (set_current_flags d taskId _ Hfound Hlater d1 eq_refl)
    as (Hid & _ & Hms & Hts & Hss). simpl in Hid, Hms.
  eexists. split; [by apply (cmdMarkDone_subtask w1 _ taskId p m t s Hrun1 Hfound1)|].
  set (stamp := clock w1 (ticks w1)). set (x2 := meta_set_lastUpdated _ _).
  change (get_milestone (set_meta x2 ?d)) with (get_milestone d).
  change (get_task (set_meta x2 ?d)) with (get_task d).
  change (get_subtask (set_meta x2 ?d)) with (get_subtask d).
  rewrite !at_subtask_set_meta.
  change (get_milestone (set_meta x1 ?d)) with (get_milestone d).
  change (get_task (set_meta x1 ?d)) with (get_task d).
  change (get_subtask (set_meta x1 ?d)) with (get_subtask d).
  split_and!.
  - rewrite !get_subtask_at_any.
    rewrite bool_decide_eq_false_2 by (intros (_ & _ & _ & ?); lia).
    rewrite bool_decide_eq_true_2 by done.
    destruct (get_subtask d1 p m t s) as [x|]; [|done].
    eexists. split; [done|]. simpl in Hid.
    assert (stamp = clock w (S (ticks w))) as ->.
    { unfold stamp, w1.
      by destruct (cmdSetCurrent_clock w d taskId _ Hfile Hfound) as [-> ->]. }
    by simplify_eq/=.
  - intros i j k l x. rewrite !get_subtask_at_any.
    intros (y1 & (y0 & Hy0 & ->)%fmap_Some & ->)%fmap_Some.
    specialize (Hss i j k l y0 Hy0).
    case_bool_decide as Hnext; simpl.
    + by split.
    + case_bool_decide as Hhere; simpl.
      * split; [done|]. intros ?. by destruct Hnext.
      * rewrite Hss. split; [|by intros ?; destruct Hnext].
        intros [= -> -> -> ->]. by destruct Hhere.
  - intros i j M HM.
    pose proof (milestone_flag_at_task
                  (λ T, t_set_subtasks (alter (s_set_current (Some true)) (S s) <$> t_subtasks T) T)
                  p m t (at_subtask (mark_subtask stamp) p m t s d1) i j) as Hf1.
    fold (at_subtask (s_set_current (Some true)) p m t (S s)
            (at_subtask (mark_subtask stamp) p m t s d1)) in Hf1.
    pose proof (milestone_flag_at_task
                  (λ T, t_set_subtasks (alter (mark_subtask stamp) s <$> t_subtasks T) T)
                  p m t d1 i j) as Hf2.
    fold (at_subtask (mark_subtask stamp) p m t s d1) in Hf2.
    rewrite Hf2, HM in Hf1.
    destruct (get_milestone d1 i j) as [M1|] eqn:HM1; simplify_eq/=.
    rewrite Hf1. by apply Hms.
  - intros i j k T HT.
    pose proof (task_flag_at_subtask (s_set_current (Some true)) p m t (S s)
                  (at_subtask (mark_subtask stamp) p m t s d1) i j k) as Hf1.
    pose proof (task_flag_at_subtask (mark_subtask stamp) p m t s d1 i j k) as Hf2.
    rewrite Hf2, HT in Hf1.
    destruct (get_task d1 i j k) as [T1|] eqn:HT1; simplify_eq/=.
    rewrite Hf1. specialize (Hts i j k T1 HT1).
    destruct (is_true (t_current T1)); [|done].
    discriminate (proj1 Hts eq_refl).
Qed.

Lemma set_current_then_mark_done_witness :
  ∃ d2, stored_after (cmdMarkDone "l-s5")
          (snd (cmdSetCurrent "l-s5" (ScannerSamples.world (Some ScannerSamples.loom))))
        = Some d2 ∧
    ∀ i j k l x, get_subtask d2 i j k l = Some x →
       (is_true (s_current x) = true ↔ i = 0%nat ∧ j = 0%nat ∧ k = 0%nat ∧ l = 1%nat).
Proof.
  destruct (set_current_then_mark_done (ScannerSamples.world (Some ScannerSamples.loom))
              ScannerSamples.loom "l-s5" 0 0 0 0 eq_refl eq_refl)
    as (d2 & Hrun & _ & Hsub & _).
  { intros [|i] Q Hi HQ; [simpl in Hi; lia|done]. }
  by exists d2.
Defined.

End WorkflowFacts.

Module CascadeFacts.
Import Scanner ScannerFacts FocusFacts StableLookupFacts.

Lemma get_milestone_at_task f p m t d i j :
  m_set_tasks None <$> get_milestone (at_task f p m t d) i j
  = m_set_tasks None <$> get_milestone d i j.
Proof.
  unfold at_task. rewrite get_milestone_at_any.
  destruct (get_milestone d i j) as [M|]; simpl; [|done]. by case_bool_decide.
Qed.

(** X28.  Marking a task or a milestone done changes that one node and
    nothing else: its [done], [completedAt] and [current] are assigned,
    every other milestone, task and subtask is stored as it was read.
    Nothing cascades: the subtasks of a task marked done stay as they
    were, the milestone above it is not completed, and no sibling is put
    in focus (the advance happens for subtasks only). *)
Theorem cmdMarkDone_does_not_cascade w d taskId found :
  file w = Some d → findTaskById d taskId = Some found →
  ∃ d', stored_after (cmdMarkDone taskId) w = Some d' ∧
    match found with
    | FoundMilestone p m =>
        (∀ i j, get_milestone d' i j
                = (if bool_decide (i = p ∧ j = m) then mark_milestone (clock w (ticks w)) else id)
                  <$> get_milestone d i j) ∧
        (∀ i j k, get_task d' i j k = get_task d i j k) ∧
        (∀ i j k l, get_subtask d' i j k l = get_subtask d i j k l)
    | FoundTask p m t =>
        (∀ i j, m_set_tasks None <$> get_milestone d' i j
                = m_set_tasks None <$> get_milestone d i j) ∧
        (∀ i j k, get_task d' i j k
                  = (if bool_decide (i = p ∧ j = m ∧ k = t) then mark_task (clock w (ticks w)) else id)
                    <$> get_task d i j k) ∧
        (∀ i j k l, get_subtask d' i j k l = get_subtask d i j k l)
    | FoundSubtask _ _ _ _ => True
    end.
Proof.
  intros Hfile Hfound. eexists. split; [by apply cmdMarkDone_run|].
  destruct found as [p m|p m t|p m t s]; [| |done].
  - change (auto_advance taskId (FoundMilestone p m) ?x) with (x, @None string).
    cbn [fst mark_item]. split_and!.
    + intros i j. apply get_milestone_at_any.
    + intros i j k. by apply get_task_at_milestone.
    + intros i j k l. by apply get_subtask_at_milestone.
  - change (auto_advance taskId (FoundTask p m t) ?x) with (x, @None string).
    cbn [fst mark_item]. split_and!.
    + intros i j. apply get_milestone_at_task.
    + intros i j k. apply get_task_at_any.
    + intros i j k l. by apply get_subtask_at_task.
Qed.

Lemma cmdMarkDone_does_not_cascade_witness :
  ∃ d', stored_after (cmdMarkDone "l-t9") (ScannerSamples.world (Some ScannerSamples.loom))
        = Some d' ∧
    (∀ i j, m_set_tasks None <$> get_milestone d' i j
            = m_set_tasks None <$> get_milestone ScannerSamples.loom i j) ∧
    (∀ i j k l, get_subtask d' i j k l = get_subtask ScannerSamples.loom i j k l).
Proof.
  destruct (cmdMarkDone_does_not_cascade (ScannerSamples.world (Some ScannerSamples.loom))
              ScannerSamples.loom "l-t9" (FoundTask 0 0 0) eq_refl eq_refl)
    as (d' & Hrun & Hm & _ & Hs).
  by exists d'.
Defined.

End CascadeFacts.

(* ------------------------------------------------------------------ *)
(** ** The auto-discovering aggregator: palette, discovery, milestones,
       order and failure                                               *)
(* ------------------------------------------------------------------ *)
Module PaletteFacts.
Import Js LiveApi.

(** X9.  [getColor] always answers with an entry of [COLORS]: the index
    [Math.abs(hash) % COLORS.length] is within the palette for every
    name, the empty one and those whose hash is negative included. *)
Theorem getColor_in_palette (name : str) : getColor name ∈ COLORS.
Proof.
  unfold getColor.
  set (hash := foldl hash_step 0 name).
  assert (length COLORS = 20%nat) as Hlen by done. rewrite Hlen.
  assert (0 ≤ Z.abs hash `mod` 20 < 20) as Hidx by (apply Z.mod_pos_bound; lia).
  destruct (COLORS !! Z.to_nat (Z.abs hash `mod` Z.of_nat 20)) as [c|] eqn:Hc.
  - simpl. by eapply list_elem_of_lookup_2.
  - apply lookup_ge_None_1 in Hc. change (length COLORS) with 20%nat in Hc. lia.
Qed.

(** *** displayName *)

Lemma collapse_avoids p rep b (s : str) :
  p rep = false → Forall (λ c, p c = false) (collapse p rep b s).
Proof.
  intros Hrep. revert b. induction s as [|c s IH]; intros b; simpl; [constructor|].
  destruct (p c) eqn:Hc.
  - destruct b; [apply IH|]. constructor; [done|apply IH].
  - constructor; [done|apply IH].
Qed.

Lemma collapse_nothing p rep (s : str) :
  Forall (λ c, p c = false) s → collapse p rep false s = s.
Proof. induction 1 as [|c s Hc _ IH]; simpl; [done|]. by rewrite Hc, IH. Qed.

Local Ltac by_ranges :=
  repeat match goal with
         | |- context [(?a <=? ?b)%N] => destruct (N.leb_spec a b)
         | |- context [(?a =? ?b)%N] => destruct (N.eqb_spec a b)
         end;
  simpl in *; try done; try lia.

Lemma is_word_upper c : is_word (upper_latin_unit c) = is_word c.
Proof. unfold is_word, upper_latin_unit. by_ranges. Qed.

Lemma upper_upper c : upper_latin_unit (upper_latin_unit c) = upper_latin_unit c.
Proof.
  unfold upper_latin_unit.
  destruct (N.leb_spec 97 c), (N.leb_spec c 122); simpl; by_ranges.
Qed.

Lemma upper_keeps_separators_out c :
  (c =? 45)%N || (c =? 95)%N = false →
  (upper_latin_unit c =? 45)%N || (upper_latin_unit c =? 95)%N = false.
Proof.
  unfold upper_latin_unit. intros [H1%N.eqb_neq H2%N.eqb_neq]%orb_false_elim.
  destruct (N.leb_spec 97 c), (N.leb_spec c 122); simpl; by_ranges.
Qed.

Lemma capitalize_idem b (s : str) : capitalize b (capitalize b s) = capitalize b s.
Proof.
  revert b. induction s as [|c s IH]; intros b; simpl; [done|].
  destruct (is_word c) eqn:Hw, b; simpl; rewrite ?is_word_upper, ?Hw; simpl;
    rewrite ?upper_upper, IH; done.
Qed.

Lemma capitalize_avoids b (s : str) :
  Forall (λ c, (c =? 45)%N || (c =? 95)%N = false) s →
  Forall (λ c, (c =? 45)%N || (c =? 95)%N = false) (capitalize b s).
Proof.
  intros Hs. revert b. induction Hs as [|c s Hc _ IH]; intros b; simpl; constructor.
  - destruct (is_word c && negb b); [by apply upper_keeps_separators_out|done].
  - apply IH.
Qed.

(** X10.  [displayName] leaves no hyphen and no underscore in the name,
    and applying it to a name it produced changes nothing. *)
Theorem displayName_idempotent (repoName : str) :
  Forall (λ c, c ≠ 45%N ∧ c ≠ 95%N) (displayName repoName) ∧
  displayName (displayName repoName) = displayName repoName.
Proof.
  assert (Forall (λ c, (c =? 45)%N || (c =? 95)%N = false) (displayName repoName)) as Hno.
  { unfold displayName. apply capitalize_avoids. by apply collapse_avoids. }
  split.
  - eapply Forall_impl; [exact Hno|]. intros c [H1 H2]%orb_false_elim.
    by apply N.eqb_neq in H1, H2.
  - unfold displayName at 1. rewrite collapse_nothing by done.
    unfold displayName. apply capitalize_idem.
Qed.

End PaletteFacts.

Module DiscoveryFacts.
Import Js LiveApi.

Section Host.
Variable unicodeLower : str → str.

Lemma collect_kept gh sources repos :
  collect gh sources = Some repos →
  Forall (λ r, (name r ∉ SKIP_REPOS) ∧ owner r ∈ (src_name <$> sources)) repos.
Proof.
  revert repos. induction sources as [|source rest IH]; intros repos; simpl.
  - intros [= <-]. constructor.
  - assert (∀ rs, collect gh rest = Some rs →
              Forall (λ r, (name r ∉ SKIP_REPOS) ∧ owner r ∈ (src_name <$> source :: rest)) rs)
      as IH'.
    { intros rs Hrs. eapply Forall_impl; [by apply IH|].
      intros r [??]. split; [done|]. by apply list_elem_of_further. }
    destruct (ghFetch gh (list_repos gh source)) as [listed| |]; [| by apply IH' |done].
    intros (rs & Hrs & ->)%fmap_Some. apply list.Forall_app. split; [|by apply IH'].
    apply Forall_fmap, Forall_forall. intros repo [[_ Hskip] _]%list_elem_of_filter.
    simpl. split; [done|]. apply list_elem_of_here.
Qed.

Lemma collect_without_token gh sources :
  has_token gh = false → collect gh sources = Some [].
Proof.
  intros Hno. induction sources as [|source rest IH]; simpl; [done|].
  unfold ghFetch. by rewrite Hno.
Qed.

Lemma dedupe_sublist seen repos : sublist (dedupe unicodeLower seen repos) repos.
Proof.
  revert seen. induction repos as [|r rest IH]; intros seen; simpl; [constructor|].
  case_bool_decide; [apply sublist_cons|apply sublist_skip]; apply IH.
Qed.

Lemma dedupe_fresh seen repos r :
  r ∈ dedupe unicodeLower seen repos → lowered unicodeLower r ∉ seen.
Proof.
  revert seen. induction repos as [|r0 rest IH]; intros seen; simpl; [by intros ?%elem_of_nil|].
  case_bool_decide as Hseen; [apply IH|].
  intros [->|Hin]%elem_of_cons; [done|].
  apply IH in Hin. intros ?. apply Hin. by apply list_elem_of_further.
Qed.

Lemma dedupe_NoDup seen repos : NoDup (lowered unicodeLower <$> dedupe unicodeLower seen repos).
Proof.
  revert seen. induction repos as [|r0 rest IH]; intros seen; simpl; [constructor|].
  case_bool_decide as Hseen; [apply IH|]. csimpl. apply list.NoDup_cons. split; [|apply IH].
  intros (r & Heq & Hin)%list_elem_of_fmap. apply dedupe_fresh in Hin.
  apply Hin. rewrite <- Heq. apply list_elem_of_here.
Qed.

Lemma dedupe_covers seen repos r :
  r ∈ repos →
  lowered unicodeLower r ∈ seen ∨ lowered unicodeLower r ∈ lowered unicodeLower <$> dedupe unicodeLower seen repos.
Proof.
  revert seen. induction repos as [|r0 rest IH]; intros seen; simpl; [by intros ?%elem_of_nil|].
  intros [->|Hin]%elem_of_cons.
  - case_bool_decide as Hseen; [by left|]. right. csimpl. apply list_elem_of_here.
  - case_bool_decide as Hseen; [by apply IH|].
    destruct (IH (lowered unicodeLower r0 :: seen) Hin) as [[Heq|Hs]%elem_of_cons|Hd].
    + right. csimpl. rewrite Heq. apply list_elem_of_here.
    + by left.
    + right. csimpl. by apply list_elem_of_further.
Qed.

(** The first holder of a name stays. *)
Lemma dedupe_first seen repos i r :
  repos !! i = Some r → lowered unicodeLower r ∉ seen →
  (∀ j r', (j < i)%nat → repos !! j = Some r' →
           lowered unicodeLower r' ≠ lowered unicodeLower r) →
  r ∈ dedupe unicodeLower seen repos.
Proof.
  revert seen i. induction repos as [|r0 rest IH]; intros seen i Hi Hseen Hfirst; [done|].
  cbn [dedupe]. destruct i as [|i].
  - injection Hi as ->. fold (lowered unicodeLower r).
    rewrite bool_decide_eq_false_2 by done. apply list_elem_of_here.
  - cbn in Hi. fold (lowered unicodeLower r0).
    assert (∀ j r', (j < i)%nat → rest !! j = Some r' →
              lowered unicodeLower r' ≠ lowered unicodeLower r) as Hfirst'.
    { intros j r' Hj Hr'. apply (Hfirst (S j)); [lia|done]. }
    case_bool_decide as Hs0; [by apply (IH seen i)|].
    apply list_elem_of_further. apply (IH _ i); [done| |done].
    intros [Heq|Hin]%elem_of_cons; [|done].
    apply (Hfirst 0%nat r0); [lia|done|done].
Qed.

(** X11.  What [getAllRepos] returns: no two repositories with the same
    lower-cased name; each one comes from a listing of one of the two
    sources and is not on the skip list; the result is the listings in
    order with entries left out, every listed name that passed the filter
    is still represented, and the first holder of a name is the one that
    stays. *)
Theorem getAllRepos_distinct gh repos :
  getAllRepos unicodeLower gh = Some repos →
  NoDup (lowered unicodeLower <$> repos) ∧
  Forall (λ r, (name r ∉ SKIP_REPOS) ∧ owner r ∈ (src_name <$> GITHUB_SOURCES)) repos ∧
  ∃ listed, collect gh GITHUB_SOURCES = Some listed ∧ sublist repos listed ∧
    (∀ r, r ∈ listed → lowered unicodeLower r ∈ lowered unicodeLower <$> repos) ∧
    (∀ i r, listed !! i = Some r →
       (∀ j r', (j < i)%nat → listed !! j = Some r' →
                lowered unicodeLower r' ≠ lowered unicodeLower r) →
       r ∈ repos).
Proof.
  unfold getAllRepos. intros (listed & Hlisted & ->)%fmap_Some.
  split; [apply dedupe_NoDup|]. split.
  - pose proof (collect_kept gh _ _ Hlisted) as Hkept.
    rewrite Forall_forall in Hkept |- *. intros r Hr. apply Hkept.
    eapply elem_of_sublist; [done|apply dedupe_sublist].
  - exists listed. split; [done|]. split; [apply dedupe_sublist|]. split.
    + intros r Hr. by destruct (dedupe_covers [] listed r Hr) as [?%elem_of_nil|?].
    + intros i r Hi Hfirst. apply (dedupe_first [] listed i r Hi); [|done].
      apply not_elem_of_nil.
Qed.

End Host.

Lemma getAllRepos_distinct_witness :
  ∃ repos, getAllRepos id LiveSamples.quiet = Some repos ∧
           NoDup ((λ r, toLowerCase id (name r)) <$> repos) ∧ length repos = 3%nat.
Proof.
  eexists. split; [reflexivity|]. split; [|reflexivity].
  apply (getAllRepos_distinct id LiveSamples.quiet). reflexivity.
Defined.

End DiscoveryFacts.

Module MilestoneFacts.
Import Js LiveApi.

(** *** Lists *)

Lemma take_imap {A B} (f : nat → A → B) (l : list A) k :
  take k (imap f l) = imap f (take k l).
Proof.
  revert f k. induction l as [|x l IH]; intros f [|k]; simpl; try done.
  by rewrite IH.
Qed.

Lemma forallb_imap {A B} (p : B → bool) (q : A → bool) (f : nat → A → B) (l : list A) :
  (∀ i x, p (f i x) = q x) → forallb p (imap f l) = forallb q l.
Proof.
  revert f. induction l as [|x l IH]; intros f Hf; simpl; [done|].
  rewrite Hf. f_equal. apply IH. intros i y. apply Hf.
Qed.

Lemma all_done_spec {A} (done : A → bool) (l : list A) :
  bool_decide (length (filter (λ t, done t = true) l) = length l) = forallb done l.
Proof.
  induction l as [|x l IH]; simpl; [done|].
  destruct (done x) eqn:Hx; simpl.
  - rewrite filter_cons_True by done. simpl. rewrite <- IH.
    apply bool_decide_ext. lia.
  - rewrite filter_cons_False by (by rewrite Hx).
    apply bool_decide_eq_false_2.
    pose proof (length_filter (λ t, done t = true) l). lia.
Qed.

Section Host.
Variable unicodeLower : str → str.

(** *** The tasks of a section *)

Lemma build_tasks_done repoName n sectionTasks :
  forallb t_done (build_tasks unicodeLower repoName n sectionTasks)
  = forallb Checklist.done sectionTasks.
Proof. unfold build_tasks. by apply forallb_imap. Qed.

Lemma build_tasks_current repoName n sectionTasks k t :
  build_tasks unicodeLower repoName n sectionTasks !! k = Some t →
  t_current t
  = Some (negb (t_done t)
          && forallb t_done (take k (build_tasks unicodeLower repoName n sectionTasks))).
Proof.
  unfold build_tasks. rewrite list_lookup_imap.
  intros (x & Hx & ->)%fmap_Some. simpl.
  rewrite take_imap. by rewrite (forallb_imap _ Checklist.done).
Qed.

(** *** One section, one milestone *)

Lemma push_milestone_focus repoName file ms entry :
  first_undone_is_current ms →
  first_undone_is_current (push_milestone unicodeLower repoName file ms entry).
Proof.
  intros Hms i m. destruct entry as [sectionName sectionTasks]. simpl.
  rewrite all_done_spec.
  intros [Hm|[Hi Hm]]%lookup_app_Some.
  - rewrite take_app_le by (apply lookup_lt_Some in Hm; lia). by apply Hms.
  - apply list_lookup_singleton_Some in Hm as [Hi0 <-]. simpl.
    replace i with (length ms) by lia. by rewrite take_app_length.
Qed.

Lemma push_milestone_shape repoName file ms entry :
  entry.2 ≠ [] → Forall checklist_milestone ms →
  Forall checklist_milestone (push_milestone unicodeLower repoName file ms entry).
Proof.
  intros Hne Hms. destruct entry as [sectionName sectionTasks]. simpl in *.
  apply list.Forall_app. split; [done|]. constructor; [|constructor].
  unfold checklist_milestone. simpl. split_and!.
  - by eexists.
  - unfold build_tasks. intros Hnil. apply (f_equal length) in Hnil.
    rewrite length_imap in Hnil. by destruct sectionTasks.
  - by rewrite all_done_spec, build_tasks_done.
  - apply build_tasks_current.
Qed.

(** *** The sections object holds no empty list, and [Object.entries]
    only reorders *)

Lemma add_to_nonempty section task sections sections' :
  add_to section task sections = Some sections' →
  Forall (λ e, e.2 ≠ []) sections → Forall (λ e, e.2 ≠ []) sections'.
Proof.
  revert sections'. induction sections as [|[k ts] rest IH]; intros sections'; simpl.
  - case_bool_decide; [done|]. intros [= <-] _. by repeat constructor.
  - case_bool_decide.
    + intros [= <-] Hall. inversion Hall; subst. constructor; [|done].
      simpl. by destruct ts.
    + intros (rest' & Hrest & ->)%fmap_Some Hall. inversion Hall; subst.
      constructor; [done|]. by apply IH.
Qed.

Lemma group_nonempty file tasks sections sections' :
  group file tasks sections = Some sections' →
  Forall (λ e, e.2 ≠ []) sections → Forall (λ e, e.2 ≠ []) sections'.
Proof.
  revert sections. induction tasks as [|task rest IH]; intros sections; simpl.
  - by intros [= <-].
  - destruct (add_to _ task sections) as [s1|] eqn:Hadd; simpl; [|done].
    intros Hg Hall. eapply IH; [done|]. by eapply add_to_nonempty.
Qed.

Lemma insert_by_value_Permutation e sorted : insert_by_value e sorted ≡ₚ e :: sorted.
Proof.
  induction sorted as [|e' rest IH]; simpl; [done|].
  destruct (_ <? _)%N; [done|]. rewrite IH. apply Permutation_swap.
Qed.

Lemma Object_entries_Permutation sections : Object_entries sections ≡ₚ sections.
Proof.
  unfold Object_entries.
  assert (∀ l : Sections, foldr insert_by_value [] l ≡ₚ l) as Hsort.
  { induction l as [|e l IH]; simpl; [done|].
    by rewrite insert_by_value_Permutation, IH. }
  rewrite Hsort.
  rewrite <- (filter_app_complement (λ e, is_array_index e.1 = true) sections) at 3.
  f_equiv; [done|].
  rewrite (list_filter_iff (λ e, is_array_index e.1 = false)
                           (λ e, ¬ is_array_index e.1 = true) sections); [done|].
  intros e. by destruct (is_array_index e.1).
Qed.

(** *** The loop over the files *)

Lemma first_undone_nil : first_undone_is_current [].
Proof. intros i m Hm. by rewrite lookup_nil in Hm. Qed.

Lemma from_checklists_milestones repoName prdResults ms ms' :
  from_checklists unicodeLower repoName prdResults ms = Some ms' →
  first_undone_is_current ms ∧ Forall checklist_milestone ms →
  first_undone_is_current ms' ∧ Forall checklist_milestone ms'.
Proof.
  revert ms. induction prdResults as [|[file tasks] rest IH]; intros ms; simpl.
  - by intros [= <-].
  - case_bool_decide; [apply IH|].
    destruct (group file tasks []) as [sections|] eqn:Hg; simpl; [|done].
    intros Hrest Hinv. eapply IH; [done|].
    assert (Forall (λ e, e.2 ≠ []) (Object_entries sections)) as Hne.
    { rewrite Object_entries_Permutation. eapply group_nonempty; [done|constructor]. }
    clear Hrest. revert Hne. generalize (Object_entries sections). intros entries.
    revert ms Hinv.
    induction entries as [|e entries IHe]; intros ms Hinv Hne; simpl; [done|].
    inversion Hne; subst. apply IHe; [|done].
    destruct Hinv. split; [by apply push_milestone_focus | by apply push_milestone_shape].
Qed.

(** With the first undone milestone already in focus, the block that
    marks the first undone milestone has nothing to do. *)
Lemma ensure_current_id ms : first_undone_is_current ms → ensure_current ms = ms.
Proof.
  intros Hms. unfold ensure_current. destruct (existsb m_current ms) eqn:Hex; [done|].
  assert (∀ n, forallb m_done (take n ms) = true) as Hdone.
  { induction n as [|n IH]; [by rewrite take_0|].
    destruct (ms !! n) as [m|] eqn:Hm.
    - rewrite (take_S_r _ _ _ Hm), forallb_app, IH. simpl.
      specialize (Hms n m Hm). rewrite IH, andb_true_r in Hms.
      assert (m_current m = false) as Hcur.
      { destruct (m_current m) eqn:Hc; [|done].
        assert (existsb m_current ms = true); [|congruence].
        apply existsb_exists. exists m. split; [|done].
        apply list_elem_of_In. by eapply list_elem_of_lookup_2. }
      rewrite Hcur in Hms. by destruct (m_done m).
    - apply lookup_ge_None_1 in Hm. rewrite take_ge in IH |- * by lia. done. }
  specialize (Hdone (length ms)). rewrite firstn_all in Hdone.
  clear Hms Hex. induction ms as [|m ms IH]; simpl in *; [done|].
  apply andb_prop in Hdone as [-> Hrest]. by rewrite IH.
Qed.

Lemma recent_activity_shape repoName c cs :
  activity_milestone (recent_activity unicodeLower repoName (c :: cs)).
Proof.
  unfold activity_milestone, recent_activity. simpl. split_and!; try done.
  - lia.
  - rewrite length_imap. pose proof (length_take_le (c :: cs) 5%nat).
    destruct cs as [|? [|? [|? [|? ?]]]]; simpl; lia.
  - constructor; [done|]. apply Forall_lookup. intros i t.
    rewrite list_lookup_imap. by intros (x & _ & ->)%fmap_Some.
Qed.

Lemma buildProjectData_milestones gh now repo index p :
  buildProjectData unicodeLower gh now repo index = Some p →
  first_undone_is_current (milestones p) ∧
  (Forall checklist_milestone (milestones p)
   ∨ ∃ m, milestones p = [m] ∧ activity_milestone m).
Proof.
  unfold buildProjectData. intros H.
  destruct (mapM _ _) as [prdResults|]; [|done]. simpl in H.
  destruct (match ghFetch gh (get_commits gh (owner repo) (name repo)) with
            | Data cs => Some (Some cs) | Nothing => Some None | Failed => None end)
    as [commits|]; [|done]. simpl in H.
  destruct (from_checklists _ _ _ _) as [ms|] eqn:Hms; [|done]. simpl in H.
  injection H as <-. simpl.
  apply from_checklists_milestones in Hms as [Hfocus Hshape];
    [|split; [apply first_undone_nil | constructor]].
  destruct ms as [|m0 ms].
  - destruct commits as [[|c cs]|].
    + split; [apply first_undone_nil|]. left. constructor.
    + assert (first_undone_is_current [recent_activity unicodeLower (name repo) (c :: cs)])
        as Hact.
      { intros [|i] m; simpl; [by intros [= <-]|]. by rewrite lookup_nil. }
      rewrite ensure_current_id by done. split; [done|]. right.
      eexists. split; [done|]. apply recent_activity_shape.
    + split; [apply first_undone_nil|]. left. constructor.
  - destruct commits as [[|c cs]|]; simpl;
      rewrite ensure_current_id by done; (split; [done|by left]).
Qed.

(** The list handed to the block that marks the first undone milestone
    is left as it is. *)
Lemma ensure_current_idle repoName prdResults commits ms :
  from_checklists unicodeLower repoName prdResults [] = Some ms →
  let listed := match ms, commits with
                | [], Some (c :: cs) => [recent_activity unicodeLower repoName (c :: cs)]
                | _, _ => ms
                end in
  ensure_current listed = listed.
Proof.
  intros Hms. cbv zeta.
  apply from_checklists_milestones in Hms as [Hfocus _];
    [|split; [apply first_undone_nil | constructor]].
  apply ensure_current_id.
  destruct ms as [|m0 ms]; [|by destruct commits as [[|c cs]|]].
  destruct commits as [[|c cs]|]; [done| |done].
  intros [|i] m; simpl; [by intros [= <-]|]. by rewrite lookup_nil.
Qed.

(** X12.  In every project record the milestone in focus is the first
    milestone that is not done: a milestone is [current] exactly when it
    is not done and all milestones before it are; so at most one milestone
    is, and the later block that would mark the first undone one never
    changes anything. *)
Theorem buildProjectData_focus gh now repo index p :
  buildProjectData unicodeLower gh now repo index = Some p →
  (∀ i m, milestones p !! i = Some m →
     m_current m = negb (m_done m) && forallb m_done (take i (milestones p))) ∧
  (∀ i j m m', milestones p !! i = Some m → milestones p !! j = Some m' →
     m_current m = true → m_current m' = true → i = j) ∧
  (∀ prdResults commits ms,
     from_checklists unicodeLower (name repo) prdResults [] = Some ms →
     let listed := match ms, commits with
                   | [], Some (c :: cs) =>
                       [recent_activity unicodeLower (name repo) (c :: cs)]
                   | _, _ => ms
                   end in
     ensure_current listed = listed).
Proof.
  intros [Hfocus _]%buildProjectData_milestones. split; [exact Hfocus|].
  split; [|intros prdResults commits ms; apply ensure_current_idle].
  assert (∀ i j m m', (i < j)%nat → milestones p !! i = Some m →
            milestones p !! j = Some m' → m_current m = true → m_current m' = false)
    as Hlt.
  { intros i j m m' Hij Hm Hm' Hcur.
    rewrite (Hfocus i m Hm) in Hcur. rewrite (Hfocus j m' Hm').
    apply andb_prop in Hcur as [Hundone _].
    assert (forallb m_done (take j (milestones p)) = false) as ->;
      [|by rewrite andb_false_r].
    apply not_true_is_false. intros Hall.
    rewrite forallb_forall in Hall. specialize (Hall m).
    rewrite Hall in Hundone; [done|].
    apply list_elem_of_In. apply (list_elem_of_lookup_2 _ i).
    by rewrite lookup_take_lt. }
  intros i j m m' Hm Hm' Hc Hc'.
  destruct (Nat.lt_trichotomy i j) as [Hij|[->|Hji]]; [|done|].
  - rewrite (Hlt i j m m' Hij Hm Hm' Hc) in Hc'. done.
  - rewrite (Hlt j i m' m Hji Hm' Hm Hc') in Hc. done.
Qed.

(** X13.  The milestones of a project record are either sections of
    checklists, each with at least one task, done exactly when all its
    tasks are done, and with the [current] flag of a task set exactly on
    the first task that is not done; or the single Recent Activity
    milestone, which is never done although each of its one to five tasks
    is, and whose tasks have no [current] property. *)
Theorem buildProjectData_milestone_shape gh now repo index p :
  buildProjectData unicodeLower gh now repo index = Some p →
  Forall checklist_milestone (milestones p)
  ∨ ∃ m, milestones p = [m] ∧ activity_milestone m.
Proof. by intros [_ Hshape]%buildProjectData_milestones. Qed.

End Host.

Lemma buildProjectData_focus_witness :
  ∃ p, buildProjectData id LiveSamples.with_roadmap LiveSamples.now0 LiveSamples.hq_repo 0 = Some p ∧
       (m_current <$> milestones p) = [true; false; false] ∧
       ∀ i j m m', milestones p !! i = Some m → milestones p !! j = Some m' →
         m_current m = true → m_current m' = true → i = j.
Proof.
  eexists. split; [vm_compute; reflexivity|]. split; [vm_compute; reflexivity|].
  apply (buildProjectData_focus id LiveSamples.with_roadmap LiveSamples.now0 LiveSamples.hq_repo 0).
  vm_compute. reflexivity.
Defined.

Lemma buildProjectData_milestone_shape_witness :
  ∃ p, buildProjectData id LiveSamples.with_roadmap LiveSamples.now0 LiveSamples.hq_repo 0 = Some p ∧
       (Forall checklist_milestone (milestones p)
        ∨ ∃ m, milestones p = [m] ∧ activity_milestone m).
Proof.
  eexists. split; [vm_compute; reflexivity|].
  apply (buildProjectData_milestone_shape id LiveSamples.with_roadmap LiveSamples.now0
           LiveSamples.hq_repo 0).
  vm_compute. reflexivity.
Defined.

End MilestoneFacts.

Module GroupingFacts.
Import Js LiveApi MilestoneFacts.

Section Host.
Variable unicodeLower : str → str.

Lemma add_to_items section task sections sections' :
  add_to section task sections = Some sections' →
  sections' ≫= snd ≡ₚ (sections ≫= snd) ++ [task].
Proof.
  revert sections'. induction sections as [|[k ts] rest IH]; intros sections'; simpl.
  - case_bool_decide; [done|]. by intros [= <-].
  - case_bool_decide.
    + intros [= <-]. csimpl. rewrite <- !(assoc_L (++)). f_equiv.
      apply Permutation_app_comm.
    + intros (rest' & Hrest & ->)%fmap_Some. csimpl.
      rewrite (IH _ Hrest). by rewrite (assoc_L (++)).
Qed.

Lemma group_items file tasks sections sections' :
  group file tasks sections = Some sections' →
  sections' ≫= snd ≡ₚ (sections ≫= snd) ++ tasks.
Proof.
  revert sections. induction tasks as [|task rest IH]; intros sections; simpl.
  - intros [= <-]. by rewrite app_nil_r.
  - destruct (add_to _ task sections) as [s1|] eqn:Hadd; simpl; [|done].
    intros Hg. rewrite (IH _ Hg), (add_to_items _ _ _ _ Hadd).
    by rewrite <- (assoc_L (++)).
Qed.

Lemma build_tasks_items repoName n sectionTasks :
  (λ t, (t_name t, t_done t)) <$> build_tasks unicodeLower repoName n sectionTasks
  = (λ x, (Checklist.name x, Checklist.done x)) <$> sectionTasks.
Proof.
  unfold build_tasks. rewrite fmap_imap.
  rewrite <- (imap_const (λ x, (Checklist.name x, Checklist.done x)) sectionTasks).
  by apply imap_ext.
Qed.

Lemma push_milestone_items repoName file entries ms :
  milestone_items (foldl (push_milestone unicodeLower repoName file) ms entries)
  = milestone_items ms
    ++ ((entries ≫= snd) ≫= λ x, [(Checklist.name x, Checklist.done x)]).
Proof.
  revert ms. induction entries as [|[sectionName sectionTasks] entries IH]; intros ms; simpl.
  - by rewrite app_nil_r.
  - rewrite IH. unfold milestone_items at 1. rewrite bind_app, bind_singleton. simpl.
    rewrite build_tasks_items. fold (milestone_items ms).
    rewrite <- (assoc_L (++)). f_equal. csimpl. rewrite bind_app. f_equal.
Qed.

Lemma from_checklists_items repoName prdResults ms ms' :
  from_checklists unicodeLower repoName prdResults ms = Some ms' →
  milestone_items ms' ≡ₚ milestone_items ms ++ parsed_items prdResults.
Proof.
  revert ms. induction prdResults as [|[file tasks] rest IH]; intros ms; simpl.
  - intros [= <-]. by rewrite app_nil_r.
  - unfold parsed_items. csimpl. fold (parsed_items rest).
    case_bool_decide as Hlen.
    + intros Hrest. rewrite (IH _ Hrest). by destruct tasks.
    + destruct (group file tasks []) as [sections|] eqn:Hg; simpl; [|done].
      intros Hrest. rewrite (IH _ Hrest), push_milestone_items.
      rewrite <- (assoc_L (++)). f_equiv. f_equiv.
      rewrite Object_entries_Permutation, (group_items _ _ _ _ Hg). simpl.
      clear. induction tasks; csimpl; by f_equiv.
Qed.

(** X14.  Grouping by section loses and repeats nothing: the tasks of
    the milestones built from the checklists are, by name and done state,
    the parsed items of the files, rearranged. *)
Theorem from_checklists_keeps_every_item repoName prdResults ms :
  from_checklists unicodeLower repoName prdResults [] = Some ms →
  milestone_items ms ≡ₚ parsed_items prdResults.
Proof. intros Hms. by rewrite (from_checklists_items _ _ _ _ Hms). Qed.

End Host.

Lemma from_checklists_keeps_every_item_witness :
  ∃ ms, from_checklists id (lit "hq") LiveSamples.roadmap_results [] = Some ms ∧
        length (milestone_items ms) = 4%nat ∧
        milestone_items ms ≡ₚ parsed_items LiveSamples.roadmap_results.
Proof.
  eexists. split; [vm_compute; reflexivity|]. split; [vm_compute; reflexivity|].
  apply (from_checklists_keeps_every_item id (lit "hq")). vm_compute. reflexivity.
Defined.

End GroupingFacts.

Module SortFacts.
Import Js LiveApi.

Local Ltac by_keys :=
  unfold before, compare;
  repeat match goal with
         | |- context [or_else ?x ?d] => generalize (or_else x d); intros ?
         end;
  intros; repeat case_bool_decide; lia.

Lemma compare_antisym a b : compare b a = - compare a b.
Proof. by_keys. Qed.

Lemma before_trans a b c : before a b → before b c → before a c.
Proof. by_keys. Qed.

Lemma before_strict_trans a b c : compare a b < 0 → before b c → compare a c < 0.
Proof. by_keys. Qed.

Lemma ties_shift a b c : compare a b = 0 → compare a c = compare b c.
Proof. by_keys. Qed.

Lemma insert_sorted_Permutation x l : insert_sorted x l ≡ₚ x :: l.
Proof.
  induction l as [|y l IH]; simpl; [done|].
  case_bool_decide; [|done]. rewrite IH. apply Permutation_swap.
Qed.

Lemma sort_Permutation l : sort l ≡ₚ l.
Proof.
  unfold sort. induction l as [|x l IH]; simpl; [done|].
  by rewrite insert_sorted_Permutation, IH.
Qed.

Lemma insert_sorted_ordered x l : ordered l → ordered (insert_sorted x l).
Proof.
  induction l as [|y l IH]; simpl; [by split|].
  intros [Hy Hl]. case_bool_decide as Hlt; simpl.
  - split; [|by apply IH]. rewrite insert_sorted_Permutation.
    constructor; [|done]. unfold before. lia.
  - assert (before x y) as Hxy.
    { unfold before. rewrite (compare_antisym y x). lia. }
    split; [|by split]. constructor; [done|].
    eapply Forall_impl; [exact Hy|]. intros z Hz. by eapply before_trans.
Qed.

Lemma sort_ordered l : ordered (sort l).
Proof.
  unfold sort. induction l as [|x l IH]; simpl; [done|]. by apply insert_sorted_ordered.
Qed.

Lemma insert_sorted_ties a x l :
  ties a (insert_sorted x l) = ties a (x :: l).
Proof.
  unfold ties. induction l as [|y l IH]; simpl; [done|].
  case_bool_decide as Hlt; [|done].
  destruct (decide (compare a x = 0)) as [Hx|Hx].
  - assert (compare a y ≠ 0) as Hy.
    { intros Hy. rewrite (compare_antisym x y), <- (ties_shift a x y Hx) in Hlt. lia. }
    rewrite (filter_cons_False _ y) by done. rewrite IH.
    rewrite !(filter_cons_True _ x) by done. by rewrite filter_cons_False by done.
  - rewrite (filter_cons_False _ x) by done.
    destruct (decide (compare a y = 0)).
    + rewrite !(filter_cons_True _ y) by done. rewrite IH.
      by rewrite filter_cons_False by done.
    + rewrite !(filter_cons_False _ y) by done. rewrite IH.
      by rewrite filter_cons_False by done.
Qed.

Lemma sort_ties a l : ties a (sort l) = ties a l.
Proof.
  unfold sort. induction l as [|x l IH]; simpl; [done|].
  rewrite insert_sorted_ties. unfold ties in *. rewrite !filter_cons.
  by rewrite IH.
Qed.

End SortFacts.

Module HandlerFacts.
Import Js LiveApi SortFacts DiscoveryFacts.

Section Host.
Variable unicodeLower : str → str.

Lemma batches_from gh clock repos fuel i :
  (length repos ≤ i + 8 * fuel)%nat →
  batches unicodeLower gh clock fuel i repos
  = omap id (imap (λ j repo, buildProjectData unicodeLower gh (clock (i + j)%nat) repo (i + j))
                  (drop i repos)).
Proof.
  revert i. induction fuel as [|fuel IH]; intros i Hlen; simpl.
  - by rewrite drop_ge by lia.
  - case_bool_decide as Hi; [|by rewrite drop_ge by lia].
    rewrite IH by lia.
    rewrite <- (take_drop 8 (drop i repos)) at 2.
    rewrite imap_app, omap_app. f_equal.
    rewrite drop_drop.
    destruct (decide (length (take 8 (drop i repos)) = 8%nat)) as [->|Hshort].
    + f_equal. apply imap_ext. intros j repo _. simpl.
      by replace (i + 8 + j)%nat with (i + (8 + j))%nat by lia.
    + rewrite length_take, length_drop in Hshort.
      rewrite (drop_ge repos (i + 8)) by lia. done.
Qed.

Lemma batches_all gh clock repos :
  batches unicodeLower gh clock (length repos) 0 repos = built unicodeLower gh clock repos.
Proof. rewrite batches_from by lia. by rewrite drop_0. Qed.

(** X16.  The batches of eight cannot be told from one pass over the
    discovery list: the document holds, sorted, the record of every
    repository whose build succeeded, built with the repository's position
    in the list as index, and a failed build removes that project only. *)
Theorem handler_builds_each_repo gh clock stamp :
  handler unicodeLower gh clock stamp
  = match getAllRepos unicodeLower gh with
    | None => Error500
    | Some repos =>
        let projects := sort (built unicodeLower gh clock repos) in
        Ok200 (mkDocument
                 (mkMeta stamp (lit "live-api") (lit "3.0.0") (length projects)
                         (src_name <$> GITHUB_SOURCES))
                 projects)
    end.
Proof.
  unfold handler. destruct (getAllRepos unicodeLower gh) as [repos|]; [|done].
  by rewrite batches_all.
Qed.

Lemma handler_Ok gh clock stamp doc :
  handler unicodeLower gh clock stamp = Ok200 doc →
  ∃ repos, getAllRepos unicodeLower gh = Some repos ∧
           projects doc = sort (built unicodeLower gh clock repos) ∧
           projectCount (meta doc) = length (projects doc).
Proof.
  unfold handler. destruct (getAllRepos unicodeLower gh) as [repos|]; [|done].
  rewrite batches_all. intros [= <-]. by exists repos.
Qed.

(** X15.  The order of the projects in the document: it is the stable
    arrangement of the built records by the comparator, that is, nothing
    is lost, no project comes before one that the comparator puts strictly
    first, and projects that the comparator does not tell apart stay in
    discovery order. *)
Theorem handler_sorts_stably gh clock stamp doc :
  handler unicodeLower gh clock stamp = Ok200 doc →
  ∃ repos, getAllRepos unicodeLower gh = Some repos ∧
    projects doc ≡ₚ built unicodeLower gh clock repos ∧
    ordered (projects doc) ∧
    (∀ a, ties a (projects doc) = ties a (built unicodeLower gh clock repos)) ∧
    projectCount (meta doc) = length (built unicodeLower gh clock repos).
Proof.
  intros (repos & Hrepos & Hdoc & Hcount)%handler_Ok. exists repos.
  rewrite Hcount, Hdoc. split_and!; [done|..].
  - apply sort_Permutation.
  - apply sort_ordered.
  - intros a. apply sort_ties.
  - by rewrite sort_Permutation.
Qed.

(** *** Ids and priorities *)

Lemma buildProjectData_identity gh now repo index p :
  buildProjectData unicodeLower gh now repo index = Some p →
  p_id p = lowered unicodeLower repo ∧ priority p = index ∧ p_owner p = owner repo.
Proof.
  unfold buildProjectData. intros H.
  destruct (mapM _ _) as [prdResults|]; [|done]. simpl in H.
  destruct (match ghFetch gh (get_commits gh (owner repo) (name repo)) with
            | Data cs => Some (Some cs) | Nothing => Some None | Failed => None end)
    as [commits|]; [|done]. simpl in H.
  destruct (from_checklists _ _ _ _) as [ms|]; [|done]. simpl in H.
  by injection H as <-.
Qed.

Lemma omap_imap_sublist {A B K} (g : nat → A → option B) (key : B → K) (h : nat → A → K)
    (l : list A) :
  (∀ n a b, g n a = Some b → key b = h n a) →
  sublist (key <$> omap id (imap g l)) (imap h l).
Proof.
  revert g h. induction l as [|a l IH]; intros g h Hg; csimpl; [constructor|].
  destruct (g 0%nat a) as [b|] eqn:Hb; csimpl.
  - rewrite (Hg _ _ _ Hb). apply sublist_skip. apply IH. intros n a' b'. apply Hg.
  - apply sublist_cons. apply IH. intros n a' b'. apply Hg.
Qed.

(** X17.  No two projects of the document have the same id, and no two
    the same priority: the id is the lower-cased repository name, which
    the discovery keeps unique, and the priority is the position of the
    repository in the discovery list. *)
Theorem handler_unique_ids gh clock stamp doc :
  handler unicodeLower gh clock stamp = Ok200 doc →
  NoDup (p_id <$> projects doc) ∧ NoDup (priority <$> projects doc).
Proof.
  intros (repos & Hrepos & Hdoc & _)%handler_Ok. rewrite Hdoc, sort_Permutation.
  unfold built. split.
  - eapply sublist_NoDup;
      [|apply (omap_imap_sublist _ p_id (λ _ repo, lowered unicodeLower repo))].
    + change (imap _ repos) with (imap (const (lowered unicodeLower)) repos).
      rewrite imap_const.
      by destruct (getAllRepos_distinct unicodeLower gh repos Hrepos) as [Hnodup _].
    + intros n repo p Hp. by apply buildProjectData_identity in Hp as (? & ? & ?).
  - eapply sublist_NoDup; [|apply (omap_imap_sublist _ priority (λ n _, n))].
    + change (imap _ repos) with (imap (λ j _, id j) repos).
      rewrite (imap_seq_0 repos id). rewrite list_fmap_id. apply NoDup_seq.
    + intros n repo p Hp. by apply buildProjectData_identity in Hp as (? & ? & ?).
Qed.

(** *** Failure *)

Lemma collect_None gh sources :
  collect gh sources = None ↔
  has_token gh = true ∧ ∃ source, source ∈ sources ∧ list_repos gh source = Failed.
Proof.
  induction sources as [|source rest IH]; simpl.
  - split; [done|]. by intros (_ & source & ?%elem_of_nil & _).
  - unfold ghFetch at 1. destruct (has_token gh) eqn:Htoken.
    + destruct (list_repos gh source) as [listed| |] eqn:Hsource.
      * rewrite fmap_None, IH. split.
        -- intros (_ & s & Hs & Hfail). split; [done|]. exists s.
           split; [by apply list_elem_of_further|done].
        -- intros (_ & s & [->|Hs]%elem_of_cons & Hfail); [congruence|].
           split; [done|]. by exists s.
      * rewrite IH. split.
        -- intros (_ & s & Hs & Hfail). split; [done|]. exists s.
           split; [by apply list_elem_of_further|done].
        -- intros (_ & s & [->|Hs]%elem_of_cons & Hfail); [congruence|].
           split; [done|]. by exists s.
      * split; [|done]. intros _. split; [done|]. exists source.
        split; [apply list_elem_of_here|done].
    + rewrite IH. split; by intros [? _].
Qed.

(** X18.  The handler answers 500 exactly when a token is set and the
    listing of one of the two sources fails; whatever happens while a
    single repository is built, the answer is 200. *)
Theorem handler_fails_with_the_listing gh clock stamp :
  handler unicodeLower gh clock stamp = Error500 ↔
  has_token gh = true ∧
  ∃ source, source ∈ GITHUB_SOURCES ∧ list_repos gh source = Failed.
Proof.
  rewrite <- collect_None. unfold handler, getAllRepos.
  destruct (collect gh GITHUB_SOURCES) as [listed|]; simpl; by split.
Qed.

(** X19.  Without [GITHUB_TOKEN] no request is sent and the answer is a
    200 with no project. *)
Theorem handler_without_token gh clock stamp :
  has_token gh = false →
  handler unicodeLower gh clock stamp
  = Ok200 (mkDocument
             (mkMeta stamp (lit "live-api") (lit "3.0.0") 0 (src_name <$> GITHUB_SOURCES))
             []).
Proof.
  intros Hno. unfold handler, getAllRepos.
  by rewrite (collect_without_token gh GITHUB_SOURCES Hno).
Qed.

End Host.

Lemma handler_sorts_stably_witness :
  ∃ doc, handler id LiveSamples.quiet (LiveSamples.clock_from LiveSamples.now0) LiveSamples.now0
         = Ok200 doc ∧
         ordered (projects doc) ∧ projectCount (meta doc) = 3%nat.
Proof.
  eexists. split; [vm_compute; reflexivity|].
  destruct (handler_sorts_stably id LiveSamples.quiet
              (LiveSamples.clock_from LiveSamples.now0) LiveSamples.now0 _ eq_refl)
    as (repos & _ & _ & Hordered & _ & _).
  split; [exact Hordered|reflexivity].
Defined.

Lemma handler_unique_ids_witness :
  ∃ doc, handler id LiveSamples.quiet (LiveSamples.clock_from LiveSamples.now0) LiveSamples.now0
         = Ok200 doc ∧
         NoDup (p_id <$> projects doc).
Proof.
  eexists. split; [vm_compute; reflexivity|].
  by destruct (handler_unique_ids id LiveSamples.quiet
                 (LiveSamples.clock_from LiveSamples.now0) LiveSamples.now0 _ eq_refl).
Defined.

Lemma handler_without_token_witness :
  handler id LiveSamples.no_token (LiveSamples.clock_from LiveSamples.now0) LiveSamples.now0
  = Ok200 (mkDocument
             (mkMeta LiveSamples.now0 (lit "live-api") (lit "3.0.0") 0
                     (src_name <$> GITHUB_SOURCES))
             []).
Proof. apply handler_without_token. reflexivity. Defined.

End HandlerFacts.

(* ------------------------------------------------------------------ *)
(** ** The parsers and the migration: records, slugs, sections, task
       files                                                            *)
(* ------------------------------------------------------------------ *)
Module TrimFacts.
Import Js JsFacts.

Lemma forallb_trimStart p (s : str) : forallb p s = true → forallb p (trimStart s) = true.
Proof.
  induction s as [|c s IH]; simpl; [done|].
  intros [Hc Hs]%andb_prop. destruct (is_space c); [by apply IH|]. simpl. by rewrite Hc.
Qed.

Lemma forallb_trimEnd p (s : str) : forallb p s = true → forallb p (trimEnd s) = true.
Proof.
  induction s as [|c s IH]; simpl; [done|].
  intros [Hc Hs]%andb_prop. specialize (IH Hs).
  destruct (trimEnd s) as [|c' t].
  - destruct (is_space c); [done|]. simpl. by rewrite Hc.
  - simpl in *. by rewrite Hc.
Qed.

Lemma forallb_trim p (s : str) : forallb p s = true → forallb p (trim s) = true.
Proof. intros H. by apply forallb_trimEnd, forallb_trimStart. Qed.

Lemma trimEnd_idem (s : str) : trimEnd (trimEnd s) = trimEnd s.
Proof.
  induction s as [|c s IH]; simpl; [done|].
  destruct (trimEnd s) as [|c' t] eqn:Hs.
  - destruct (is_space c) eqn:Hc; simpl; [done|]. by rewrite Hc.
  - simpl in IH |- *. by rewrite IH.
Qed.

Lemma trimStart_head (s : str) :
  match trimStart s with c :: _ => is_space c = false | [] => True end.
Proof.
  induction s as [|c s IH]; simpl; [done|]. by destruct (is_space c) eqn:Hc.
Qed.

Lemma trimEnd_head c (s : str) :
  is_space c = false → ∃ t, trimEnd (c :: s) = c :: t.
Proof. intros Hc. simpl. destruct (trimEnd s); rewrite ?Hc; by eexists. Qed.

Lemma trim_idem (s : str) : trim (trim s) = trim s.
Proof.
  unfold trim. pose proof (trimStart_head s) as Hhead.
  destruct (trimStart s) as [|c u]; [done|].
  destruct (trimEnd_head c u Hhead) as [t Ht]. rewrite Ht.
  simpl trimStart. rewrite Hhead. rewrite <- Ht. apply trimEnd_idem.
Qed.

Lemma tidy_trim (s : str) : forallb dot s = true → tidy (trim s).
Proof. intros Hs. split; [apply trim_idem|by apply forallb_trim]. Qed.

(** *** The last capture of a pattern that ends in [(.+)] *)

Lemma match_atom_Some {A} a (s : str) (k : nat → option A) r :
  match_atom a s k = Some r → ∃ n, (n ≤ length s)%nat ∧ k n = Some r.
Proof.
  destruct a as [p|p lo hi]; simpl.
  - destruct s as [|c s]; [done|]. destruct (p c); [|done]. intros Hk. exists 1%nat.
    split; [simpl; lia|done].
  - intros (j & [_ Hj] & Hk & _)%backtrack_Some. exists j. split; [|done].
    pose proof (span_le p s). destruct hi; lia.
Qed.

Lemma exec_last_dot (r : regex) (s : str) caps :
  exec (r ++ [Group (plus dot)]) s = Some caps →
  ∃ init body, caps = init ++ [body] ∧ body ≠ [] ∧ forallb dot body = true.
Proof.
  revert s caps. induction r as [|[a|a] r IH]; intros s caps.
  - change ([] ++ [Group (plus dot)]) with [Group (plus dot)]. rewrite exec_plus_dot.
    case_decide as Hspan; [|done]. intros [= <-]. exists [], (take (span dot s) s).
    split; [done|]. split; [|apply span_take].
    intros Hnil. apply (f_equal length) in Hnil.
    rewrite length_take in Hnil. pose proof (span_le dot s). simpl in Hnil. lia.
  - simpl. intros (n & _ & Hk)%match_atom_Some. by eapply IH.
  - simpl. intros (n & _ & Hk)%match_atom_Some.
    apply fmap_Some in Hk as (caps' & Hcaps' & ->).
    destruct (IH _ _ Hcaps') as (init & body & -> & Hne & Hdot).
    by exists (take n s :: init), body.
Qed.

End TrimFacts.

Module ItemFacts.
Import Js Checklist JsFacts TrimFacts.

Lemma checkRe_text line mark text :
  exec checkRe line = Some [mark; text] → forallb dot text = true.
Proof.
  change checkRe with
    ([Plain (star is_space); Plain (One (chr "-*")); Plain (star is_space);
      Plain (One (chr "[")); Group (One (chr " xX")); Plain (One (chr "]"));
      Plain (star is_space)] ++ [Group (plus dot)]).
  intros (init & body & Hcaps & _ & Hdot)%exec_last_dot.
  destruct init as [|? [|? [|? ?]]]; simplify_eq/=. done.
Qed.

Lemma headingRe_text line h :
  exec headingRe line = Some [h] → forallb dot h = true.
Proof.
  change headingRe with
    ([Plain (Rep (chr "#") 1 (Some 3%nat)); Plain (plus is_space)] ++ [Group (plus dot)]).
  intros (init & body & Hcaps & _ & Hdot)%exec_last_dot.
  destruct init as [|? [|? ?]]; simplify_eq/=. done.
Qed.

Lemma scan_tidy lines heading :
  Forall (λ it, tidy (name it) ∧ (section it = heading ∨ tidy (section it)))
         (scan lines heading).
Proof.
  revert heading. induction lines as [|line rest IH]; intros heading; [constructor|].
  cbn [scan].
  set (heading' := match exec headingRe line with
                   | Some [h] => trim h
                   | _ => heading
                   end).
  assert (heading' = heading ∨ tidy heading') as Hheading.
  { unfold heading'. destruct (exec headingRe line) as [[|h [|??]]|] eqn:Hh; auto.
    right. apply tidy_trim. by eapply headingRe_text. }
  assert (Forall (λ it, tidy (name it) ∧ (section it = heading ∨ tidy (section it)))
                 (scan rest heading')) as Hrest.
  { eapply Forall_impl; [apply IH|]. intros it [Hname [Hsec|Hsec]]; split; auto.
    destruct Hheading as [->|Htidy]; [by left|]. right. by rewrite Hsec. }
  destruct (exec checkRe line) as [[|mark [|text [|??]]]|] eqn:Hc; try done.
  constructor; [|done]. simpl. split.
  - apply tidy_trim. by eapply checkRe_text.
  - destruct Hheading as [->|Htidy]; auto.
Qed.

(** X20.  Every record of [parseChecklists] has a name without white
    space at either end and without a line break inside; its section is
    the default label of the file or a heading text of that same kind. *)
Theorem parseChecklists_tidy content fileName :
  Forall (λ it, tidy (name it) ∧
                (section it = default_heading fileName ∨ tidy (section it)))
         (parseChecklists content fileName).
Proof. apply scan_tidy. Qed.

End ItemFacts.

Module SlugFacts.
Import Js Migrate.

Lemma collapse_units p rep b (s : str) :
  Forall (λ c, c = rep ∨ (c ∈ s ∧ p c = false)) (collapse p rep b s).
Proof.
  revert b. induction s as [|c s IH]; intros b; simpl; [constructor|].
  assert (∀ b', Forall (λ c', c' = rep ∨ (c' ∈ c :: s ∧ p c' = false)) (collapse p rep b' s))
    as IH'.
  { intros b'. eapply Forall_impl; [apply IH|]. intros c' [->|[Hin Hp]]; [by left|right].
    split; [by apply list_elem_of_further|done]. }
  destruct (p c) eqn:Hc.
  - destruct b; [apply IH'|]. constructor; [by left|apply IH'].
  - constructor; [|apply IH']. right. split; [apply list_elem_of_here|done].
Qed.

Lemma no_pair_cons p a b (r : str) :
  no_pair p (a :: b :: r) = negb (p a && p b) && no_pair p (b :: r).
Proof. done. Qed.

Lemma collapse_no_pair p rep b (s : str) :
  p rep = true →
  no_pair p (collapse p rep b s) = true ∧
  (b = true → match collapse p rep b s with c :: _ => p c = false | [] => True end).
Proof.
  intros Hrep. revert b. induction s as [|c s IH]; intros b; simpl; [done|].
  destruct (p c) eqn:Hc.
  - destruct b; [apply IH|]. split; [|done].
    destruct (IH true) as [Hno Hhead]. specialize (Hhead eq_refl).
    destruct (collapse p rep true s) as [|c' t]; [done|].
    rewrite no_pair_cons, Hhead, andb_false_r. simpl. exact Hno.
  - split; [|by intros _].
    destruct (IH false) as [Hno _].
    destruct (collapse p rep false s) as [|c' t]; [done|].
    rewrite no_pair_cons, Hc. simpl. exact Hno.
Qed.

Lemma no_pair_tail p c (s : str) : no_pair p (c :: s) = true → no_pair p s = true.
Proof. destruct s as [|b s]; [done|]. rewrite no_pair_cons. by intros [_ ?]%andb_prop. Qed.

Lemma no_pair_take p n (s : str) : no_pair p s = true → no_pair p (take n s) = true.
Proof.
  revert n. induction s as [|a s IH]; intros [|n]; try done.
  intros Hs. pose proof (no_pair_tail _ _ _ Hs) as Hs'. specialize (IH n Hs').
  destruct s as [|b s]; [by destruct n|]. destruct n as [|n]; [done|].
  rewrite no_pair_cons in Hs. apply andb_prop in Hs as [Hab _].
  change (take (S (S n)) (a :: b :: s)) with (a :: b :: take n s).
  rewrite no_pair_cons, Hab. exact IH.
Qed.

Lemma head_take {A} n (s : list A) : (0 < n)%nat → head (take n s) = head s.
Proof. intros Hn. destruct n; [lia|]. by destruct s. Qed.

(** What [.replace(/^-|-$/g, '')] leaves of a string without a double
    hyphen. *)
Lemma strip_edge_dashes_shape (s : str) :
  no_pair (λ c, (c =? 45)%N) s = true →
  no_pair (λ c, (c =? 45)%N) (strip_edge_dashes s) = true ∧
  head (strip_edge_dashes s) ≠ Some 45%N ∧
  Forall (λ c, c ∈ s) (strip_edge_dashes s).
Proof.
  intros Hs. unfold strip_edge_dashes.
  set (s1 := match s with c :: s' => if (c =? 45)%N then s' else s | [] => [] end).
  assert (no_pair (λ c, (c =? 45)%N) s1 = true ∧ head s1 ≠ Some 45%N
          ∧ Forall (λ c, c ∈ s) s1) as (Hno & Hhead & Hin).
  { unfold s1. destruct s as [|c s']; [by repeat split|].
    destruct (c =? 45)%N eqn:Hc.
    - split; [by eapply no_pair_tail|]. split.
      + destruct s' as [|b s'']; [done|]. rewrite no_pair_cons in Hs.
        rewrite Hc in Hs. simpl in Hs. apply andb_prop in Hs as [Hb _].
        simpl. intros [= ->]. done.
      + apply Forall_forall. intros x Hx. by apply list_elem_of_further.
    - split; [done|]. split.
      + simpl. intros [= ->]. done.
      + apply Forall_forall. by intros x Hx. }
  destruct (s1 !! (length s1 - 1)%nat) as [c|] eqn:Hlast; [|done].
  destruct (c =? 45)%N eqn:Hc; [|done].
  split; [by apply no_pair_take|]. split.
  - destruct (decide (length s1 - 1 = 0)%nat) as [Hz|Hnz].
    + rewrite Hz. by rewrite take_0.
    + rewrite head_take by lia. done.
  - apply Forall_forall. intros x (i & Hx & _)%elem_of_take.
    rewrite Forall_forall in Hin. apply Hin. by eapply list_elem_of_lookup_2.
Qed.

Section Host.
Variable unicodeLower : str → str.

(** X21.  A slug is at most 50 units long, is made of lower-case
    letters, digits and hyphens only, does not begin with a hyphen and has
    no two hyphens in a row. *)
Theorem slugify_shape (text : str) :
  (length (slugify unicodeLower text) ≤ 50)%nat ∧
  Forall (λ c, is_slug_char c = true) (slugify unicodeLower text) ∧
  head (slugify unicodeLower text) ≠ Some 45%N ∧
  no_pair (λ c, (c =? 45)%N) (slugify unicodeLower text) = true.
Proof.
  unfold slugify.
  set (f := filter (λ c, is_slug_unit c = true) (toLowerCase unicodeLower text)).
  set (c1 := collapse is_space 45%N false f).
  set (c2 := collapse (λ c, (c =? 45)%N) 45%N false c1).
  assert (Forall (λ c, is_slug_char c = true) c1) as H1.
  { eapply Forall_impl; [apply collapse_units|]. intros c [->|[Hin Hsp]]; [done|].
    apply list_elem_of_filter in Hin as [Hunit _].
    unfold is_slug_unit in Hunit. unfold is_slug_char. rewrite Hsp in Hunit.
    by rewrite orb_false_r in Hunit. }
  assert (Forall (λ c, is_slug_char c = true) c2) as H2.
  { eapply Forall_impl; [apply collapse_units|]. intros c [->|[Hin _]]; [done|].
    rewrite Forall_forall in H1. by apply H1. }
  destruct (collapse_no_pair (λ c, (c =? 45)%N) 45%N false c1 eq_refl) as [Hno _].
  fold c2 in Hno.
  destruct (strip_edge_dashes_shape c2 Hno) as (Hno3 & Hhead3 & Hin3).
  split_and!.
  - rewrite length_take. lia.
  - apply Forall_forall. intros c (i & Hc & _)%elem_of_take.
    rewrite Forall_forall in H2, Hin3. apply H2, Hin3. by eapply list_elem_of_lookup_2.
  - by rewrite head_take by lia.
  - by apply no_pair_take.
Qed.

End Host.

End SlugFacts.

Module ParseFacts.
Import Js Migrate JsFacts TrimFacts ItemFacts.

Lemma prd_headingRe_caps line hashes h :
  exec headingRe line = Some [hashes; h] →
  (length hashes = 2%nat ∨ length hashes = 3%nat) ∧ forallb dot h = true.
Proof.
  intros Hexec. split.
  - unfold headingRe in Hexec. cbn [exec match_atom] in Hexec.
    apply backtrack_Some in Hexec as (j & [Hlo Hhi] & Hk & _).
    apply fmap_Some in Hk as (caps & _ & [= -> _]).
    pose proof (span_le (chr "#") line). rewrite length_take. lia.
  - revert Hexec.
    change headingRe with
      ([Group (Rep (chr "#") 2 (Some 3%nat)); Plain (plus is_space)] ++ [Group (plus dot)]).
    intros (init & body & Hcaps & _ & Hdot)%exec_last_dot.
    destruct init as [|? [|? [|? ?]]]; simplify_eq/=. done.
Qed.

Section Host.
Variable unicodeLower : str → str.

Lemma flush_proper fileName cur :
  (∀ s, cur = Some s → proper_section fileName s) →
  Forall (λ s, tasks s ≠ [] ∧ proper_section fileName s) (flush cur).
Proof.
  intros Hcur. unfold flush. destruct cur as [s|]; [|constructor].
  case_bool_decide as Hlen; [|constructor]. constructor; [|constructor].
  split; [|by apply Hcur]. intros Hnil. rewrite Hnil in Hlen. simpl in Hlen. lia.
Qed.

Lemma push_proper fileName t s :
  trim (text t) = text t → proper_section fileName s → proper_section fileName (push t s).
Proof.
  intros Ht (Hlevel & Hsource & Hheading & Htasks). unfold proper_section. simpl.
  split_and!; [done..|]. apply list.Forall_app. split; [done|]. by repeat constructor.
Qed.

Lemma walk_proper fileName lines cur :
  (∀ s, cur = Some s → proper_section fileName s) →
  Forall (λ s, tasks s ≠ [] ∧ proper_section fileName s) (walk unicodeLower fileName lines cur).
Proof.
  revert cur. induction lines as [|line rest IH]; intros cur Hcur; cbn [walk].
  { by apply flush_proper. }
  assert (∀ t, trim (text t) = text t →
            Forall (λ s, tasks s ≠ [] ∧ proper_section fileName s)
                   (walk unicodeLower fileName rest (push t <$> cur))) as Hpush.
  { intros t Ht. apply IH. intros s (s0 & -> & ->)%fmap_Some. apply push_proper; auto. }
  destruct (exec headingRe line) as [[|hashes [|h [|??]]]|] eqn:Hh.
  3:{ apply prd_headingRe_caps in Hh as [Hlevel Hdot].
      apply list.Forall_app. split; [by apply flush_proper|]. apply IH.
      intros s [= <-]. unfold proper_section. simpl.
      split_and!; [done|done|by apply tidy_trim|constructor]. }
  all: destruct (exec checkRe line) as [[|mark [|t [|??]]]|] eqn:Hc;
    destruct cur as [cur|];
    try (destruct (exec tableRe line) as [[|cell [|mark' [|??]]]|] eqn:Ht;
         try destruct (is_task_cell unicodeLower (trim cell)));
    try (by apply IH);
    try (apply (Hpush (mkTask _ _)); simpl; by apply trim_idem).
Qed.

(** X22.  Every section that [parsePRD] returns has at least one task,
    is of level 2 or 3, names the file as its source, has a heading
    without white space at either end and without a line break, and
    holds task texts without white space at either end. *)
Theorem parsePRD_sections content fileName :
  Forall (λ s, tasks s ≠ [] ∧ proper_section fileName s)
         (parsePRD unicodeLower content fileName).
Proof. apply walk_proper. by intros s. Qed.

End Host.

End ParseFacts.

Module MergeOrderFacts.
Import Js Migrate MigrateFacts.

Section Host.
Variable unicodeLower : str → str.

Lemma merge_step_keys m s :
  (merge_step unicodeLower m s).*1
  = if bool_decide (key unicodeLower s ∈ m.*1) then m.*1
    else m.*1 ++ [key unicodeLower s].
Proof.
  unfold merge_step.
  destruct (Map_get (key unicodeLower s) m) as [e|] eqn:Hget.
  - rewrite Map_modify_keys. rewrite bool_decide_eq_true_2; [done|].
    destruct (decide (key unicodeLower s ∈ m.*1)) as [|Hnot]; [done|].
    apply Map_get_None in Hnot. congruence.
  - apply Map_get_None in Hget. rewrite bool_decide_eq_false_2 by done.
    by rewrite fmap_app.
Qed.

Lemma merge_keys secs :
  (merge unicodeLower secs).*1 = first_seen (key unicodeLower <$> secs).
Proof.
  induction secs as [|s secs IH] using rev_ind; [done|].
  rewrite merge_snoc, merge_step_keys, IH.
  unfold first_seen. by rewrite fmap_app, foldl_app.
Qed.

(** X23.  The merge yields one section per distinct slug, in the order
    in which the slugs first appear among the parsed sections; each final
    section sits under the slug of its own heading. *)
Theorem finalSections_by_slug secs :
  key unicodeLower <$> finalSections unicodeLower secs
  = first_seen (key unicodeLower <$> secs) ∧
  NoDup (key unicodeLower <$> finalSections unicodeLower secs).
Proof.
  destruct (merge_well_keyed unicodeLower secs) as [Hnodup Hkeys].
  assert (key unicodeLower <$> finalSections unicodeLower secs
          = (merge unicodeLower secs).*1) as Heq.
  { unfold finalSections. rewrite <- list_fmap_compose.
    apply list_fmap_ext. intros i e He. rewrite Forall_forall in Hkeys.
    apply Hkeys. by eapply list_elem_of_lookup_2. }
  rewrite Heq. split; [apply merge_keys|done].
Qed.

End Host.

End MergeOrderFacts.

Module NumberFacts.
Import Js Migrate.

Lemma lit_app a b : lit (a +:+ b) = lit a ++ lit b.
Proof.
  unfold lit. induction a as [|c a IH]; [done|].
  change (String c a +:+ b) with (String c (a +:+ b)).
  cbn [String.list_ascii_of_string]. csimpl. by rewrite IH.
Qed.

Lemma lit_inj a b : lit a = lit b → a = b.
Proof.
  unfold lit. revert b. induction a as [|c a IH]; intros [|c' b]; simpl; try done.
  intros [= Hc Hrest]. f_equal; [|by apply IH].
  rewrite <- (Ascii.ascii_N_embedding c), <- (Ascii.ascii_N_embedding c'). by rewrite Hc.
Qed.

Lemma pretty_N_char_digit x :
  LiveApi.is_digit (Ascii.N_of_ascii (pretty_N_char x)) = true.
Proof. unfold pretty_N_char. by repeat case_match. Qed.

Lemma pretty_N_char_nonzero x :
  (0 < x < 10)%N → Ascii.N_of_ascii (pretty_N_char x) ≠ 48%N.
Proof.
  intros Hx.
  assert (x = 1 ∨ x = 2 ∨ x = 3 ∨ x = 4 ∨ x = 5 ∨ x = 6 ∨ x = 7 ∨ x = 8 ∨ x = 9)%N
    as Hcases by lia.
  destruct_or!; subst; done.
Qed.

(** The digits that [pretty_N_go] puts before the string it is given:
    none for [0], otherwise decimal digits that do not start with [0]. *)
Lemma pretty_N_go_digits x s :
  ∃ d, lit (pretty_N_go x s) = d ++ lit s ∧
       Forall (λ c, LiveApi.is_digit c = true) d ∧
       (x = 0%N → d = []) ∧
       ((0 < x)%N → ∃ c d', d = c :: d' ∧ c ≠ 48%N).
Proof.
  revert s. induction (N.lt_wf_0 x) as [x _ IH]; intros s.
  destruct (decide (x = 0%N)) as [->|Hx].
  { exists []. rewrite pretty_N_go_0. split_and!; [done|constructor|done|lia]. }
  assert (0 < x)%N as Hpos by lia.
  rewrite pretty_N_go_step by done.
  destruct (IH (x `div` 10)%N (N.div_lt x 10 Hpos eq_refl)
               (String (pretty_N_char (x `mod` 10)) s)) as (d & Hd & Hdigits & Hzero & Hlead).
  exists (d ++ [Ascii.N_of_ascii (pretty_N_char (x `mod` 10))]).
  split_and!.
  - rewrite Hd. rewrite <- (assoc_L (++)). done.
  - apply list.Forall_app. split; [done|]. repeat constructor. apply pretty_N_char_digit.
  - done.
  - intros _. destruct (decide (x `div` 10 = 0)%N) as [Hsmall|Hbig].
    + rewrite (Hzero Hsmall). eexists _, []. split; [done|].
      apply pretty_N_char_nonzero.
      assert (x < 10)%N by (by apply (N.div_small_iff x 10)).
      rewrite N.mod_small by done. lia.
    + destruct Hlead as (c & d' & -> & Hc); [by apply N.neq_0_lt_0|]. by eexists c, _.
Qed.

Lemma String_of_digits n :
  Forall (λ c, LiveApi.is_digit c = true) (String_of n) ∧
  String_of n ≠ [] ∧
  (head (String_of n) = Some 48%N → n = 0%nat).
Proof.
  unfold String_of, pretty, pretty_nat, pretty, pretty_N.
  case_decide as Hn.
  { split_and!; [by repeat constructor|done|]. intros _. lia. }
  destruct (pretty_N_go_digits (N.of_nat n) "") as (d & Hd & Hdigits & _ & Hlead).
  destruct Hlead as (c & d' & -> & Hc); [lia|].
  rewrite Hd. change (lit "") with (@nil N). rewrite app_nil_r.
  split_and!; [done|done|]. simpl. by intros [= ->].
Qed.

Lemma String_of_inj a b : String_of a = String_of b → a = b.
Proof. unfold String_of. intros H%lit_inj. by apply (inj pretty). Qed.

End NumberFacts.

Module RoundTripFacts.
Import Js Migrate JsFacts ChecklistFacts TrimFacts NumberFacts.

Lemma split_line (a rest : str) :
  Forall (λ c, c ≠ LF) a → split LF (a ++ LF :: rest) = a :: split LF rest.
Proof.
  induction 1 as [|c a Hc _ IH]; simpl; [done|].
  rewrite (proj2 (N.eqb_neq c LF)) by done. by rewrite IH.
Qed.

Lemma split_lines (ls : list str) :
  Forall (Forall (λ c, c ≠ LF)) ls →
  split LF (ls ≫= λ l, l ++ [LF]) = ls ++ [[]].
Proof.
  induction 1 as [|l ls Hl _ IH]; csimpl; [done|].
  rewrite <- (assoc_L (++)). simpl. by rewrite split_line, IH.
Qed.

Lemma add_task_lines c ts :
  foldl add_task_line c ts = c ++ (task_line <$> ts) ≫= λ l, l ++ [LF].
Proof.
  revert c. induction ts as [|t ts IH]; intros c; csimpl; [by rewrite app_nil_r|].
  rewrite IH. unfold add_task_line, task_line. by rewrite <- !(assoc_L (++)).
Qed.

Section Host.
Variable unicodeLower : str → str.

Lemma content_lines section index :
  content (generateTaskFile unicodeLower section index)
  = (header_lines section ++ (task_line <$> tasks section)) ≫= λ l, l ++ [LF].
Proof.
  unfold generateTaskFile. cbn [content]. rewrite add_task_lines, bind_app. f_equal.
  unfold header_lines. rewrite !bind_cons.
  change (@nil str ≫= λ l, l ++ [LF]) with (@nil N).
  rewrite <- !(assoc_L (++)). cbn [app]. reflexivity.
Qed.

End Host.

(** *** Lines that are no checklist item and no heading *)

Lemma checkRe_None_first c (s : str) :
  is_space c = false → chr "-*" c = false → exec Checklist.checkRe (c :: s) = None.
Proof.
  intros Hs Hb. unfold Checklist.checkRe, star.
  cbn [exec match_atom span]. rewrite Hs.
  cbn [backtrack Nat.ltb Nat.leb drop exec match_atom]. by rewrite Hb.
Qed.

Lemma headingRe_None_first c (s : str) :
  chr "#" c = false → exec Checklist.headingRe (c :: s) = None.
Proof.
  intros Hc. unfold Checklist.headingRe.
  cbn [exec match_atom span]. rewrite Hc. done.
Qed.

Lemma prd_headingRe_None_first c (s : str) :
  chr "#" c = false → exec Migrate.headingRe (c :: s) = None.
Proof.
  intros Hc. unfold Migrate.headingRe.
  cbn [exec match_atom span]. rewrite Hc. done.
Qed.

Lemma scan_other line rest h :
  exec Checklist.checkRe line = None → exec Checklist.headingRe line = None →
  Checklist.scan (line :: rest) h = Checklist.scan rest h.
Proof. intros Hc Hh. cbn [Checklist.scan]. by rewrite Hc, Hh. Qed.

Lemma scan_title line rest h :
  exec Checklist.checkRe line = None →
  ∃ h', Checklist.scan (line :: rest) h = Checklist.scan rest h'.
Proof. intros Hc. cbn [Checklist.scan]. rewrite Hc. by eexists. Qed.

Lemma scan_heading line rest h x :
  exec Checklist.checkRe line = None → exec Checklist.headingRe line = Some [x] →
  Checklist.scan (line :: rest) h = Checklist.scan rest (trim x).
Proof. intros Hc Hh. cbn [Checklist.scan]. by rewrite Hc, Hh. Qed.

Lemma LF_free_literal (l : str) :
  forallb (λ c, negb (c =? LF)%N) l = true → Forall (λ c, c ≠ LF) l.
Proof.
  induction l as [|c l IH]; simpl; [constructor|].
  intros [Hc Hl]%andb_prop. constructor; [|by apply IH].
  apply negb_true_iff in Hc. by apply N.eqb_neq.
Qed.

Lemma LF_free_dot (l : str) : forallb dot l = true → Forall (λ c, c ≠ LF) l.
Proof.
  induction l as [|c l IH]; simpl; [constructor|].
  intros [Hc Hl]%andb_prop. constructor; [|by apply IH].
  intros ->. done.
Qed.

Lemma LF_free_number n : Forall (λ c, c ≠ LF) (String_of n).
Proof.
  destruct (String_of_digits n) as [Hdigits _].
  eapply Forall_impl; [exact Hdigits|]. intros c Hc ->. done.
Qed.

Lemma task_line_LF_free t : tidy (text t) → Forall (λ c, c ≠ LF) (task_line t).
Proof.
  intros [_ Hdot]. unfold task_line.
  repeat (apply list.Forall_app; split); try (apply LF_free_literal; by destruct (done t)).
  by apply LF_free_dot.
Qed.

Lemma header_LF_free section :
  Forall (λ c, c ≠ LF) (heading section) → Forall (λ c, c ≠ LF) (source section) →
  Forall (Forall (λ c, c ≠ LF)) (header_lines section).
Proof.
  intros Hh Hs. unfold header_lines.
  repeat constructor;
    repeat (apply list.Forall_app; split);
    try done; try apply LF_free_number; by apply LF_free_literal.
Qed.

(** The header sets the section to [Tasks] and holds no item. *)
Lemma scan_header section rest h :
  Checklist.scan (header_lines section ++ rest) h = Checklist.scan rest (lit "Tasks").
Proof.
  unfold header_lines. cbn [app].
  change (lit "# ") with ([35; 32]%N).
  change (lit "> Source: `") with (62%N :: lit " Source: `").
  change (lit "> Progress: ") with (62%N :: lit " Progress: ").
  cbn [app].
  match goal with
  | |- Checklist.scan (?l :: ?r) h = _ =>
      destruct (scan_title l r h) as [h' ->]; [by apply checkRe_None_first|]
  end.
  rewrite scan_other by done.
  rewrite scan_other by (by apply checkRe_None_first || by apply headingRe_None_first).
  rewrite scan_other by (by apply checkRe_None_first || by apply headingRe_None_first).
  rewrite scan_other by done.
  rewrite (scan_heading _ _ _ (lit "Tasks")) by done.
  by rewrite scan_other by done.
Qed.

Lemma scan_task_lines ts h :
  Forall (λ t, tidy (text t)) ts →
  Checklist.scan ((task_line <$> ts) ++ [[]]) h
  = (λ t, Checklist.mkItem (done t) (text t) h) <$> ts.
Proof.
  induction 1 as [|t ts [Htrim Hdot] _ IH]; [done|].
  rewrite !fmap_cons.
  change ((task_line t :: (task_line <$> ts)) ++ [[]])
    with (task_line t :: ((task_line <$> ts) ++ [[]])).
  set (mark := if done t then 120%N else 32%N).
  assert (Checklist.bullet_line (task_line t) mark (32%N :: text t)) as Hbullet.
  { exists [], 45%N, [32%N]. split_and!; try done; try (by unfold mark; destruct (done t)).
    unfold task_line, mark. by destruct (done t). }
  destruct (exec_checkRe_bullet _ _ _ Hbullet) as (body & Hexec & Hbody).
  assert (trim (32%N :: text t) = text t) as Htext.
  { change (32%N :: text t) with ([32%N] ++ text t).
    by rewrite (trim_app_spaces [32%N] (text t)). }
  rewrite Htext in Hbody. specialize (Hbody Hdot).
  cbn [Checklist.scan]. rewrite Hexec.
  assert (exec Checklist.headingRe (task_line t) = None) as ->.
  { unfold task_line. change (lit "- [") with (45%N :: lit " [").
    by apply headingRe_None_first. }
  rewrite Hbody, IH. f_equal. f_equal.
  rewrite is_x_mark by (unfold mark; by destruct (done t)).
  unfold mark. by destruct (done t).
Qed.

Section RoundTrip.
Variable unicodeLower : str → str.

(** X24.  A generated task file read back by the aggregators' parser
    gives the tasks of the section, in order, with their done state and
    text, all under the section name [Tasks]: provided heading and source
    hold no line feed and each task text is free of surrounding white
    space and of line breaks, as the texts that [parsePRD] takes from
    checklist lines are. *)
Theorem generated_file_parses_back section index anyName :
  Forall (λ c, c ≠ LF) (heading section) → Forall (λ c, c ≠ LF) (source section) →
  Forall (λ t, tidy (text t)) (tasks section) →
  Checklist.parseChecklists (content (generateTaskFile unicodeLower section index)) anyName
  = (λ t, Checklist.mkItem (done t) (text t) (lit "Tasks")) <$> tasks section.
Proof.
  intros Hheading Hsource Htasks. unfold Checklist.parseChecklists.
  rewrite content_lines, split_lines.
  - rewrite <- (assoc_L (++)), scan_header. by apply scan_task_lines.
  - apply list.Forall_app. split; [by apply header_LF_free|].
    apply Forall_fmap. eapply Forall_impl; [exact Htasks|].
    intros t Ht. by apply task_line_LF_free.
Qed.

End RoundTrip.

Lemma generated_file_parses_back_witness :
  Checklist.parseChecklists (content (generateTaskFile id setup_section 1))
                            (lit "tasks/01-setup.md")
  = [Checklist.mkItem true (lit "install") (lit "Tasks");
     Checklist.mkItem false (lit "configure") (lit "Tasks")].
Proof.
  apply (generated_file_parses_back id setup_section 1 (lit "tasks/01-setup.md")).
  - apply LF_free_literal. reflexivity.
  - apply LF_free_literal. reflexivity.
  - repeat constructor.
Defined.

(** *** Read back by [parsePRD] *)

Lemma prd_title_None (s : str) : exec Migrate.headingRe (35%N :: 32%N :: s) = None.
Proof. reflexivity. Qed.

Section Again.
Variable unicodeLower : str → str.

Lemma walk_None fileName line rest :
  exec Migrate.headingRe line = None →
  walk unicodeLower fileName (line :: rest) None = walk unicodeLower fileName rest None.
Proof.
  intros Hh. cbn [walk]. rewrite Hh.
  destruct (exec checkRe line) as [[|? [|? [|??]]]|]; try done;
    by destruct (exec tableRe line) as [[|? [|? [|??]]]|].
Qed.

Lemma walk_heading fileName line rest cur hashes h :
  exec Migrate.headingRe line = Some [hashes; h] →
  walk unicodeLower fileName (line :: rest) cur
  = flush cur ++ walk unicodeLower fileName rest
                   (Some (mkSection (trim h) (length hashes) [] fileName)).
Proof. intros Hh. cbn [walk]. by rewrite Hh. Qed.

Lemma walk_blank fileName rest cur :
  walk unicodeLower fileName ([] :: rest) cur = walk unicodeLower fileName rest cur.
Proof. by destruct cur. Qed.

Lemma walk_task_lines fileName ts S :
  Forall (λ t, tidy (text t)) ts →
  walk unicodeLower fileName ((task_line <$> ts) ++ [[]]) (Some S)
  = flush (Some (mkSection (heading S) (level S) (tasks S ++ ts) (source S))).
Proof.
  intros Hts. revert S. induction Hts as [|t ts [Htrim Hdot] _ IH]; intros S.
  { rewrite app_nil_r. change ((task_line <$> []) ++ [[]]) with [@nil N].
    rewrite walk_blank. cbn [walk]. by destruct S. }
  rewrite !fmap_cons.
  change ((task_line t :: (task_line <$> ts)) ++ [[]])
    with (task_line t :: ((task_line <$> ts) ++ [[]])).
  set (mark := if done t then 120%N else 32%N).
  assert (Checklist.bullet_line (task_line t) mark (32%N :: text t)) as Hbullet.
  { exists [], 45%N, [32%N]. split_and!; try done; try (by unfold mark; destruct (done t)).
    unfold task_line, mark. by destruct (done t). }
  destruct (exec_checkRe_bullet _ _ _ Hbullet) as (body & Hexec & Hbody).
  assert (trim (32%N :: text t) = text t) as Htext.
  { change (32%N :: text t) with ([32%N] ++ text t).
    by rewrite (trim_app_spaces [32%N] (text t)). }
  rewrite Htext in Hbody. specialize (Hbody Hdot).
  cbn [walk].
  assert (exec Migrate.headingRe (task_line t) = None) as ->.
  { unfold task_line. change (lit "- [") with (45%N :: lit " [").
    by apply prd_headingRe_None_first. }
  unfold checkRe. rewrite Hexec, Hbody, IH. simpl. f_equal. f_equal. f_equal.
  rewrite <- (assoc_L (++)). f_equal. simpl. f_equal.
  rewrite is_x_mark by (unfold mark; by destruct (done t)).
  unfold mark. by destruct t as [[] ?].
Qed.

(** X25.  A generated task file read by the migration's own parser: the
    level-1 title is no section, so all tasks come back as one section
    named [Tasks] of level 2, or none if the section had no task; the
    heading the file was generated from is not recovered. *)
Theorem generated_file_is_one_section section index fileName' :
  Forall (λ c, c ≠ LF) (heading section) → Forall (λ c, c ≠ LF) (source section) →
  Forall (λ t, tidy (text t)) (tasks section) →
  parsePRD unicodeLower (content (generateTaskFile unicodeLower section index)) fileName'
  = match tasks section with
    | [] => []
    | _ => [mkSection (lit "Tasks") 2 (tasks section) fileName']
    end.
Proof.
  intros Hheading Hsource Htasks. unfold parsePRD.
  rewrite content_lines, split_lines.
  2:{ apply list.Forall_app. split; [by apply header_LF_free|].
      apply Forall_fmap. eapply Forall_impl; [exact Htasks|].
      intros t Ht. by apply task_line_LF_free. }
  rewrite <- (assoc_L (++)). unfold header_lines. cbn [app].
  change (lit "# ") with ([35; 32]%N).
  change (lit "> Source: `") with (62%N :: lit " Source: `").
  change (lit "> Progress: ") with (62%N :: lit " Progress: ").
  cbn [app].
  rewrite walk_None by apply prd_title_None.
  rewrite walk_blank.
  rewrite walk_None by (by apply prd_headingRe_None_first).
  rewrite walk_None by (by apply prd_headingRe_None_first).
  rewrite walk_blank.
  rewrite (walk_heading _ _ _ _ (lit "##") (lit "Tasks")) by done.
  cbn [flush app]. change (trim (lit "Tasks")) with (lit "Tasks").
  change (length (lit "##")) with 2%nat.
  rewrite walk_blank, walk_task_lines by done.
  cbn [flush heading level tasks source app].
  destruct (tasks section); [done|]. by rewrite bool_decide_eq_true_2 by (simpl; lia).
Qed.

End Again.

Lemma generated_file_is_one_section_witness :
  parsePRD id (content (generateTaskFile id setup_section 1)) (lit "tasks/01-setup.md")
  = [mkSection (lit "Tasks") 2 (tasks setup_section) (lit "tasks/01-setup.md")].
Proof.
  apply (generated_file_is_one_section id setup_section 1 (lit "tasks/01-setup.md")).
  - apply LF_free_literal. reflexivity.
  - apply LF_free_literal. reflexivity.
  - repeat constructor.
Defined.

End RoundTripFacts.

Module FileNameFacts.
Import Js Migrate NumberFacts SlugFacts.

Lemma digit_prefix (d1 d2 r1 r2 : str) :
  Forall (λ c, LiveApi.is_digit c = true) d1 →
  Forall (λ c, LiveApi.is_digit c = true) d2 →
  d1 ++ 45%N :: r1 = d2 ++ 45%N :: r2 → d1 = d2.
Proof.
  intros H1. revert d2. induction H1 as [|c d1 Hc _ IH]; intros d2 H2 Heq.
  - destruct H2 as [|c' d2 Hc' _]; [done|].
    injection Heq as <- _. done.
  - destruct H2 as [|c' d2 Hc' H2].
    + injection Heq as -> _. done.
    + injection Heq as -> Heq. f_equal. by eapply IH.
Qed.

Lemma padStart2_digits n : Forall (λ c, LiveApi.is_digit c = true) (padStart2 (String_of n)).
Proof.
  unfold padStart2. apply list.Forall_app. split; [|apply String_of_digits].
  by apply Forall_replicate.
Qed.

Lemma padStart2_inj a b : padStart2 (String_of a) = padStart2 (String_of b) → a = b.
Proof.
  assert (∀ a b, length (String_of a) = 1%nat → (2 ≤ length (String_of b))%nat →
            padStart2 (String_of a) ≠ padStart2 (String_of b)) as Hmixed.
  { intros x y Hx Hy Heq. unfold padStart2 in Heq.
    rewrite Hx in Heq. replace (2 - length (String_of y))%nat with 0%nat in Heq by lia.
    simpl in Heq. destruct (String_of_digits y) as (_ & _ & Hzero).
    rewrite <- Heq in Hzero, Hy. specialize (Hzero eq_refl). subst y.
    rewrite Heq in Hy. vm_compute in Hy. lia. }
  intros Heq. apply String_of_inj.
  destruct (String_of_digits a) as (_ & Ha & _), (String_of_digits b) as (_ & Hb & _).
  destruct (decide (length (String_of a) = 1%nat)) as [Ha1|Ha2],
           (decide (length (String_of b) = 1%nat)) as [Hb1|Hb2].
  - unfold padStart2 in Heq. rewrite Ha1, Hb1 in Heq. simpl in Heq. by simplify_eq.
  - destruct (Hmixed a b); [done| |done].
    destruct (String_of b); simpl in *; [done|lia].
  - destruct (Hmixed b a); [done| |done].
    destruct (String_of a); simpl in *; [done|lia].
  - unfold padStart2 in Heq.
    replace (2 - length (String_of a))%nat with 0%nat in Heq
      by (destruct (String_of a); simpl in *; [done|lia]).
    replace (2 - length (String_of b))%nat with 0%nat in Heq
      by (destruct (String_of b); simpl in *; [done|lia]).
    done.
Qed.

Section Host.
Variable unicodeLower : str → str.

Lemma fileName_index s s' i j :
  fileName (generateTaskFile unicodeLower s i)
  = fileName (generateTaskFile unicodeLower s' j) → i = j.
Proof.
  unfold generateTaskFile. cbn [fileName].
  change (lit "-") with [45%N]. cbn [app]. intros Heq.
  apply padStart2_inj. eapply digit_prefix; [apply padStart2_digits..|exact Heq].
Qed.

(** X26.  No two of the task files generated for a repository have the
    same name, whatever the headings: the two-digit (or longer) number in
    front tells them apart, so no file overwrites another. *)
Theorem taskFiles_distinct_names secs :
  NoDup (fileName <$> taskFiles unicodeLower secs).
Proof.
  apply NoDup_alt. intros i j x. unfold taskFiles.
  rewrite !list_lookup_fmap, !list_lookup_imap.
  intros (tf & (s & _ & ->)%fmap_Some & ->)%fmap_Some.
  intros (tf' & (s' & _ & ->)%fmap_Some & Heq)%fmap_Some.
  apply fileName_index in Heq. lia.
Qed.

Lemma slug_char_dot c : is_slug_char c = true → dot c = true.
Proof.
  unfold is_slug_char, dot, is_line_terminator.
  repeat match goal with
         | |- context [(?a <=? ?b)%N] => destruct (N.leb_spec a b)
         | |- context [(?a =? ?b)%N] => destruct (N.eqb_spec a b)
         end; simpl; try done; lia.
Qed.

Lemma digit_dot c : LiveApi.is_digit c = true → dot c = true.
Proof.
  unfold LiveApi.is_digit, dot, is_line_terminator.
  repeat match goal with
         | |- context [(?a <=? ?b)%N] => destruct (N.leb_spec a b)
         | |- context [(?a =? ?b)%N] => destruct (N.eqb_spec a b)
         end; simpl; try done; lia.
Qed.

Lemma forallb_Forall_true {A} (p : A → bool) (l : list A) :
  Forall (λ c, p c = true) l → forallb p l = true.
Proof. induction 1 as [|c l Hc _ IH]; simpl; [done|]. by rewrite Hc. Qed.

(** X27.  The aggregator recognises every generated task file: the
    path [tasks/<fileName>] under which a task file is written passes
    [PRD_FILE_PATTERN], so the files the migration pushes are the ones the
    dashboard reads. *)
Theorem generated_path_is_scanned section index :
  LiveApi.PRD_FILE_PATTERN_test
    (lit "tasks/" ++ fileName (generateTaskFile unicodeLower section index)) = true.
Proof.
  unfold LiveApi.PRD_FILE_PATTERN_test.
  set (f := lit "tasks/" ++ _).
  apply existsb_exists. exists 0%nat. split; [apply in_seq; simpl; lia|].
  rewrite drop_0. unfold LiveApi.token_then_md, LiveApi.PRD_TOKENS.
  apply existsb_exists. exists (lit "tasks"). split.
  { apply list_elem_of_In. apply list_elem_of_fmap. exists "tasks". split; [done|].
    do 4 apply list_elem_of_further. apply list_elem_of_here. }
  set (name := padStart2 (String_of index) ++ lit "-"
               ++ slugify unicodeLower (heading section)).
  assert (f = lit "tasks" ++ (47%N :: name) ++ lit ".md") as ->.
  { unfold f, name, generateTaskFile. cbn [fileName].
    change (lit "tasks/") with (lit "tasks" ++ [47%N]).
    cbn [app]. rewrite <- !(assoc_L (++)). cbn [app]. reflexivity. }
  assert (forallb dot (47%N :: name) = true) as Hdot.
  { apply forallb_Forall_true. constructor; [done|]. unfold name.
    apply list.Forall_app; split; [|apply list.Forall_app; split].
    - eapply Forall_impl; [apply padStart2_digits|]. apply digit_dot.
    - by repeat constructor.
    - destruct (slugify_shape unicodeLower (heading section)) as (_ & Hchars & _).
      eapply Forall_impl; [exact Hchars|]. apply slug_char_dot. }
  change (length (lit "tasks")) with 5%nat.
  assert (LiveApi.prefix_ci (lit "tasks") (lit "tasks" ++ (47%N :: name) ++ lit ".md") = true)
    as -> by done.
  change (drop 5 (lit "tasks" ++ (47%N :: name) ++ lit ".md"))
    with ((47%N :: name) ++ lit ".md").
  rewrite length_app. change (length (lit ".md")) with 3%nat.
  replace (length (47%N :: name) + 3 - 3)%nat with (length (47%N :: name)) by lia.
  rewrite drop_app_length, take_app_length, Hdot.
  rewrite bool_decide_eq_true_2 by lia. done.
Qed.

End Host.

End FileNameFacts.

Module TaskIdFacts.
Import Js LiveApi NumberFacts FileNameFacts.

Lemma collapse_app p rep b (x y : str) :
  collapse p rep b (x ++ y)
  = collapse p rep b x ++ collapse p rep (foldl (λ _ c, p c) b x) y.
Proof.
  revert b. induction x as [|c x IH]; intros b; [done|].
  cbn [app collapse foldl]. destruct (p c) eqn:Hc.
  - destruct b; by rewrite IH.
  - by rewrite IH.
Qed.

Lemma foldl_last_state (p : N → bool) b (x : str) c :
  foldl (λ _ c, p c) b (x ++ [c]) = p c.
Proof. by rewrite foldl_app. Qed.

Lemma number_digits n :
  Forall (λ c, is_digit c = true) (number n) ∧ number n ≠ [].
Proof. destruct (String_of_digits n) as (H1 & H2 & _). by split. Qed.

Lemma number_inj a b : number a = number b → a = b.
Proof. apply String_of_inj. Qed.

Lemma digit_is_id_unit c : is_digit c = true → is_id_unit c = true.
Proof. unfold is_digit, is_id_unit. intros ->. by rewrite orb_true_r. Qed.

Lemma digit_is_lower c : is_digit c = true → lower_latin_unit c = c ∧ (c <? 128)%N = true.
Proof.
  unfold is_digit, lower_latin_unit. intros [H1 H2]%andb_true_iff.
  apply N.leb_le in H1, H2. split.
  - destruct (N.leb_spec 65 c); simpl; [lia|done].
  - apply N.ltb_lt. lia.
Qed.

Lemma lower_digits (d : str) :
  Forall (λ c, is_digit c = true) d → lower_latin d = d ∧ is_latin d = true.
Proof.
  unfold lower_latin, is_latin. induction 1 as [|c d Hc _ [IH1 IH2]]; [done|].
  destruct (digit_is_lower c Hc) as [H1 H2]. csimpl. by rewrite H1, H2, IH1, IH2.
Qed.

Lemma is_latin_app (a b : str) : is_latin (a ++ b) = is_latin a && is_latin b.
Proof. unfold is_latin. apply forallb_app. Qed.

Lemma lower_latin_app (a b : str) : lower_latin (a ++ b) = lower_latin a ++ lower_latin b.
Proof. unfold lower_latin. apply fmap_app. Qed.

Lemma collapse_digits b (d : str) :
  Forall (λ c, is_digit c = true) d → d ≠ [] →
  collapse (λ c, negb (is_id_unit c)) 45%N b d = d ∧
  foldl (λ _ c, negb (is_id_unit c)) b d = false.
Proof.
  intros Hd. revert b. induction Hd as [|c d Hc Hd IH]; intros b Hne; [done|].
  cbn [collapse foldl]. rewrite (digit_is_id_unit c Hc). cbn [negb].
  destruct d as [|c' d']; [done|].
  destruct (IH false) as [H1 H2]; [done|]. by rewrite H1, H2.
Qed.

Section Host.
Variable unicodeLower : str → str.

Lemma task_id_shape repoName k i :
  is_latin repoName = true →
  id_of unicodeLower (repoName ++ lit "-m" ++ number k ++ lit "-t" ++ number i)
  = id_prefix repoName ++ 109%N :: number k ++ 45%N :: 116%N :: number i.
Proof.
  intros Hlatin. unfold id_of, toLowerCase.
  destruct (number_digits k) as [Hk Hk0], (number_digits i) as [Hi Hi0].
  destruct (lower_digits _ Hk) as [Hlk Hak], (lower_digits _ Hi) as [Hli Hai].
  rewrite !is_latin_app, Hlatin, Hak, Hai.
  change (is_latin (lit "-m")) with true. change (is_latin (lit "-t")) with true.
  cbn [andb]. rewrite !lower_latin_app, Hlk, Hli.
  change (lower_latin (lit "-m")) with [45%N; 109%N].
  change (lower_latin (lit "-t")) with [45%N; 116%N].
  rewrite collapse_app. unfold id_prefix. rewrite <- app_assoc. f_equal.
  set (b := foldl _ false (lower_latin repoName)).
  assert (collapse (λ c, negb (is_id_unit c)) 45%N false
            (number k ++ 45%N :: 116%N :: number i)
          = number k ++ 45%N :: 116%N :: number i) as Hrest.
  { rewrite collapse_app.
    destruct (collapse_digits false _ Hk Hk0) as [-> ->]. f_equal.
    cbn [collapse]. change (negb (is_id_unit 45)) with true.
    change (negb (is_id_unit 116)) with false. cbv iota. do 2 f_equal.
    by destruct (collapse_digits false _ Hi Hi0) as [-> _]. }
  cbn [app collapse]. change (negb (is_id_unit 45)) with true.
  change (negb (is_id_unit 109)) with false. cbv iota.
  rewrite Hrest. by destruct b.
Qed.

Lemma task_id_inj repoName k i k' i' :
  is_latin repoName = true →
  id_of unicodeLower (repoName ++ lit "-m" ++ number k ++ lit "-t" ++ number i)
  = id_of unicodeLower (repoName ++ lit "-m" ++ number k' ++ lit "-t" ++ number i') →
  k = k' ∧ i = i'.
Proof.
  intros Hlatin. rewrite !task_id_shape by done.
  intros [= Heq]%app_inv_head.
  assert (number k = number k') as Hk.
  { eapply digit_prefix; [apply number_digits..|exact Heq]. }
  rewrite Hk in Heq. apply app_inv_head in Heq. injection Heq as Hi.
  split; by apply number_inj.
Qed.

Lemma commit_id_inj repoName i i' :
  is_latin repoName = true →
  toLowerCase unicodeLower (repoName ++ lit "-c" ++ number i)
  = toLowerCase unicodeLower (repoName ++ lit "-c" ++ number i') → i = i'.
Proof.
  intros Hlatin. unfold toLowerCase.
  destruct (number_digits i) as [Hi _], (number_digits i') as [Hi' _].
  destruct (lower_digits _ Hi) as [Hli Hai], (lower_digits _ Hi') as [Hli' Hai'].
  rewrite !is_latin_app, Hlatin, Hai, Hai'. change (is_latin (lit "-c")) with true.
  cbn [andb]. rewrite !lower_latin_app, Hli, Hli'.
  intros Heq%app_inv_head%app_inv_head. by apply number_inj.
Qed.

Lemma build_tasks_ids repoName k sectionTasks :
  t_id <$> build_tasks unicodeLower repoName k sectionTasks
  = (λ i, id_of unicodeLower (repoName ++ lit "-m" ++ number k ++ lit "-t" ++ number i))
    <$> seq 0 (length (build_tasks unicodeLower repoName k sectionTasks)).
Proof.
  unfold build_tasks. rewrite length_imap, fmap_imap.
  change (imap _ sectionTasks)
    with (imap (λ j _, (λ i, id_of unicodeLower
                  (repoName ++ lit "-m" ++ number k ++ lit "-t" ++ number i)) j) sectionTasks).
  apply imap_seq_0.
Qed.

Lemma push_milestone_numbered repoName file ms entry :
  numbered unicodeLower repoName ms →
  numbered unicodeLower repoName (push_milestone unicodeLower repoName file ms entry).
Proof.
  intros Hms k m. destruct entry as [sectionName sectionTasks]. unfold push_milestone.
  intros [Hk|[Hk Hm]]%lookup_app_Some; [by apply Hms|].
  destruct (k - length ms)%nat as [|?] eqn:Hd; [|done].
  injection Hm as <-. cbn [m_tasks]. replace k with (length ms) by lia.
  apply build_tasks_ids.
Qed.

Lemma from_checklists_numbered repoName prdResults ms ms' :
  from_checklists unicodeLower repoName prdResults ms = Some ms' →
  numbered unicodeLower repoName ms → numbered unicodeLower repoName ms'.
Proof.
  revert ms. induction prdResults as [|[file tasks] rest IH]; intros ms; simpl.
  - by intros [= <-].
  - case_bool_decide; [apply IH|].
    destruct (group file tasks []) as [sections|]; simpl; [|done].
    intros Hrest Hms. eapply IH; [done|]. clear Hrest.
    revert ms Hms. induction (Object_entries sections) as [|e entries IHe]; intros ms Hms;
      simpl; [done|].
    apply IHe. by apply push_milestone_numbered.
Qed.

Lemma numbered_ids_below repoName ms x :
  numbered unicodeLower repoName ms → x ∈ task_ids ms →
  ∃ k i, (k < length ms)%nat ∧
    x = id_of unicodeLower (repoName ++ lit "-m" ++ number k ++ lit "-t" ++ number i).
Proof.
  intros Hms (m & Hx & Hm)%list_elem_of_bind.
  apply list_elem_of_lookup in Hm as [k Hk].
  rewrite (Hms k m Hk) in Hx. apply list_elem_of_fmap in Hx as (i & -> & _).
  exists k, i. split; [|done]. by eapply lookup_lt_Some.
Qed.

Lemma numbered_NoDup repoName ms :
  is_latin repoName = true → numbered unicodeLower repoName ms → NoDup (task_ids ms).
Proof.
  intros Hlatin. induction ms as [|m ms IH] using rev_ind; intros Hms; [constructor|].
  assert (numbered unicodeLower repoName ms) as Hprefix.
  { intros k m' Hk. apply Hms. by apply lookup_app_l_Some. }
  unfold task_ids. rewrite bind_app. apply list.NoDup_app. split_and!.
  - by apply IH.
  - intros x Hx Hx'. destruct (numbered_ids_below _ _ _ Hprefix Hx) as (k & i & Hk & ->).
    rewrite bind_singleton in Hx'.
    rewrite (Hms (length ms) m) in Hx' by (by rewrite lookup_app_r, Nat.sub_diag by lia).
    apply list_elem_of_fmap in Hx' as (i' & Heq & _).
    apply task_id_inj in Heq as [-> _]; [lia|done].
  - rewrite bind_singleton.
    rewrite (Hms (length ms) m) by (by rewrite lookup_app_r, Nat.sub_diag by lia).
    apply NoDup_fmap_2_strong; [|apply NoDup_seq].
    intros i i' _ _ Heq. by apply task_id_inj in Heq as [_ ->].
Qed.

Lemma activity_NoDup repoName commits :
  is_latin repoName = true →
  NoDup (task_ids [recent_activity unicodeLower repoName commits]).
Proof.
  intros Hlatin. unfold task_ids. rewrite bind_singleton. unfold recent_activity.
  cbn [m_tasks]. rewrite fmap_imap.
  change (imap _ (take 5 commits))
    with (imap (λ j _, (λ i, toLowerCase unicodeLower (repoName ++ lit "-c" ++ number i)) j)
               (take 5 commits)).
  rewrite imap_seq_0. apply NoDup_fmap_2_strong; [|apply NoDup_seq].
  intros i i' _ _ Heq. by apply commit_id_inj in Heq.
Qed.

Lemma ensure_current_task_ids ms : task_ids (ensure_current ms) = task_ids ms.
Proof.
  unfold ensure_current. destruct (existsb m_current ms); [done|].
  unfold task_ids. induction ms as [|m ms IH]; [done|].
  cbn [mark_first_undone]. destruct (m_done m); [|done].
  by rewrite !bind_cons, IH.
Qed.

(** X29.  Within one project record the task ids are pairwise different,
    for a repository whose name is Basic Latin (as GitHub's repository
    names are): the ids are numbered by milestone and by position, and the
    rewriting of the id does not merge two numbers. *)
Theorem buildProjectData_task_ids_distinct gh now repo index p :
  is_latin (name repo) = true →
  buildProjectData unicodeLower gh now repo index = Some p →
  NoDup (task_ids (milestones p)).
Proof.
  intros Hlatin. unfold buildProjectData. intros H.
  destruct (mapM _ _) as [prdResults|]; [|done]. simpl in H.
  destruct (match ghFetch gh (get_commits gh (owner repo) (name repo)) with
            | Data cs => Some (Some cs) | Nothing => Some None | Failed => None end)
    as [commits|]; [|done]. simpl in H.
  destruct (from_checklists _ _ _ _) as [ms|] eqn:Hms; [|done]. simpl in H.
  injection H as <-. cbn [milestones]. rewrite ensure_current_task_ids.
  apply from_checklists_numbered in Hms; [|by intros k m].
  destruct ms as [|m0 ms].
  - destruct commits as [[|c cs]|]; [constructor|by apply activity_NoDup|constructor].
  - destruct commits as [[|c cs]|]; by apply (numbered_NoDup (name repo)).
Qed.

End Host.

Lemma buildProjectData_task_ids_distinct_witness :
  ∃ p, buildProjectData (λ s, s) LiveSamples.with_roadmap LiveSamples.now0
         LiveSamples.hq_repo 0 = Some p ∧
       NoDup (task_ids (milestones p)).
Proof.
  eexists. split; [reflexivity|].
  apply (buildProjectData_task_ids_distinct (λ s, s) LiveSamples.with_roadmap
           LiveSamples.now0 LiveSamples.hq_repo 0); reflexivity.
Defined.

End TaskIdFacts.
